(** * The strided copy-and-cast engine of mlx/backend/common/copy.cpp

    A shallow embedding of the copy kernels, the type dispatch and the
    strategy orchestrator, together with the properties the specification
    states about them (C1 to C10) and further properties of the code (X1
    onwards): what a copy leaves in memory, what it leaves alone, which
    paths agree and how copies compose.

    Conventions of the embedding.
    - [stride_t] (the template parameter, [size_t] or [int64_t]) is a [Z]
      with the 64-bit wrap-around written out ([wrap]).
    - [int] dimensions, [int] products of dimensions and [int] loop
      counters are [Z] and computed exactly.  This is what the code
      computes as long as no [int] overflows: every property that depends
      on how many elements a loop with an [int] counter writes, or on a
      dimension the collapser has merged, carries the hypothesis that the
      counts fit an [int] ([INT_MAX], [fits_int]).
    - Raw pointers are a block and an element offset; one memory cell holds
      one array element.  A block has no extent: a property about what a
      call writes names the elements written, not the buffer.
    - The element types [SrcT], [DstT] are tags; [static_cast] is a
      parameter of the engine, as it is a parameter of the templates.
    - [None] stands for a call without a defined result.
    - The array container, the allocator, the index utility and the
      dimension collapser are not in copy.cpp; they are modelled from the
      specification and marked so. *)

From Stdlib Require Import ZArith List Lia Bool Arith.
Import ListNotations.
Local Open Scope Z_scope.

(* ================================================================== *)
(** ** Machine integers *)

(** The two instantiations of the template parameter [stride_t]
    (lines 661-679 of copy.cpp). *)
Inductive stride_t : Type :=
| stride_size_t
| stride_int64_t.

Definition wrap_u64 (x : Z) : Z := x mod 2 ^ 64.

Definition wrap_s64 (x : Z) : Z := (x + 2 ^ 63) mod 2 ^ 64 - 2 ^ 63.

(** Conversion of a mathematical integer to [stride_t]. *)
Definition wrap (st : stride_t) (x : Z) : Z :=
  match st with
  | stride_size_t => wrap_u64 x
  | stride_int64_t => wrap_s64 x
  end.

(** The values a [stride_t] can hold. *)
Definition in_range (st : stride_t) (x : Z) : Prop :=
  match st with
  | stride_size_t => 0 <= x < 2 ^ 64
  | stride_int64_t => - 2 ^ 63 <= x < 2 ^ 63
  end.

Definition in_rangeb (st : stride_t) (x : Z) : bool :=
  match st with
  | stride_size_t => (0 <=? x) && (x <? 2 ^ 64)
  | stride_int64_t => (- 2 ^ 63 <=? x) && (x <? 2 ^ 63)
  end.

(** [v[k]] on a [std::vector]; every access of the kernels is in range by
    the [switch] that selects the kernel. *)
Definition vec_at (v : list Z) (k : nat) : Z := nth k v 0.

Notation "v .[ k ]" := (vec_at v k%nat) (at level 1, format "v .[ k ]").

(** Product of the dimensions of a shape. *)
Definition prod (shape : list Z) : Z := fold_right Z.mul 1 shape.

(** The largest [int]. *)
Definition INT_MAX : Z := 2 ^ 31 - 1.

(** A shape all of whose products fit an [int]: the product of its
    dimensions other than 0 is at most [INT_MAX].  Then the element count
    fits the [int] counters of the loops, and so does the product of every
    run of adjacent dimensions, which is what a merged dimension of the
    collapsed [std::vector<int>] shape holds. *)
Definition fits_int (shape : list Z) : Prop :=
  prod (map (Z.max 1) shape) <= INT_MAX.

(* ================================================================== *)
(** ** Loops *)

Section Loops.
Context {A : Type}.

Fixpoint for_from (n : nat) (i : Z) (body : Z -> A -> A) (a : A) : A :=
  match n with
  | O => a
  | S n' => for_from n' (i + 1) body (body i a)
  end.

(** [for (int i = 0; i < N; ++i) body] *)
Definition for_int (N : Z) (body : Z -> A -> A) (a : A) : A :=
  for_from (Z.to_nat N) 0 body a.

(** A loop whose body does not read its counter. *)
Fixpoint repeat_n (n : nat) (body : A -> A) (a : A) : A :=
  match n with
  | O => a
  | S n' => repeat_n n' body (body a)
  end.
End Loops.

(* ================================================================== *)
(** ** Type tags *)

(** [Dtype::Val], the closed enumeration of array element kinds. *)
Inductive Dtype : Type :=
| bool_ | uint8 | uint16 | uint32 | uint64
| int8 | int16 | int32 | int64
| float16 | float32 | bfloat16 | complex64.


(** The C++ element types the kernels are instantiated at. *)
Inductive elem_t : Type :=
| bool_t | uint8_t | uint16_t | uint32_t | uint64_t
| int8_t | int16_t | int32_t | int64_t
| float16_t | float_t | bfloat16_t | complex64_t.


(** Modelled from the spec: the byte width of a type tag ([size_of] of
    mlx/dtype.h is not part of the sources): boolean, unsigned and signed
    8/16/32/64-bit, 16-bit float, 32-bit float, 16-bit brain float,
    64-bit complex. *)
Definition size_of (d : Dtype) : Z :=
  match d with
  | bool_ => 1
  | uint8 => 1 | uint16 => 2 | uint32 => 4 | uint64 => 8
  | int8 => 1 | int16 => 2 | int32 => 4 | int64 => 8
  | float16 => 2 | float32 => 4 | bfloat16 => 2
  | complex64 => 8
  end.

Inductive CopyType : Type :=
| Scalar
| Vector
| General
| GeneralGeneral.

(* ================================================================== *)
(** ** Pointers, arrays and the allocator *)

Definition block : Type := nat.

Bind Scope nat_scope with block.

Record ptr : Type := mkptr { blk : block; ofs : Z }.

(** Pointer arithmetic, in elements.  The offset is not bounded by the
    extent of an allocation: a pointer past the end of a buffer is a cell of
    the same block here, where the code would reach other memory. *)
Definition ptr_add (p : ptr) (k : Z) : ptr := mkptr (blk p) (ofs p + k).

Notation "p +p k" := (ptr_add p k) (at level 50, left associativity).

Definition ptr_eqb (p q : ptr) : bool :=
  Nat.eqb (blk p) (blk q) && Z.eqb (ofs p) (ofs q).

Record Flags : Type := mkFlags {
  contiguous : bool;
  row_contiguous : bool;
  col_contiguous : bool
}.

(** Modelled from the spec: the array view of section 3 (mlx/array.h is not
    part of the sources): type tag, shape, strides, reachable element count,
    flags, and the typed element pointer [data<T>()], which already points
    at the view's first logical element. *)
Record array : Type := mkarray {
  dtype : Dtype;
  shape : list Z;
  strides : list Z;
  data_size : Z;
  flags : Flags;
  is_donatable : bool;
  data : ptr
}.

(** Modelled from the spec: [product(shape) == size], the logical element
    count of the view. *)
Definition size (a : array) : Z := prod (shape a).

Definition itemsize (a : array) : Z := size_of (dtype a).

Definition nbytes (a : array) : Z := size a * itemsize a.

(** The arguments after [ctype] of the variadic [copy] templates: none, or
    the shape, the two stride vectors and the two offsets of the strided
    entry point. *)
Inductive Args : Type :=
| NoArgs
| StridedArgs (st : stride_t) (data_shape i_strides o_strides : list Z)
              (i_offset o_offset : Z).

(* ================================================================== *)
(** ** Index utility and dimension collapser *)

(** Modelled from the spec: the index utility ([elem_to_loc] of
    mlx/backend/common/utils.h is not part of the sources) converts a linear
    element index into a strided memory offset given a shape and a stride
    vector: the index is unravelled over the shape, innermost dimension
    first, and every coordinate is weighted with its stride.  The pair is
    the offset collected so far and what is left of the index. *)
Fixpoint elem_to_loc_rec (elem : Z) (shape strides : list Z) : Z * Z :=
  match shape, strides with
  | d :: shape', s :: strides' =>
      let '(loc, elem) := elem_to_loc_rec elem shape' strides' in
      (loc + (elem mod d) * s, elem / d)
  | _, _ => (0, elem)
  end.

Definition elem_to_loc (elem : Z) (shape strides : list Z) : Z :=
  fst (elem_to_loc_rec elem shape strides).

(** Modelled from the spec: the dimension collapser
    ([collapse_contiguous_dims] of mlx/backend/common/utils.h is not part of
    the sources).  Dimensions are scanned from the innermost outward;
    dimension [i] merges into dimension [i+1] iff, for every supplied stride
    vector, [stride[i] == stride[i+1] * shape[i+1]].  A merged group has the
    product of its dimensions as size and the strides of its innermost
    dimension.  Nothing is scanned for an empty shape, which stays empty.
    Two things are left open by the words of the specification and settled
    here as follows.  A dimension of size 1 is put to the same test as any
    other and merges only when it passes it; the properties of the
    dual-stride path that need a collapsed rank of at least 1 are stated for
    shapes with a dimension other than 1, for which a collapser that drops
    every dimension of size 1 keeps a dimension too.  The merged sizes are
    exact products; they are the [int]s of the code for a shape that
    [fits_int]. *)
Fixpoint collapse_contiguous_dims (shape : list Z) (strides : list (list Z))
  : list Z * list (list Z) :=
  match shape with
  | [] => ([], map (fun _ => []) strides)
  | d :: shape' =>
      let inner := collapse_contiguous_dims shape' (map (@tl Z) strides) in
      match shape', inner with
      | d1 :: _, (g :: groups, gstrides) =>
          if forallb (fun st => st.[0] =? st.[1] * d1) strides
          then (d * g :: groups, gstrides)
          else (d :: g :: groups,
                map (fun p => (fst p).[0] :: snd p) (combine strides gstrides))
      | _, _ => ([d], map (fun st => [st.[0]]) strides)
      end
  end.

(** The last [n] entries of a vector: the range [v.end() - n, v.end()). *)
Definition lastn (n : nat) (v : list Z) : list Z := skipn (length v - n) v.

(* ================================================================== *)
(** ** Integral conversions *)

(** How an element type holds an integer, if it does. *)
Inductive int_kind : Type :=
| IBool
| IUnsigned (w : Z)
| ISigned (w : Z)
| NotIntegral.

Definition int_kind_of (t : elem_t) : int_kind :=
  match t with
  | bool_t => IBool
  | uint8_t => IUnsigned 8 | uint16_t => IUnsigned 16
  | uint32_t => IUnsigned 32 | uint64_t => IUnsigned 64
  | int8_t => ISigned 8 | int16_t => ISigned 16
  | int32_t => ISigned 32 | int64_t => ISigned 64
  | float16_t | float_t | bfloat16_t | complex64_t => NotIntegral
  end.

(** The low [w] bits of the two's complement representation. *)
Definition low_bits (w v : Z) : Z := Z.land v (Z.ones w).

(** A [w]-bit pattern read as a signed number. *)
Definition as_signed (w u : Z) : Z :=
  if Z.testbit u (w - 1) then u - Z.shiftl 1 w else u.

(** [static_cast<DstT>(v)] of an integer [v] to an integral [DstT]: the
    conversion keeps the low bits of the two's complement representation;
    to [bool] it tests for zero.  This is the conversion of the language
    from an integral [SrcT] holding [v]; the result does not depend on which
    integral type that is.  The floating and complex kinds are outside this
    model: a floating source truncates and has no defined result out of
    range, which this function does not follow, and a floating or complex
    destination is left as it is.  Properties about converted values are
    stated for integral sources. *)
Definition integral_cast (SrcT DstT : elem_t) (v : Z) : Z :=
  match int_kind_of DstT with
  | IBool => if v =? 0 then 0 else 1
  | IUnsigned w => low_bits w v
  | ISigned w => as_signed w (low_bits w v)
  | NotIntegral => v
  end.

(** The element type a type tag stands for. *)
Definition elem_of_dtype (d : Dtype) : elem_t :=
  match d with
  | bool_ => bool_t
  | uint8 => uint8_t | uint16 => uint16_t
  | uint32 => uint32_t | uint64 => uint64_t
  | int8 => int8_t | int16 => int16_t
  | int32 => int32_t | int64 => int64_t
  | float16 => float16_t | float32 => float_t | bfloat16 => bfloat16_t
  | complex64 => complex64_t
  end.

(** The width in bits of a signed or unsigned integer type; 0 for the
    other types. *)
Definition int_bits (t : elem_t) : Z :=
  match int_kind_of t with
  | IUnsigned w | ISigned w => w
  | IBool | NotIntegral => 0
  end.

(** The integers an integral element type holds; no integer is taken to
    be a value of a floating or complex type. *)
Definition representable (t : elem_t) (v : Z) : Prop :=
  match int_kind_of t with
  | IBool => v = 0 \/ v = 1
  | IUnsigned w => 0 <= v < 2 ^ w
  | ISigned w => - 2 ^ (w - 1) <= v < 2 ^ (w - 1)
  | NotIntegral => False
  end.

(* ================================================================== *)
(** ** The offsets a strided walk visits *)

(** [0, 1, ..., n-1] *)
Definition zseq (n : Z) : list Z := map Z.of_nat (seq 0 (Z.to_nat n)).

(** The offsets of the elements of a view in row-major order: the
    strides-weighted multi-indices. *)
Fixpoint offs (ds ss : list Z) : list Z :=
  match ds, ss with
  | d :: ds', s :: ss' =>
      flat_map (fun i => map (fun o => i * s + o) (offs ds' ss')) (zseq d)
  | _, _ => [0]
  end.

(** Row-major strides of a shape. *)
Fixpoint row_major (ds : list Z) : list Z :=
  match ds with
  | [] => []
  | _ :: ds' => prod ds' :: row_major ds'
  end.

(** What the engine does that a caller can observe besides the memory:
    buffers requested from the allocator and elements stored. *)
Inductive event : Type :=
| EvMalloc (bytes : Z) (b : block)
| EvStore (p : ptr).

(** The conversion [static_cast<DstT>(x)] of an [x] read as a [SrcT], over
    the contents [value] of a memory cell: what the kernel templates take
    from their two type parameters. *)
Class Cast (value : Type) : Type :=
  static_cast : elem_t -> elem_t -> value -> value.

Section Engine.

Context {value : Type} {cast : Cast value}.

Record state : Type := mkstate {
  mem : block -> Z -> value;
  next_block : block;
  trace : list event          (* newest first *)
}.

Definition load (s : state) (p : ptr) : value := mem s (blk p) (ofs p).

Definition store (p : ptr) (v : value) (s : state) : state :=
  {| mem := fun b o =>
              if Nat.eqb b (blk p) && Z.eqb o (ofs p) then v else mem s b o;
     next_block := next_block s;
     trace := EvStore p :: trace s |}.

(** The assignment of one element: the source cell is read as a [SrcT],
    converted, and stored as a [DstT]. *)
Definition assign (SrcT DstT : elem_t) (sp dp : ptr) (s : state) : state :=
  store dp (static_cast SrcT DstT (load s sp)) s.

(** Modelled from the spec: the blocking "allocate or wait" primitive of
    the external allocator ([allocator::malloc_or_wait] is not part of the
    sources): it hands out a buffer no live array points into. *)
Definition malloc_or_wait (bytes : Z) (s : state) : ptr * state :=
  (mkptr (next_block s) 0,
   {| mem := mem s;
      next_block := S (next_block s);
      trace := EvMalloc bytes (next_block s) :: trace s |}).

(** Modelled from the spec: [array::set_data(buffer)]; the destination
    becomes a freshly allocated row-major, contiguous array over all of
    its elements. *)
Definition set_data (dst : array) (buffer : ptr) : array :=
  {| dtype := dtype dst;
     shape := shape dst;
     strides := strides dst;
     data_size := size dst;
     flags := {| contiguous := true;
                 row_contiguous := true;
                 col_contiguous := col_contiguous (flags dst) |};
     is_donatable := is_donatable dst;
     data := buffer |}.

(** Modelled from the spec: [array::set_data(buffer, size, strides,
    flags)]; the destination takes the given access pattern. *)
Definition set_data_strided
    (dst : array) (buffer : ptr) (sz : Z) (st : list Z) (fl : Flags)
  : array :=
  {| dtype := dtype dst;
     shape := shape dst;
     strides := st;
     data_size := sz;
     flags := fl;
     is_donatable := is_donatable dst;
     data := buffer |}.

(** Modelled from the spec: [array::copy_shared_buffer(src)], the "share
    existing buffer" primitive; the destination takes the source's buffer
    and inherits its strides, flags and reachable element count. *)
Definition copy_shared_buffer (dst src : array) : array :=
  {| dtype := dtype dst;
     shape := shape dst;
     strides := strides src;
     data_size := data_size src;
     flags := flags src;
     is_donatable := is_donatable dst;
     data := data src |}.

(* ---------------------------------------------------------------- *)
(** *** copy_single, copy_vector (lines 13-27) *)

(** The counter of the loop is an [int] compared with the [size_t]
    [dst.size()]; it is computed exactly here, which is the loop of the
    code for a destination of at most [INT_MAX] elements. *)
Definition copy_single (SrcT DstT : elem_t) (src dst : array) (s : state)
  : state :=
  let val := static_cast SrcT DstT (load s (data src +p 0)) in
  let dst_ptr := data dst in
  for_int (size dst) (fun i s => store (dst_ptr +p i) val s) s.

(** [std::copy(first, first + n, d_first)] with the implicit conversion
    of the assignment. *)
Fixpoint std_copy (SrcT DstT : elem_t) (n : nat) (first d_first : ptr)
    (s : state) : state :=
  match n with
  | O => s
  | S n' =>
      std_copy SrcT DstT n' (first +p 1) (d_first +p 1)
               (assign SrcT DstT first d_first s)
  end.

Definition copy_vector (SrcT DstT : elem_t) (src dst : array) (s : state)
  : state :=
  let src_ptr := data src in
  let dst_ptr := data dst in
  std_copy SrcT DstT (Z.to_nat (data_size src)) src_ptr dst_ptr s.

(* ---------------------------------------------------------------- *)
(** *** Fixed-arity single-stride kernels (lines 29-298) *)

(** The running indices of a kernel and the state they act on. *)
Record cursor : Type := mkcur { src_idx : Z; dst_idx : Z; cur : state }.

(** [dst_ptr[dst_idx++] = static_cast<DstT>(src_ptr[src_idx]);] *)
Definition put (SrcT DstT : elem_t) (st : stride_t) (src_ptr dst_ptr : ptr)
    (c : cursor) : cursor :=
  {| src_idx := src_idx c;
     dst_idx := wrap st (dst_idx c + 1);
     cur := assign SrcT DstT (src_ptr +p src_idx c) (dst_ptr +p dst_idx c)
                   (cur c) |}.

(** [src_idx += k;] *)
Definition skip (st : stride_t) (k : Z) (c : cursor) : cursor :=
  {| src_idx := wrap st (src_idx c + k);
     dst_idx := dst_idx c;
     cur := cur c |}.

Definition copy_general_dim1 (SrcT DstT : elem_t) (st : stride_t)
    (src dst : array) (data_shape i_strides : list Z) (i_offset : Z)
    (s : state) : state :=
  let src_ptr := data src in
  let dst_ptr := data dst in
  let c := {| src_idx := wrap st i_offset; dst_idx := 0; cur := s |} in
  cur (
    for_int data_shape.[0] (fun _ c =>
      let c := put SrcT DstT st src_ptr dst_ptr c in
      skip st i_strides.[0] c) c).

Definition copy_general_dim2 (SrcT DstT : elem_t) (st : stride_t)
    (src dst : array) (data_shape i_strides : list Z) (i_offset : Z)
    (s : state) : state :=
  let src_ptr := data src in
  let dst_ptr := data dst in
  let c := {| src_idx := wrap st i_offset; dst_idx := 0; cur := s |} in
  cur (
    for_int data_shape.[0] (fun _ c =>
      let c :=
      for_int data_shape.[1] (fun _ c =>
        let c := put SrcT DstT st src_ptr dst_ptr c in
        skip st i_strides.[1] c) c in
      skip st (wrap st (i_strides.[0] - wrap st (i_strides.[1] * data_shape.[1]))) c) c).

Definition copy_general_dim3 (SrcT DstT : elem_t) (st : stride_t)
    (src dst : array) (data_shape i_strides : list Z) (i_offset : Z)
    (s : state) : state :=
  let src_ptr := data src in
  let dst_ptr := data dst in
  let c := {| src_idx := wrap st i_offset; dst_idx := 0; cur := s |} in
  cur (
    for_int data_shape.[0] (fun _ c =>
      let c :=
      for_int data_shape.[1] (fun _ c =>
        let c :=
        for_int data_shape.[2] (fun _ c =>
          let c := put SrcT DstT st src_ptr dst_ptr c in
          skip st i_strides.[2] c) c in
        skip st (wrap st (i_strides.[1] - wrap st (i_strides.[2] * data_shape.[2]))) c) c in
      skip st (wrap st (i_strides.[0] - wrap st (i_strides.[1] * data_shape.[1]))) c) c).

Definition copy_general_dim4 (SrcT DstT : elem_t) (st : stride_t)
    (src dst : array) (data_shape i_strides : list Z) (i_offset : Z)
    (s : state) : state :=
  let src_ptr := data src in
  let dst_ptr := data dst in
  let c := {| src_idx := wrap st i_offset; dst_idx := 0; cur := s |} in
  cur (
    for_int data_shape.[0] (fun _ c =>
      let c :=
      for_int data_shape.[1] (fun _ c =>
        let c :=
        for_int data_shape.[2] (fun _ c =>
          let c :=
          for_int data_shape.[3] (fun _ c =>
            let c := put SrcT DstT st src_ptr dst_ptr c in
            skip st i_strides.[3] c) c in
          skip st (wrap st (i_strides.[2] - wrap st (i_strides.[3] * data_shape.[3]))) c) c in
        skip st (wrap st (i_strides.[1] - wrap st (i_strides.[2] * data_shape.[2]))) c) c in
      skip st (wrap st (i_strides.[0] - wrap st (i_strides.[1] * data_shape.[1]))) c) c).

Definition copy_general_dim5 (SrcT DstT : elem_t) (st : stride_t)
    (src dst : array) (data_shape i_strides : list Z) (i_offset : Z)
    (s : state) : state :=
  let src_ptr := data src +p i_offset in
  let dst_ptr := data dst in
  let d0 := data_shape.[0] in
  let d1 := data_shape.[1] in
  let d2 := data_shape.[2] in
  let d3 := data_shape.[3] in
  let d4 := data_shape.[4] in
  let s0 := i_strides.[0] in
  let s1 := i_strides.[1] in
  let s2 := i_strides.[2] in
  let s3 := i_strides.[3] in
  let s4 := i_strides.[4] in
  let s3_adj := wrap st (s3 - wrap st (s4 * d4)) in
  let s2_adj := wrap st (s2 - wrap st (s3 * d3)) in
  let s1_adj := wrap st (s1 - wrap st (s2 * d2)) in
  let s0_adj := wrap st (s0 - wrap st (s1 * d1)) in
  let c := {| src_idx := 0; dst_idx := 0; cur := s |} in
  cur (
    for_int d0 (fun _ c =>
      let c :=
      for_int d1 (fun _ c =>
        let c :=
        for_int d2 (fun _ c =>
          let c :=
          for_int d3 (fun _ c =>
            let c :=
            for_int d4 (fun _ c =>
              let c := put SrcT DstT st src_ptr dst_ptr c in
              skip st s4 c) c in
            skip st s3_adj c) c in
          skip st s2_adj c) c in
        skip st s1_adj c) c in
      skip st s0_adj c) c).

Definition copy_general_dim6 (SrcT DstT : elem_t) (st : stride_t)
    (src dst : array) (data_shape i_strides : list Z) (i_offset : Z)
    (s : state) : state :=
  let src_ptr := data src +p i_offset in
  let dst_ptr := data dst in
  let d0 := data_shape.[0] in
  let d1 := data_shape.[1] in
  let d2 := data_shape.[2] in
  let d3 := data_shape.[3] in
  let d4 := data_shape.[4] in
  let d5 := data_shape.[5] in
  let s0 := i_strides.[0] in
  let s1 := i_strides.[1] in
  let s2 := i_strides.[2] in
  let s3 := i_strides.[3] in
  let s4 := i_strides.[4] in
  let s5 := i_strides.[5] in
  let s4_adj := wrap st (s4 - wrap st (s5 * d5)) in
  let s3_adj := wrap st (s3 - wrap st (s4 * d4)) in
  let s2_adj := wrap st (s2 - wrap st (s3 * d3)) in
  let s1_adj := wrap st (s1 - wrap st (s2 * d2)) in
  let s0_adj := wrap st (s0 - wrap st (s1 * d1)) in
  let c := {| src_idx := 0; dst_idx := 0; cur := s |} in
  cur (
    for_int d0 (fun _ c =>
      let c :=
      for_int d1 (fun _ c =>
        let c :=
        for_int d2 (fun _ c =>
          let c :=
          for_int d3 (fun _ c =>
            let c :=
            for_int d4 (fun _ c =>
              let c :=
              for_int d5 (fun _ c =>
                let c := put SrcT DstT st src_ptr dst_ptr c in
                skip st s5 c) c in
              skip st s4_adj c) c in
            skip st s3_adj c) c in
          skip st s2_adj c) c in
        skip st s1_adj c) c in
      skip st s0_adj c) c).

Definition copy_general_dim7 (SrcT DstT : elem_t) (st : stride_t)
    (src dst : array) (data_shape i_strides : list Z) (i_offset : Z)
    (s : state) : state :=
  let src_ptr := data src +p i_offset in
  let dst_ptr := data dst in
  let d0 := data_shape.[0] in
  let d1 := data_shape.[1] in
  let d2 := data_shape.[2] in
  let d3 := data_shape.[3] in
  let d4 := data_shape.[4] in
  let d5 := data_shape.[5] in
  let d6 := data_shape.[6] in
  let s0 := i_strides.[0] in
  let s1 := i_strides.[1] in
  let s2 := i_strides.[2] in
  let s3 := i_strides.[3] in
  let s4 := i_strides.[4] in
  let s5 := i_strides.[5] in
  let s6 := i_strides.[6] in
  let s5_adj := wrap st (s5 - wrap st (s6 * d6)) in
  let s4_adj := wrap st (s4 - wrap st (s5 * d5)) in
  let s3_adj := wrap st (s3 - wrap st (s4 * d4)) in
  let s2_adj := wrap st (s2 - wrap st (s3 * d3)) in
  let s1_adj := wrap st (s1 - wrap st (s2 * d2)) in
  let s0_adj := wrap st (s0 - wrap st (s1 * d1)) in
  let c := {| src_idx := 0; dst_idx := 0; cur := s |} in
  cur (
    for_int d0 (fun _ c =>
      let c :=
      for_int d1 (fun _ c =>
        let c :=
        for_int d2 (fun _ c =>
          let c :=
          for_int d3 (fun _ c =>
            let c :=
            for_int d4 (fun _ c =>
              let c :=
              for_int d5 (fun _ c =>
                let c :=
                for_int d6 (fun _ c =>
                  let c := put SrcT DstT st src_ptr dst_ptr c in
                  skip st s6 c) c in
                skip st s5_adj c) c in
              skip st s4_adj c) c in
            skip st s3_adj c) c in
          skip st s2_adj c) c in
        skip st s1_adj c) c in
      skip st s0_adj c) c).

(* ---------------------------------------------------------------- *)
(** *** The two-argument overloads of the rank kernels *)

(** Each rank kernel has an overload without explicit arguments (lines
    46-50, 72-76, 101-105, 133-137, 182-186, 235-239 and 294-298), which
    runs the kernel at [size_t] on the source's own shape and strides from
    offset 0. *)
Definition copy_general_dim1_inline (SrcT DstT : elem_t) (src dst : array)
    (s : state) : state :=
  copy_general_dim1 SrcT DstT stride_size_t src dst (shape src) (strides src)
                    0 s.

Definition copy_general_dim2_inline (SrcT DstT : elem_t) (src dst : array)
    (s : state) : state :=
  copy_general_dim2 SrcT DstT stride_size_t src dst (shape src) (strides src)
                    0 s.

Definition copy_general_dim3_inline (SrcT DstT : elem_t) (src dst : array)
    (s : state) : state :=
  copy_general_dim3 SrcT DstT stride_size_t src dst (shape src) (strides src)
                    0 s.

Definition copy_general_dim4_inline (SrcT DstT : elem_t) (src dst : array)
    (s : state) : state :=
  copy_general_dim4 SrcT DstT stride_size_t src dst (shape src) (strides src)
                    0 s.

Definition copy_general_dim5_inline (SrcT DstT : elem_t) (src dst : array)
    (s : state) : state :=
  copy_general_dim5 SrcT DstT stride_size_t src dst (shape src) (strides src)
                    0 s.

Definition copy_general_dim6_inline (SrcT DstT : elem_t) (src dst : array)
    (s : state) : state :=
  copy_general_dim6 SrcT DstT stride_size_t src dst (shape src) (strides src)
                    0 s.

Definition copy_general_dim7_inline (SrcT DstT : elem_t) (src dst : array)
    (s : state) : state :=
  copy_general_dim7 SrcT DstT stride_size_t src dst (shape src) (strides src)
                    0 s.

(* ---------------------------------------------------------------- *)
(** *** copy_general (lines 300-365) *)

(** [new_shape] is the [std::vector<int>] the rank kernels take; its
    dimensions are the exact products the collapser forms, which are those
    [int]s for a shape that [fits_int]. *)
Definition copy_general (SrcT DstT : elem_t) (st : stride_t)
    (src dst : array) (data_shape i_strides : list Z) (i_offset : Z)
    (s : state) : state :=
  let '(new_shape, new_strides) :=
    collapse_contiguous_dims data_shape [i_strides] in
  match length new_shape with
  | 1%nat =>
      copy_general_dim1 SrcT DstT st src dst new_shape
                        (nth 0 new_strides []) i_offset s
  | 2%nat =>
      copy_general_dim2 SrcT DstT st src dst new_shape
                        (nth 0 new_strides []) i_offset s
  | 3%nat =>
      copy_general_dim3 SrcT DstT st src dst new_shape
                        (nth 0 new_strides []) i_offset s
  | 4%nat =>
      copy_general_dim4 SrcT DstT st src dst new_shape
                        (nth 0 new_strides []) i_offset s
  | 5%nat =>
      copy_general_dim5 SrcT DstT st src dst new_shape
                        (nth 0 new_strides []) i_offset s
  | 6%nat =>
      copy_general_dim6 SrcT DstT st src dst new_shape
                        (nth 0 new_strides []) i_offset s
  | 7%nat =>
      copy_general_dim7 SrcT DstT st src dst new_shape
                        (nth 0 new_strides []) i_offset s
  | _ =>
      let src_ptr := data src +p i_offset in
      let dst_ptr := data dst in
      for_int (size dst) (fun i s =>
        let src_elem :=
          wrap st (elem_to_loc i new_shape (nth 0 new_strides [])) in
        assign SrcT DstT (src_ptr +p src_elem) (dst_ptr +p i) s) s
  end.

(** The overload of lines 348-352. *)
Definition copy_general_inline (SrcT DstT : elem_t) (src dst : array)
    (s : state) : state :=
  copy_general SrcT DstT stride_size_t src dst (shape src) (strides src) 0 s.

(** The overload of lines 354-365; [o_strides] and [o_offset] are not
    passed on. *)
Definition copy_general_forward (SrcT DstT : elem_t) (st : stride_t)
    (src dst : array) (data_shape i_strides o_strides : list Z)
    (i_offset o_offset : Z) (s : state) : state :=
  copy_general SrcT DstT st src dst data_shape i_strides i_offset s.

(* ---------------------------------------------------------------- *)
(** *** The dual-stride kernel (lines 367-486) *)

(** [D] is the template parameter; [i_offset] and [o_offset] are
    [int64_t], whatever [stride_t] is. *)
Fixpoint copy_general_general_dims (D : nat) (SrcT DstT : elem_t)
    (st : stride_t) (src dst : array)
    (data_shape i_strides o_strides : list Z) (i_offset o_offset : Z)
    (s : state) {struct D} : state :=
  match D with
  | S (S _ as D1) =>
      let axis := (length data_shape - D)%nat in
      let stride_src := vec_at i_strides axis in
      let stride_dst := vec_at o_strides axis in
      let N := vec_at data_shape axis in
      cur (for_int N (fun _ c =>
             let s :=
               copy_general_general_dims D1 SrcT DstT st src dst
                 data_shape i_strides o_strides
                 (src_idx c) (dst_idx c) (cur c) in
             {| src_idx := wrap_s64 (src_idx c + stride_src);
                dst_idx := wrap_s64 (dst_idx c + stride_dst);
                cur := s |})
           {| src_idx := i_offset; dst_idx := o_offset; cur := s |})
  | _ =>
      let axis := (length data_shape - 1)%nat in
      let stride_src := vec_at i_strides axis in
      let stride_dst := vec_at o_strides axis in
      let N := vec_at data_shape axis in
      (* the cursor holds [src_ptr] and [dst_ptr] as offsets from the data *)
      cur (for_int N (fun _ c =>
             {| src_idx := src_idx c + stride_src;
                dst_idx := dst_idx c + stride_dst;
                cur := assign SrcT DstT (data src +p src_idx c)
                              (data dst +p dst_idx c) (cur c) |})
           {| src_idx := i_offset; dst_idx := o_offset; cur := s |})
  end.

(** [for (int i = 0; i < n; i += step) body].  With [step <= 0] and
    [0 < n] the loop of the source has no last iteration; the fuel then
    runs out and there is no result. *)
Fixpoint for_step (fuel : nat) (i n step : Z)
    (body : Z -> state -> state) (s : state) : option state :=
  if i <? n then
    match fuel with
    | O => None
    | S fuel' => for_step fuel' (i + step) n step body (body i s)
    end
  else Some s.

(** [None]: the source has no defined result.  For an empty collapsed
    shape no case of the [switch] is taken and [new_shape.end() - 5] lies
    before the beginning of the vector.  [size] and the chunk counter [i]
    are [int]s, like the collapsed dimensions; they are computed exactly,
    which is what the code computes for a shape that [fits_int]. *)
Definition copy_general_general (SrcT DstT : elem_t) (st : stride_t)
    (src dst : array) (data_shape i_strides o_strides : list Z)
    (i_offset o_offset : Z) (s : state) : option state :=
  let '(new_shape, new_strides) :=
    collapse_contiguous_dims data_shape [i_strides; o_strides] in
  match length new_shape with
  | 1%nat =>
      Some (copy_general_general_dims 1 SrcT DstT st src dst new_shape
              (nth 0 new_strides []) (nth 1 new_strides [])
              i_offset o_offset s)
  | 2%nat =>
      Some (copy_general_general_dims 2 SrcT DstT st src dst new_shape
              (nth 0 new_strides []) (nth 1 new_strides [])
              i_offset o_offset s)
  | 3%nat =>
      Some (copy_general_general_dims 3 SrcT DstT st src dst new_shape
              (nth 0 new_strides []) (nth 1 new_strides [])
              i_offset o_offset s)
  | 4%nat =>
      Some (copy_general_general_dims 4 SrcT DstT st src dst new_shape
              (nth 0 new_strides []) (nth 1 new_strides [])
              i_offset o_offset s)
  | 5%nat =>
      Some (copy_general_general_dims 5 SrcT DstT st src dst new_shape
              (nth 0 new_strides []) (nth 1 new_strides [])
              i_offset o_offset s)
  | n =>
      if (n <? 5)%nat then None
      else
        let src_size := size src in
        let size := prod (lastn 5 new_shape) in
        for_step (Z.to_nat src_size) 0 src_size size
          (fun i s =>
             let src_offset :=
               wrap st (i_offset
                        + elem_to_loc i new_shape (nth 0 new_strides [])) in
             let dst_offset :=
               wrap st (o_offset
                        + elem_to_loc i new_shape (nth 1 new_strides [])) in
             copy_general_general_dims 5 SrcT DstT st src dst new_shape
               (nth 0 new_strides []) (nth 1 new_strides [])
               (wrap_s64 src_offset) (wrap_s64 dst_offset) s)
          s
  end.

(** The overload of lines 482-486. *)
Definition copy_general_general_inline (SrcT DstT : elem_t)
    (src dst : array) (s : state) : option state :=
  copy_general_general SrcT DstT stride_size_t src dst
    (shape src) (strides src) (strides dst) 0 0 s.

(* ---------------------------------------------------------------- *)
(** *** Type dispatch (lines 488-597) *)

(** [copy<SrcT, DstT>(src, dst, ctype, args...)]: the [match] on [args]
    is the overload the pack selects at compile time. *)
Definition copy_SrcT_DstT (SrcT DstT : elem_t) (src dst : array)
    (ctype : CopyType) (args : Args) (s : state) : option state :=
  match ctype with
  | Scalar => Some (copy_single SrcT DstT src dst s)
  | Vector => Some (copy_vector SrcT DstT src dst s)
  | General =>
      match args with
      | NoArgs => Some (copy_general_inline SrcT DstT src dst s)
      | StridedArgs st data_shape i_strides o_strides i_offset o_offset =>
          Some (copy_general_forward SrcT DstT st src dst data_shape
                  i_strides o_strides i_offset o_offset s)
      end
  | GeneralGeneral =>
      match args with
      | NoArgs => copy_general_general_inline SrcT DstT src dst s
      | StridedArgs st data_shape i_strides o_strides i_offset o_offset =>
          copy_general_general SrcT DstT st src dst data_shape
            i_strides o_strides i_offset o_offset s
      end
  end.

(** [copy<SrcT>(src, dst, ctype, args...)]: the switch on [dst.dtype()]. *)
Definition copy_SrcT (SrcT : elem_t) (src dst : array)
    (ctype : CopyType) (args : Args) (s : state) : option state :=
  match dtype dst with
  | bool_ => copy_SrcT_DstT SrcT bool_t src dst ctype args s
  | uint8 => copy_SrcT_DstT SrcT uint8_t src dst ctype args s
  | uint16 => copy_SrcT_DstT SrcT uint16_t src dst ctype args s
  | uint32 => copy_SrcT_DstT SrcT uint32_t src dst ctype args s
  | uint64 => copy_SrcT_DstT SrcT uint64_t src dst ctype args s
  | int8 => copy_SrcT_DstT SrcT int8_t src dst ctype args s
  | int16 => copy_SrcT_DstT SrcT int16_t src dst ctype args s
  | int32 => copy_SrcT_DstT SrcT int32_t src dst ctype args s
  | int64 => copy_SrcT_DstT SrcT int64_t src dst ctype args s
  | float16 => copy_SrcT_DstT SrcT float16_t src dst ctype args s
  | float32 => copy_SrcT_DstT SrcT float_t src dst ctype args s
  | bfloat16 => copy_SrcT_DstT SrcT bfloat16_t src dst ctype args s
  | complex64 => copy_SrcT_DstT SrcT complex64_t src dst ctype args s
  end.

(** The switch on [src.dtype()]. *)
Definition copy_inplace_dispatch (src dst : array)
    (ctype : CopyType) (args : Args) (s : state) : option state :=
  match dtype src with
  | bool_ => copy_SrcT bool_t src dst ctype args s
  | uint8 => copy_SrcT uint8_t src dst ctype args s
  | uint16 => copy_SrcT uint16_t src dst ctype args s
  | uint32 => copy_SrcT uint32_t src dst ctype args s
  | uint64 => copy_SrcT uint64_t src dst ctype args s
  | int8 => copy_SrcT int8_t src dst ctype args s
  | int16 => copy_SrcT int16_t src dst ctype args s
  | int32 => copy_SrcT int32_t src dst ctype args s
  | int64 => copy_SrcT int64_t src dst ctype args s
  | float16 => copy_SrcT float16_t src dst ctype args s
  | float32 => copy_SrcT float_t src dst ctype args s
  | bfloat16 => copy_SrcT bfloat16_t src dst ctype args s
  | complex64 => copy_SrcT complex64_t src dst ctype args s
  end.

(* ---------------------------------------------------------------- *)
(** *** The public entry points (lines 601-659) *)

Definition copy_inplace (src dst : array) (ctype : CopyType) (s : state)
  : option state :=
  copy_inplace_dispatch src dst ctype NoArgs s.

(** The destination is passed by reference: the result holds it as the
    call leaves it. *)
Definition copy (src dst : array) (ctype : CopyType) (s : state)
  : option (array * state) :=
  let '(dst, s) :=
    match ctype with
    | Vector =>
        if is_donatable src && (itemsize src =? itemsize dst)
        then (copy_shared_buffer dst src, s)
        else
          let size := data_size src in
          let '(buffer, s) :=
            malloc_or_wait (wrap_u64 (size * itemsize dst)) s in
          (set_data_strided dst buffer size (strides src) (flags src), s)
    | Scalar | General | GeneralGeneral =>
        let '(buffer, s) := malloc_or_wait (nbytes dst) s in
        (set_data dst buffer, s)
    end in
  let ctype :=
    match ctype with
    | GeneralGeneral => General
    | _ => ctype
    end in
  match copy_inplace src dst ctype s with
  | Some s => Some (dst, s)
  | None => None
  end.

(** The strided [copy_inplace<stride_t>] of lines 632-659. *)
Definition copy_inplace_strided (st : stride_t) (src dst : array)
    (data_shape i_strides o_strides : list Z) (i_offset o_offset : Z)
    (ctype : CopyType) (s : state) : option state :=
  match ctype with
  | General | GeneralGeneral =>
      copy_inplace_dispatch src dst ctype
        (StridedArgs st data_shape i_strides o_strides i_offset o_offset) s
  | Scalar | Vector =>
      copy_inplace_dispatch src dst ctype NoArgs s
  end.

(* ---------------------------------------------------------------- *)
(** *** The brute-force references of the specification *)

(** Every destination element [j] gets the cast of the source element at
    [i_offset] plus the offset the index utility gives for [j] with the
    shape and strides as the caller passed them. *)
Definition copy_reference (SrcT DstT : elem_t) (src dst : array)
    (data_shape i_strides : list Z) (i_offset : Z) (s : state) : state :=
  for_int (prod data_shape) (fun j s =>
    assign SrcT DstT
      (data src +p (i_offset + elem_to_loc j data_shape i_strides))
      (data dst +p j) s) s.

(** The same with a strided destination. *)
Definition copy_reference_general (SrcT DstT : elem_t) (src dst : array)
    (data_shape i_strides o_strides : list Z) (i_offset o_offset : Z)
    (s : state) : state :=
  for_int (prod data_shape) (fun j s =>
    assign SrcT DstT
      (data src +p (i_offset + elem_to_loc j data_shape i_strides))
      (data dst +p (o_offset + elem_to_loc j data_shape o_strides)) s) s.

(** The stores of a trace, oldest first. *)
Definition stores (t : list event) : list ptr :=
  flat_map (fun e => match e with EvStore p => [p] | EvMalloc _ _ => [] end)
           (rev t).

(** The byte counts requested from the allocator, oldest first. *)
Definition mallocs (t : list event) : list Z :=
  flat_map (fun e => match e with EvMalloc n _ => [n] | EvStore _ => [] end)
           (rev t).

(* ---------------------------------------------------------------- *)
(** *** The loop nest behind the rank kernels *)

(** The body of the loop over a dimension of stride [s_out] that has the
    dimensions [ds], of strides [ss], inside it: the seven rank kernels are
    this nest written out for one to seven dimensions. *)
Fixpoint nest (SrcT DstT : elem_t) (st : stride_t) (src_ptr dst_ptr : ptr)
    (ds ss : list Z) (s_out : Z) (c : cursor) : cursor :=
  match ds, ss with
  | d :: ds', s :: ss' =>
      skip st (wrap st (s_out - wrap st (s * d)))
           (for_int d (fun _ c => nest SrcT DstT st src_ptr dst_ptr ds' ss' s c) c)
  | _, _ => skip st s_out (put SrcT DstT st src_ptr dst_ptr c)
  end.

(** The assignments of a list of (source offset, destination offset) pairs,
    in order. *)
Definition assign_all (SrcT DstT : elem_t) (src_ptr dst_ptr : ptr)
    (l : list (Z * Z)) (s : state) : state :=
  fold_left (fun s p => assign SrcT DstT (src_ptr +p fst p) (dst_ptr +p snd p) s)
            l s.

(** The (source, destination) index pairs of a kernel that reads the
    offsets [l] from [x] on and writes consecutive elements from [y] on,
    both indices being [stride_t] values. *)
Fixpoint numbered (st : stride_t) (x y : Z) (l : list Z) : list (Z * Z) :=
  match l with
  | [] => []
  | o :: l' => (wrap st (x + o), wrap st y) :: numbered st x (y + 1) l'
  end.

(** The (source, destination) offsets of the elements of a view with two
    stride vectors, in row-major order. *)
Fixpoint pairs (ds ss os : list Z) : list (Z * Z) :=
  match ds, ss, os with
  | d :: ds', a :: ss', b :: os' =>
      flat_map (fun i => map (fun p => (i * a + fst p, i * b + snd p))
                             (pairs ds' ss' os'))
               (zseq d)
  | _, _, _ => [(0, 0)]
  end.

(** The caller's contract on a strided view: its element count, the offsets
    of its elements and their positions from [offset] on are values of
    [stride_t]. *)
Definition offsets_fit (st : stride_t) (data_shape strides_ : list Z)
    (offset : Z) : bool :=
  (prod data_shape <=? 2 ^ 63)
  && forallb (fun j =>
                in_rangeb st (elem_to_loc j data_shape strides_)
                && in_rangeb st (offset + elem_to_loc j data_shape strides_))
             (zseq (prod data_shape)).

(** The elements an in-place copy writes, in the order it writes them:
    with Scalar the [dst.size()] first elements of the destination, with
    Vector the [src.data_size()] first, with General the first
    [product(data_shape)], with GeneralGeneral the elements at the offsets
    of the view described by [data_shape], [o_strides] and [o_offset]. *)
Definition footprint (src dst : array) (data_shape o_strides : list Z)
    (o_offset : Z) (ctype : CopyType) : list ptr :=
  match ctype with
  | Scalar => map (fun j => data dst +p j) (zseq (size dst))
  | Vector => map (fun j => data dst +p j) (zseq (data_size src))
  | General => map (fun j => data dst +p j) (zseq (prod data_shape))
  | GeneralGeneral =>
      map (fun j => data dst
                    +p (o_offset + elem_to_loc j data_shape o_strides))
          (zseq (prod data_shape))
  end.


End Engine.

Arguments state : clear implicits.
Arguments cursor : clear implicits.

(* ================================================================== *)
(** ** The engine over integer cells *)

(** Integer elements with the integral conversions of the language. *)
Definition int_cast : Cast Z := integral_cast.

(** A state whose first buffer holds [cells] (and zeros after them). *)
Definition state_of (cells : list Z) : state Z :=
  {| mem := fun b o => match b with
                       | O => nth (Z.to_nat o) cells 0
                       | S _ => 0
                       end;
     next_block := 1%nat;
     trace := [] |}.

(** A row-major view of the given type and shape over the buffer [b]. *)
Definition dense (dt : Dtype) (sh : list Z) (b : block) (donatable : bool)
  : array :=
  {| dtype := dt;
     shape := sh;
     strides := row_major sh;
     data_size := prod sh;
     flags := {| contiguous := true;
                 row_contiguous := true;
                 col_contiguous := false |};
     is_donatable := donatable;
     data := mkptr b 0 |}.

(** The first [n] cells of a buffer. *)
Definition cells (s : state Z) (b : block) (n : Z) : list Z :=
  map (fun o => mem s b o) (zseq n).

(** A donatable [int32] source over the first buffer, holding -1 and 5, and
    a [uint32] destination that has no buffer of its own yet. *)
Definition donor : array := dense int32 [2] 0 true.

Definition heir : array := dense uint32 [2] 1 false.

Definition donor_state : state Z := state_of [-1; 5].

(** A 2 x 3 [int32] matrix whose last element does not fit 16 bits, and an
    [int16] destination of the same shape. *)
Definition matrix : array := dense int32 [2; 3] 0 false.

Definition target : array := dense int16 [2; 3] 1 false.

Definition matrix_state : state Z := state_of [1; 2; 3; 4; 5; 70000].

(** Views of rank 8 and 7 over eight elements, none of whose dimensions
    merge, with the strides to read and to write them. *)
Definition shape8 : list Z := [1; 2; 1; 2; 1; 2; 1; 1].

Definition strides8 : list Z := [1; 4; 7; 2; 7; 1; 9; 11].

Definition shape7 : list Z := [1; 2; 1; 2; 1; 2; 1].

Definition i_strides7 : list Z := [1; 4; 7; 2; 7; 1; 9].

Definition o_strides7 : list Z := [20; 1; 20; 2; 20; 4; 20].

Definition eight_state : state Z := state_of [1; 2; 3; 4; 5; 6; 7; 8].

(** The transpose of [matrix]: the 3 x 2 view of the same buffer. *)
Definition transposed : array :=
  {| dtype := int32;
     shape := [3; 2];
     strides := [1; 3];
     data_size := 6;
     flags := {| contiguous := true;
                 row_contiguous := false;
                 col_contiguous := true |};
     is_donatable := false;
     data := mkptr 0 0 |}.

(** A third 2 x 3 buffer, of [int32] elements. *)
Definition third : array := dense int32 [2; 3] 2 false.

(** An [int32] scalar holding 300 and a 2 x 3 [uint8] destination. *)
Definition scalar300 : array := dense int32 [] 0 false.

Definition bytes : array := dense uint8 [2; 3] 1 false.

Definition scalar_state : state Z := state_of [300].

(** Arrays without elements. *)
Definition empty_src : array := dense int32 [0; 3] 0 false.

Definition empty_dst : array := dense int16 [0; 3] 1 false.

(** An [int16] buffer and a [uint8] buffer for the matrix to be narrowed
    into, one after the other. *)
Definition halfway : array := dense int16 [2; 3] 1 false.

Definition narrowest : array := dense uint8 [2; 3] 2 false.

(** Three [int8] elements, an [int32] buffer to widen them into and an
    [int8] buffer to narrow them back into. *)
Definition narrow : array := dense int8 [3] 0 false.

Definition wide : array := dense int32 [3] 1 false.

Definition narrow_back : array := dense int8 [3] 2 false.

Definition narrow_state : state Z := state_of [-128; 5; 127].

(* ================================================================== *)
(** ** Tactics *)

(** Lists of a known length, written out element by element. *)
Ltac explode_lists :=
  repeat match goal with
         | H : length ?l = _ |- _ =>
             destruct l; simpl in H;
             [ try discriminate H | try discriminate H; try apply Nat.succ_inj in H ]
         end.

(* ================================================================== *)
(** ** Properties *)

Section Facts.

Context {value : Type} {cast : Cast value}.

(** *** Arithmetic of [stride_t] *)

Lemma wrap_congr (st : stride_t) (a b : Z) :
  (a - b) mod 2 ^ 64 = 0 -> wrap st a = wrap st b.
Proof.
  intros H. apply Z.mod_divide in H; [|lia]. destruct H as [k Hk].
  assert (E : a = b + k * 2 ^ 64) by lia. subst a.
  destruct st; unfold wrap, wrap_u64, wrap_s64.
  - now rewrite Z.mod_add by lia.
  - replace (b + k * 2 ^ 64 + 2 ^ 63) with (b + 2 ^ 63 + k * 2 ^ 64) by ring.
    now rewrite Z.mod_add by lia.
Qed.

Lemma wrap_residue (st : stride_t) (a : Z) : (wrap st a - a) mod 2 ^ 64 = 0.
Proof.
  apply Z.mod_divide; [lia|].
  destruct st; unfold wrap, wrap_u64, wrap_s64.
  - exists (- (a / 2 ^ 64)). pose proof (Z.div_mod a (2 ^ 64)). lia.
  - exists (- ((a + 2 ^ 63) / 2 ^ 64)).
    pose proof (Z.div_mod (a + 2 ^ 63) (2 ^ 64)). lia.
Qed.

Lemma wrap_in_range (st : stride_t) (a : Z) : in_range st a -> wrap st a = a.
Proof.
  destruct st; unfold in_range, wrap, wrap_u64, wrap_s64; intros H.
  - apply Z.mod_small; lia.
  - rewrite Z.mod_small; lia.
Qed.

Lemma wrap_0 (st : stride_t) : wrap st 0 = 0.
Proof. now destruct st. Qed.

Lemma divides_mod0 (a k : Z) : a = k * 2 ^ 64 -> a mod 2 ^ 64 = 0.
Proof. intros ->. apply Z.mod_mul. lia. Qed.

Lemma wrap_witness (st : stride_t) (a : Z) :
  exists k, wrap st a = a + k * 2 ^ 64.
Proof.
  pose proof (wrap_residue st a) as H.
  apply Z.mod_divide in H; [|lia]. destruct H as [k Hk].
  exists k. lia.
Qed.

Lemma wrap_add_l (st : stride_t) (a b : Z) :
  wrap st (wrap st a + b) = wrap st (a + b).
Proof.
  destruct (wrap_witness st a) as [k ->].
  apply wrap_congr, (divides_mod0 _ k). ring.
Qed.

Lemma wrap_add_r (st : stride_t) (a b : Z) :
  wrap st (a + wrap st b) = wrap st (a + b).
Proof.
  destruct (wrap_witness st b) as [k ->].
  apply wrap_congr, (divides_mod0 _ k). ring.
Qed.

Lemma wrap_sub_r (st : stride_t) (a b : Z) :
  wrap st (a - wrap st b) = wrap st (a - b).
Proof.
  destruct (wrap_witness st b) as [k ->].
  apply wrap_congr, (divides_mod0 _ (- k)). ring.
Qed.

Lemma wrap_s64_add_l (a b : Z) : wrap_s64 (wrap_s64 a + b) = wrap_s64 (a + b).
Proof. apply (wrap_add_l stride_int64_t). Qed.

Lemma wrap_s64_wrap (st : stride_t) (a : Z) : wrap_s64 (wrap st a) = wrap_s64 a.
Proof.
  destruct (wrap_witness st a) as [k ->].
  apply (wrap_congr stride_int64_t), (divides_mod0 _ k). ring.
Qed.

(** *** Loops as folds *)

Lemma for_from_const {A : Type} (f : A -> A) (n : nat) (i : Z) (a : A) :
  for_from n i (fun _ => f) a = repeat_n n f a.
Proof. revert i a. induction n; intros; simpl; auto. Qed.

Lemma for_int_const {A : Type} (f : A -> A) (N : Z) (a : A) :
  for_int N (fun _ => f) a = repeat_n (Z.to_nat N) f a.
Proof. apply for_from_const. Qed.

Lemma for_from_fold {A : Type} (body : Z -> A -> A) (n k : nat) (a : A) :
  for_from n (Z.of_nat k) body a
  = fold_left (fun a j => body j a) (map Z.of_nat (seq k n)) a.
Proof.
  revert k a. induction n; intros; simpl; auto.
  replace (Z.of_nat k + 1) with (Z.of_nat (S k)) by lia. apply IHn.
Qed.

Lemma for_int_fold {A : Type} (body : Z -> A -> A) (N : Z) (a : A) :
  for_int N body a = fold_left (fun a j => body j a) (zseq N) a.
Proof. apply (for_from_fold body (Z.to_nat N) 0). Qed.

Lemma repeat_n_steps {A B : Type} (f : A -> A) (inv : nat -> B -> A)
    (g : nat -> B -> B) :
  (forall i b, f (inv i b) = inv (S i) (g i b)) ->
  forall n i b,
    repeat_n n f (inv i b)
    = inv (i + n)%nat (fold_left (fun b j => g j b) (seq i n) b).
Proof.
  intros Hstep. induction n; intros; simpl.
  - now rewrite Nat.add_0_r.
  - rewrite Hstep, IHn. f_equal. lia.
Qed.

Lemma fold_left_ext_in {A B : Type} (f g : A -> B -> A) (l : list B) (a : A) :
  (forall a x, In x l -> f a x = g a x) ->
  fold_left f l a = fold_left g l a.
Proof.
  revert a. induction l as [|x l IH]; intros a H; simpl; auto.
  rewrite H by now left. apply IH. intros. apply H. now right.
Qed.

Lemma fold_left_map {A B C : Type} (f : A -> C -> A) (h : B -> C)
    (l : list B) (a : A) :
  fold_left f (map h l) a = fold_left (fun a x => f a (h x)) l a.
Proof. revert a. induction l; intros; simpl; auto. Qed.

Lemma assign_all_app SrcT DstT sp dp l1 l2 s :
  assign_all SrcT DstT sp dp (l1 ++ l2) s
  = assign_all SrcT DstT sp dp l2 (assign_all SrcT DstT sp dp l1 s).
Proof. apply fold_left_app. Qed.

(** *** Lists of offsets *)

Lemma in_zseq (n j : Z) : In j (zseq n) <-> 0 <= j < n.
Proof.
  unfold zseq. rewrite in_map_iff. split.
  - intros [k [<- Hk]]. apply in_seq in Hk. lia.
  - intros H. exists (Z.to_nat j). split; [lia|]. apply in_seq. lia.
Qed.

Lemma length_zseq (n : Z) : length (zseq n) = Z.to_nat n.
Proof. unfold zseq. now rewrite length_map, length_seq. Qed.

Lemma numbered_app st x y l1 l2 :
  numbered st x y (l1 ++ l2)
  = numbered st x y l1 ++ numbered st x (y + Z.of_nat (length l1)) l2.
Proof.
  revert y. induction l1 as [|o l1 IH]; intros y; simpl.
  - now rewrite Z.add_0_r.
  - rewrite IH. do 3 f_equal. lia.
Qed.

Lemma numbered_shift st x a y l :
  numbered st x y (map (fun o => a + o) l) = numbered st (x + a) y l.
Proof.
  revert y. induction l as [|o l IH]; intros y; simpl; auto.
  rewrite IH. do 3 f_equal. lia.
Qed.

Lemma numbered_map st x (f : Z -> Z) (n k : nat) :
  numbered st x (Z.of_nat k) (map f (map Z.of_nat (seq k n)))
  = map (fun j => (wrap st (x + f j), wrap st j)) (map Z.of_nat (seq k n)).
Proof.
  revert k. induction n; intros k; simpl; auto.
  f_equal. replace (Z.of_nat k + 1) with (Z.of_nat (S k)) by lia. apply IHn.
Qed.

(** *** The loop nest visits the offsets of the view in row-major order *)

Lemma fold_chunks SrcT DstT st sp dp (x y s L : Z) (l' : list Z) :
  L = Z.of_nat (length l') ->
  forall n k b,
    fold_left
      (fun b j =>
         assign_all SrcT DstT sp dp
           (numbered st (x + Z.of_nat j * s) (y + Z.of_nat j * L) l') b)
      (seq k n) b
    = assign_all SrcT DstT sp dp
        (numbered st x (y + Z.of_nat k * L)
           (flat_map (fun i => map (fun o => i * s + o) l')
                     (map Z.of_nat (seq k n)))) b.
Proof.
  intros HL. induction n; intros k b; simpl; auto.
  rewrite numbered_app, assign_all_app, numbered_shift, length_map, IHn.
  do 2 f_equal. lia.
Qed.

Lemma nest_spec SrcT DstT st sp dp :
  forall ds ss s_out x y s,
    Forall (fun d => 0 <= d) ds ->
    nest SrcT DstT st sp dp ds ss s_out (mkcur (wrap st x) (wrap st y) s)
    = mkcur (wrap st (x + s_out))
            (wrap st (y + Z.of_nat (length (offs ds ss))))
            (assign_all SrcT DstT sp dp (numbered st x y (offs ds ss)) s).
Proof.
  induction ds as [|d ds IH]; intros ss s_out x y s Hds.
  - simpl. unfold skip, put; simpl.
    rewrite !wrap_add_l, Z.add_0_r. reflexivity.
  - destruct ss as [|s0 ss].
    + simpl. unfold skip, put; simpl.
      rewrite !wrap_add_l, Z.add_0_r. reflexivity.
    + inversion Hds as [|? ? Hd Hds']; subst.
      cbn [nest offs]. rewrite for_int_const.
      set (L := Z.of_nat (length (offs ds ss))).
      assert (R := repeat_n_steps
                 (fun c => nest SrcT DstT st sp dp ds ss s0 c)
                 (fun i b => mkcur (wrap st (x + Z.of_nat i * s0))
                                   (wrap st (y + Z.of_nat i * L)) b)
                 (fun i b => assign_all SrcT DstT sp dp
                               (numbered st (x + Z.of_nat i * s0)
                                         (y + Z.of_nat i * L) (offs ds ss)) b)
                 ltac:(intros i b; cbv beta; rewrite IH by assumption; fold L;
                       f_equal; f_equal; lia)
                 (Z.to_nat d) 0%nat s).
      cbv beta in R. rewrite Nat.add_0_l in R.
      replace (x + Z.of_nat 0 * s0) with x in R by lia.
      replace (y + Z.of_nat 0 * L) with y in R by lia.
      rewrite R. clear R.
      rewrite (fold_chunks SrcT DstT st sp dp x y s0 L (offs ds ss) eq_refl).
      unfold skip; simpl.
      rewrite wrap_add_l, wrap_add_r, Z.add_sub_assoc, wrap_sub_r.
      rewrite (Z2Nat.id d) by assumption.
      f_equal.
      * f_equal. ring.
      * f_equal. unfold zseq.
        rewrite (flat_map_constant_length (c := length (offs ds ss))).
        -- rewrite length_map, length_seq. fold L. lia.
        -- intros. now rewrite length_map.
      * rewrite Z.add_0_r. reflexivity.
Qed.


(** *** The rank kernels are the loop nest *)

Lemma cur_nest_cons SrcT DstT st sp dp d ds s0 ss k c :
  cur (nest SrcT DstT st sp dp (d :: ds) (s0 :: ss) k c)
  = cur (for_int d (fun _ c => nest SrcT DstT st sp dp ds ss s0 c) c).
Proof. reflexivity. Qed.

Lemma copy_general_dim1_nest SrcT DstT st src dst data_shape i_strides i_offset s :
  length data_shape = 1%nat -> length i_strides = 1%nat ->
  copy_general_dim1 SrcT DstT st src dst data_shape i_strides i_offset s
  = cur (nest SrcT DstT st (data src) (data dst) data_shape i_strides 0
              (mkcur (wrap st i_offset) 0 s)).
Proof. intros H1 H2. explode_lists. reflexivity. Qed.

Lemma copy_general_dim2_nest SrcT DstT st src dst data_shape i_strides i_offset s :
  length data_shape = 2%nat -> length i_strides = 2%nat ->
  copy_general_dim2 SrcT DstT st src dst data_shape i_strides i_offset s
  = cur (nest SrcT DstT st (data src) (data dst) data_shape i_strides 0
              (mkcur (wrap st i_offset) 0 s)).
Proof. intros H1 H2. explode_lists. reflexivity. Qed.

Lemma copy_general_dim3_nest SrcT DstT st src dst data_shape i_strides i_offset s :
  length data_shape = 3%nat -> length i_strides = 3%nat ->
  copy_general_dim3 SrcT DstT st src dst data_shape i_strides i_offset s
  = cur (nest SrcT DstT st (data src) (data dst) data_shape i_strides 0
              (mkcur (wrap st i_offset) 0 s)).
Proof. intros H1 H2. explode_lists. reflexivity. Qed.

Lemma copy_general_dim4_nest SrcT DstT st src dst data_shape i_strides i_offset s :
  length data_shape = 4%nat -> length i_strides = 4%nat ->
  copy_general_dim4 SrcT DstT st src dst data_shape i_strides i_offset s
  = cur (nest SrcT DstT st (data src) (data dst) data_shape i_strides 0
              (mkcur (wrap st i_offset) 0 s)).
Proof. intros H1 H2. explode_lists. reflexivity. Qed.

Lemma copy_general_dim5_nest SrcT DstT st src dst data_shape i_strides i_offset s :
  length data_shape = 5%nat -> length i_strides = 5%nat ->
  copy_general_dim5 SrcT DstT st src dst data_shape i_strides i_offset s
  = cur (nest SrcT DstT st (data src +p i_offset) (data dst) data_shape i_strides 0
              (mkcur 0 0 s)).
Proof. intros H1 H2. explode_lists. reflexivity. Qed.

Lemma copy_general_dim6_nest SrcT DstT st src dst data_shape i_strides i_offset s :
  length data_shape = 6%nat -> length i_strides = 6%nat ->
  copy_general_dim6 SrcT DstT st src dst data_shape i_strides i_offset s
  = cur (nest SrcT DstT st (data src +p i_offset) (data dst) data_shape i_strides 0
              (mkcur 0 0 s)).
Proof. intros H1 H2. explode_lists. reflexivity. Qed.

Lemma copy_general_dim7_nest SrcT DstT st src dst data_shape i_strides i_offset s :
  length data_shape = 7%nat -> length i_strides = 7%nat ->
  copy_general_dim7 SrcT DstT st src dst data_shape i_strides i_offset s
  = cur (nest SrcT DstT st (data src +p i_offset) (data dst) data_shape i_strides 0
              (mkcur 0 0 s)).
Proof. intros H1 H2. explode_lists. reflexivity. Qed.

Lemma kernel_low_visits SrcT DstT st src dst data_shape i_strides i_offset s :
  Forall (fun d => 0 <= d) data_shape ->
  cur (nest SrcT DstT st (data src) (data dst) data_shape i_strides 0
            (mkcur (wrap st i_offset) 0 s))
  = assign_all SrcT DstT (data src) (data dst)
      (numbered st i_offset 0 (offs data_shape i_strides)) s.
Proof.
  intros H. rewrite <- (wrap_0 st) at 2. now rewrite nest_spec.
Qed.

Lemma kernel_high_visits SrcT DstT st src dst data_shape i_strides i_offset s :
  Forall (fun d => 0 <= d) data_shape ->
  cur (nest SrcT DstT st (data src +p i_offset) (data dst) data_shape
            i_strides 0 (mkcur 0 0 s))
  = assign_all SrcT DstT (data src +p i_offset) (data dst)
      (numbered st 0 0 (offs data_shape i_strides)) s.
Proof.
  intros H. rewrite <- (wrap_0 st) at 2 3. now rewrite nest_spec.
Qed.


(** *** Offsets and the index utility *)

Lemma seq_from (k m : nat) : seq k m = map (fun r => (k + r)%nat) (seq 0 m).
Proof.
  revert k. induction m as [|m IH]; intros k; simpl; auto.
  f_equal; [lia|].
  rewrite <- (seq_shift m 0), map_map, (IH (S k)).
  apply map_ext. intros r. lia.
Qed.

Lemma zseq_mul (a b : Z) :
  0 <= a -> 0 <= b ->
  zseq (a * b) = flat_map (fun i => map (fun r => i * b + r) (zseq b)) (zseq a).
Proof.
  intros Ha Hb. unfold zseq.
  rewrite Z2Nat.inj_mul by assumption.
  generalize (Z.to_nat a) as n. intros n.
  remember (Z.to_nat b) as m eqn:Hm.
  assert (Eb : b = Z.of_nat m) by lia. clear Hm. subst b.
  induction n as [|n IH].
  - reflexivity.
  - replace (S n * m)%nat with (n * m + m)%nat by lia.
    rewrite seq_app, map_app, IH, seq_S, map_app, flat_map_app. simpl.
    rewrite app_nil_r. f_equal.
    rewrite (seq_from (n * m) m), !map_map.
    apply map_ext. intros k. lia.
Qed.


Lemma flat_map_ext_in {A B : Type} (f g : A -> list B) (l : list A) :
  (forall x, In x l -> f x = g x) -> flat_map f l = flat_map g l.
Proof.
  induction l as [|x l IH]; intros H; simpl; auto.
  rewrite H by now left. f_equal. apply IH. intros. apply H. now right.
Qed.

Lemma map_flat_map_comm {A B C : Type} (h : B -> C) (f : A -> list B)
    (l : list A) :
  map h (flat_map f l) = flat_map (fun x => map h (f x)) l.
Proof.
  induction l as [|x l IH]; simpl; auto. now rewrite map_app, IH.
Qed.

Lemma prod_nonneg (ds : list Z) : Forall (fun d => 0 <= d) ds -> 0 <= prod ds.
Proof.
  induction 1 as [|d ds Hd _ IH]; simpl; [lia|]. now apply Z.mul_nonneg_nonneg.
Qed.

Lemma prod_le_prod_max (ds : list Z) :
  Forall (fun d => 0 <= d) ds ->
  0 <= prod ds <= prod (map (Z.max 1) ds).
Proof.
  induction 1 as [|d ds Hd _ IH]; cbn [map prod fold_right]; [lia|].
  fold (prod ds) (prod (map (Z.max 1) ds)).
  pose proof (Z.le_max_r 1 d) as M.
  split; [apply Z.mul_nonneg_nonneg; lia|].
  apply Z.mul_le_mono_nonneg; lia.
Qed.

(** The element count of a shape that fits an [int] is at most [INT_MAX]. *)
Lemma fits_int_prod (ds : list Z) :
  Forall (fun d => 0 <= d) ds -> fits_int ds -> prod ds <= INT_MAX.
Proof.
  intros Hds H. pose proof (prod_le_prod_max ds Hds). unfold fits_int in H.
  lia.
Qed.

Lemma fits_int_bound (ds : list Z) :
  Forall (fun d => 0 <= d) ds -> fits_int ds -> prod ds <= 2 ^ 63.
Proof.
  intros Hds H. pose proof (fits_int_prod ds Hds H). unfold INT_MAX in *.
  lia.
Qed.

Lemma has_dim_nonempty (ds : list Z) :
  (exists d, In d ds /\ d <> 1) -> ds <> [].
Proof. intros (d & Hd & _) ->. destruct Hd. Qed.

Lemma length_offs (ds ss : list Z) :
  length ds = length ss -> Forall (fun d => 0 <= d) ds ->
  length (offs ds ss) = Z.to_nat (prod ds).
Proof.
  revert ss. induction ds as [|d ds IH]; intros [|s ss] Hlen Hds;
    try discriminate Hlen; simpl; auto.
  inversion Hds as [|? ? Hd Hds']; subst.
  rewrite (flat_map_constant_length (c := Z.to_nat (prod ds))).
  - rewrite length_zseq, Z2Nat.inj_mul; auto using prod_nonneg.
  - intros i _. rewrite length_map. apply IH; auto.
Qed.

Lemma elem_to_loc_rec_split (ds ss : list Z) :
  length ds = length ss -> Forall (fun d => 0 <= d) ds ->
  forall q r, 0 <= q -> 0 <= r < prod ds ->
    elem_to_loc_rec (q * prod ds + r) ds ss = (elem_to_loc r ds ss, q).
Proof.
  revert ss. induction ds as [|d ds IH]; intros [|s ss] Hlen Hds q r Hq Hr;
    try discriminate Hlen.
  - simpl in *. unfold elem_to_loc. simpl. f_equal. lia.
  - inversion Hds as [|? ? Hd Hds']; subst.
    injection Hlen as Hlen. simpl in Hr.
    pose proof (prod_nonneg ds Hds') as HP.
    assert (HP' : 0 < prod ds) by nia.
    assert (Hd' : 0 < d) by nia.
    pose proof (Z.div_mod r (prod ds) ltac:(lia)) as Hdm.
    pose proof (Z.mod_pos_bound r (prod ds) HP') as Hr0.
    assert (Hr1 : 0 <= r / prod ds < d).
    { split; [apply Z.div_pos; lia|]. apply Z.div_lt_upper_bound; lia. }
    unfold elem_to_loc. cbn [elem_to_loc_rec prod fold_right].
    fold (prod ds).
    replace (q * (d * prod ds) + r)
      with ((q * d + r / prod ds) * prod ds + r mod prod ds) by lia.
    rewrite (IH ss Hlen Hds' (q * d + r / prod ds) (r mod prod ds))
      by (try nia; lia).
    assert (E : elem_to_loc_rec r ds ss
                = (elem_to_loc (r mod prod ds) ds ss, r / prod ds)).
    { rewrite <- (IH ss Hlen Hds' (r / prod ds) (r mod prod ds)) by lia.
      f_equal. lia. }
    rewrite E.
    cbn [fst]. f_equal.
    + f_equal. f_equal.
      rewrite Z.add_comm, Z.mod_add by lia.
      rewrite !Z.mod_small by lia. reflexivity.
    + rewrite Z.add_comm, Z.div_add by lia.
      rewrite Z.div_small by lia. lia.
Qed.


Lemma elem_to_loc_cons (d s : Z) (ds ss : list Z) (i r : Z) :
  length ds = length ss -> Forall (fun d => 0 <= d) ds ->
  0 <= i < d -> 0 <= r < prod ds ->
  elem_to_loc (i * prod ds + r) (d :: ds) (s :: ss)
  = i * s + elem_to_loc r ds ss.
Proof.
  intros Hlen Hds Hi Hr. unfold elem_to_loc at 1. cbn [elem_to_loc_rec].
  rewrite elem_to_loc_rec_split by (auto; lia).
  cbn [fst]. rewrite Z.mod_small by lia. lia.
Qed.

(** The offsets of a view are what the index utility gives for the linear
    indices in order. *)
Lemma offs_elem_to_loc (ds ss : list Z) :
  length ds = length ss -> Forall (fun d => 0 <= d) ds ->
  offs ds ss = map (fun j => elem_to_loc j ds ss) (zseq (prod ds)).
Proof.
  revert ss. induction ds as [|d ds IH]; intros [|s ss] Hlen Hds;
    try discriminate Hlen.
  - reflexivity.
  - inversion Hds as [|? ? Hd Hds']; subst. injection Hlen as Hlen.
    cbn [offs prod fold_right]. fold (prod ds).
    rewrite zseq_mul by auto using prod_nonneg.
    rewrite map_flat_map_comm.
    apply flat_map_ext_in. intros i Hi. apply in_zseq in Hi.
    rewrite (IH ss Hlen Hds'), !map_map.
    apply map_ext_in. intros r Hr. apply in_zseq in Hr.
    now rewrite elem_to_loc_cons.
Qed.

Lemma offs_row_major (ds : list Z) :
  Forall (fun d => 0 <= d) ds -> offs ds (row_major ds) = zseq (prod ds).
Proof.
  induction 1 as [|d ds Hd Hds IH].
  - reflexivity.
  - cbn [offs row_major prod fold_right]. fold (prod ds).
    rewrite IH, zseq_mul by auto using prod_nonneg. reflexivity.
Qed.


(** *** The dimension collapser keeps the offsets *)

Lemma nth_map_lt {A B : Type} (f : A -> B) (l : list A) (k : nat) (a : A) (b : B) :
  (k < length l)%nat -> nth k (map f l) b = f (nth k l a).
Proof.
  intros H. rewrite (nth_indep _ b (f a)) by now rewrite length_map.
  apply map_nth.
Qed.

Lemma flat_map_flat_map {A B C : Type} (f : B -> list C) (g : A -> list B)
    (l : list A) :
  flat_map f (flat_map g l) = flat_map (fun x => flat_map f (g x)) l.
Proof.
  induction l as [|x l IH]; simpl; auto. now rewrite flat_map_app, IH.
Qed.

Lemma flat_map_map {A B C : Type} (f : B -> list C) (h : A -> B) (l : list A) :
  flat_map f (map h l) = flat_map (fun x => f (h x)) l.
Proof. induction l as [|x l IH]; simpl; auto. now rewrite IH. Qed.

Lemma offs_merge (d g s gs : Z) (groups gss : list Z) :
  0 <= d -> 0 <= g -> s = gs * g ->
  flat_map (fun i => map (fun o => i * s + o) (offs (g :: groups) (gs :: gss)))
           (zseq d)
  = offs (d * g :: groups) (gs :: gss).
Proof.
  intros Hd Hg ->. cbn [offs].
  rewrite zseq_mul, flat_map_flat_map by assumption.
  apply flat_map_ext. intros i.
  rewrite map_flat_map_comm, flat_map_map.
  apply flat_map_ext. intros m. rewrite map_map.
  apply map_ext. intros o. ring.
Qed.


Lemma nth_strides_cons (svs : list (list Z)) (n k : nat) :
  Forall (fun st => length st = S n) svs ->
  (k < length svs)%nat ->
  exists s0 st',
    nth k svs [] = s0 :: st' /\ length st' = n
    /\ nth k (map (@tl Z) svs) [] = st'.
Proof.
  intros Hst Hk.
  assert (H : length (nth k svs []) = S n).
  { rewrite Forall_forall in Hst. apply Hst. now apply nth_In. }
  change (nth k (map (@tl Z) svs) [])
    with (nth k (map (@tl Z) svs) (tl [])).
  rewrite map_nth.
  destruct (nth k svs []) as [|s0 st']; [discriminate H|].
  exists s0, st'. simpl in *. repeat split; congruence.
Qed.

Lemma collapse_spec :
  forall dims svs ns nss,
    Forall (fun d => 0 <= d) dims ->
    Forall (fun st => length st = length dims) svs ->
    collapse_contiguous_dims dims svs = (ns, nss) ->
    length nss = length svs
    /\ Forall (fun d => 0 <= d) ns
    /\ prod ns = prod dims
    /\ (dims <> [] -> ns <> [])
    /\ (length ns <= length dims)%nat
    /\ forall k, (k < length svs)%nat ->
         length (nth k nss []) = length ns
         /\ offs ns (nth k nss []) = offs dims (nth k svs [])
         /\ (nth k nss []).[0] * hd 1 ns = (nth k svs []).[0] * hd 1 dims.
Proof.
  induction dims as [|d dims IH]; intros svs ns nss Hsh Hst Hc.
  - simpl in Hc. injection Hc as <- <-. rewrite length_map.
    split; [reflexivity|]. split; [constructor|]. split; [reflexivity|].
    split; [auto|]. split; [auto|].
    intros k Hk. rewrite (nth_map_lt _ _ _ []) by assumption.
    assert (H0 : length (nth k svs []) = 0%nat).
    { rewrite Forall_forall in Hst. apply Hst. now apply nth_In. }
    destruct (nth k svs []); [|discriminate H0]. repeat split.
  - inversion Hsh as [|? ? Hd Hsh']; subst.
    cbn [collapse_contiguous_dims] in Hc.
    destruct (collapse_contiguous_dims dims (map (@tl Z) svs))
      as [ns' nss'] eqn:E.
    assert (Hst' : Forall (fun st => length st = length dims)
                          (map (@tl Z) svs)).
    { rewrite Forall_map. revert Hst. apply Forall_impl.
      intros [|? ?]; simpl; intros; [discriminate|lia]. }
    destruct (IH _ _ _ Hsh' Hst' E) as (Ln & Nn & Pn & NEn & LEn & Kn).
    rewrite length_map in Ln.
    destruct dims as [|d1 rest].
    + injection Hc as <- <-. rewrite length_map.
      split; [reflexivity|]. split; [constructor; auto|].
      split; [reflexivity|]. split; [discriminate|]. split; [simpl; lia|].
      intros k Hk. rewrite (nth_map_lt _ _ _ []) by assumption.
      destruct (nth_strides_cons svs 0 k Hst Hk) as (s0 & st' & -> & L' & _).
      destruct st'; [|discriminate L']. repeat split.
    + destruct ns' as [|g groups]; [exfalso; apply NEn; [discriminate|reflexivity]|].
      inversion Nn as [|? ? Hg Hgroups]; subst.
      destruct (forallb (fun st => st.[0] =? st.[1] * d1) svs) eqn:F.
      * (* the dimension merges into the group of its inner neighbour *)
        injection Hc as <- <-.
        split; [assumption|]. split; [constructor; [nia|assumption]|].
        split; [simpl in *; rewrite <- Pn; ring|].
        split; [intros _; discriminate|].
        split; [simpl in *; lia|].
        intros k Hk.
        destruct (nth_strides_cons svs _ k Hst Hk)
          as (s0 & st' & Es & L' & Et).
        destruct (Kn k ltac:(now rewrite length_map)) as (K1 & K2 & K3).
        rewrite Et in K2, K3. rewrite Es.
        destruct st' as [|s1 st'']; [discriminate L'|].
        destruct (nth k nss' []) as [|gs0 gss]; [discriminate K1|].
        assert (M : s0 = s1 * d1).
        { rewrite forallb_forall in F.
          specialize (F (nth k svs []) (nth_In _ _ Hk)).
          rewrite Es in F. apply Z.eqb_eq in F. exact F. }
        unfold vec_at in *. cbn [nth hd] in K3 |- *.
        split; [assumption|]. split.
        -- rewrite <- offs_merge with (s := s0) by (auto; lia).
           cbn [offs]. cbn [offs] in K2. rewrite <- K2. reflexivity.
        -- nia.
      * (* the dimension starts a group of its own *)
        injection Hc as <- <-.
        assert (Lc : length (combine svs nss') = length svs).
        { rewrite length_combine. lia. }
        split; [now rewrite length_map|].
        split; [constructor; assumption|].
        split; [simpl in *; rewrite <- Pn; ring|].
        split; [intros _; discriminate|].
        split; [simpl in *; lia|].
        intros k Hk.
        destruct (nth_strides_cons svs _ k Hst Hk)
          as (s0 & st' & Es & L' & Et).
        destruct (Kn k ltac:(now rewrite length_map)) as (K1 & K2 & K3).
        rewrite Et in K2, K3.
        rewrite (nth_map_lt _ _ _ ([], [])) by lia.
        rewrite combine_nth by lia. cbn [fst snd]. rewrite Es.
        unfold vec_at. simpl.
        split; [simpl in K1; lia|]. split; [|reflexivity].
        cbn [offs]. cbn [offs] in K2.
        destruct (nth k nss' []) as [|gs0 gss]; [discriminate K1|].
        rewrite <- K2. reflexivity.
Qed.


(** *** copy_general against the brute-force reference *)

Lemma in_rangeb_spec st x : in_rangeb st x = true -> in_range st x.
Proof.
  destruct st; simpl; intros H; apply andb_prop in H; destruct H as [H1 H2];
    apply Z.leb_le in H1; apply Z.ltb_lt in H2; lia.
Qed.

Lemma offsets_fit_spec st ds ss off :
  offsets_fit st ds ss off = true ->
  forall j, 0 <= j < prod ds ->
    wrap st j = j
    /\ wrap st (elem_to_loc j ds ss) = elem_to_loc j ds ss
    /\ wrap st (off + elem_to_loc j ds ss) = off + elem_to_loc j ds ss.
Proof.
  unfold offsets_fit. intros H j Hj.
  apply andb_prop in H. destruct H as [HP H].
  rewrite forallb_forall in H. specialize (H j (proj2 (in_zseq _ _) Hj)).
  apply andb_prop in H. destruct H as [H1 H2].
  apply in_rangeb_spec in H1, H2. apply Z.leb_le in HP.
  repeat split; apply wrap_in_range; auto.
  destruct st; simpl; lia.
Qed.

Lemma ptr_add_assoc (p : ptr) (a b : Z) : p +p a +p b = p +p (a + b).
Proof. unfold ptr_add. simpl. f_equal. lia. Qed.

Lemma ptr_add_0 (p : ptr) : p +p 0 = p.
Proof. destruct p. unfold ptr_add. simpl. f_equal. lia. Qed.

Lemma copy_reference_visits SrcT DstT src dst ds ss off s :
  copy_reference SrcT DstT src dst ds ss off s
  = assign_all SrcT DstT (data src) (data dst)
      (map (fun j => (off + elem_to_loc j ds ss, j)) (zseq (prod ds))) s.
Proof.
  unfold copy_reference, assign_all. now rewrite for_int_fold, fold_left_map.
Qed.

Lemma numbered_fit SrcT DstT st sp dp ds ss off s :
  offsets_fit st ds ss off = true ->
  assign_all SrcT DstT sp dp
    (numbered st off 0 (map (fun j => elem_to_loc j ds ss) (zseq (prod ds)))) s
  = assign_all SrcT DstT sp dp
      (map (fun j => (off + elem_to_loc j ds ss, j)) (zseq (prod ds))) s.
Proof.
  intros Hfit. unfold zseq.
  rewrite (numbered_map st off (fun j => elem_to_loc j ds ss) _ 0).
  fold (zseq (prod ds)). unfold assign_all. rewrite !fold_left_map.
  apply fold_left_ext_in. intros a j Hj. apply in_zseq in Hj. cbn [fst snd].
  destruct (offsets_fit_spec st ds ss off Hfit j Hj) as (E1 & _ & E3).
  now rewrite E1, E3.
Qed.

Lemma numbered_fit_shifted SrcT DstT st sp dp ds ss off s :
  offsets_fit st ds ss off = true ->
  assign_all SrcT DstT (sp +p off) dp
    (numbered st 0 0 (map (fun j => elem_to_loc j ds ss) (zseq (prod ds)))) s
  = assign_all SrcT DstT sp dp
      (map (fun j => (off + elem_to_loc j ds ss, j)) (zseq (prod ds))) s.
Proof.
  intros Hfit. unfold zseq.
  rewrite (numbered_map st 0 (fun j => elem_to_loc j ds ss) _ 0).
  fold (zseq (prod ds)). unfold assign_all. rewrite !fold_left_map.
  apply fold_left_ext_in. intros a j Hj. apply in_zseq in Hj. cbn [fst snd].
  destruct (offsets_fit_spec st ds ss off Hfit j Hj) as (E1 & E2 & _).
  now rewrite E1, Z.add_0_l, E2, ptr_add_assoc.
Qed.


Lemma collapse_elem_to_loc (ds ss : list Z) (svs : list (list Z))
    (ns : list Z) (nss : list (list Z)) (k : nat) :
  Forall (fun d => 0 <= d) ds ->
  Forall (fun st => length st = length ds) svs ->
  collapse_contiguous_dims ds svs = (ns, nss) ->
  (k < length svs)%nat ->
  forall j, 0 <= j < prod ds ->
    elem_to_loc j ns (nth k nss []) = elem_to_loc j ds (nth k svs []).
Proof.
  intros Hds Hsvs Hc Hk j Hj.
  destruct (collapse_spec _ _ _ _ Hds Hsvs Hc) as (_ & Nn & Pn & _ & _ & Kn).
  destruct (Kn k Hk) as (K1 & K2 & _).
  assert (Lk : length ds = length (nth k svs [])).
  { rewrite Forall_forall in Hsvs. symmetry. apply Hsvs. now apply nth_In. }
  rewrite (offs_elem_to_loc ns) in K2 by auto.
  rewrite (offs_elem_to_loc ds) in K2 by auto.
  rewrite Pn in K2.
  apply (proj1 map_ext_in_iff K2). now apply in_zseq.
Qed.

Lemma fallback_visits SrcT DstT st src dst ds ss ns nss0 off s :
  offsets_fit st ds ss off = true ->
  size dst = prod ds ->
  (forall j, 0 <= j < prod ds -> elem_to_loc j ns nss0 = elem_to_loc j ds ss) ->
  for_int (size dst) (fun i s =>
    let src_elem := wrap st (elem_to_loc i ns nss0) in
    assign SrcT DstT (data src +p off +p src_elem) (data dst +p i) s) s
  = assign_all SrcT DstT (data src) (data dst)
      (map (fun j => (off + elem_to_loc j ds ss, j)) (zseq (prod ds))) s.
Proof.
  intros Hfit Hsz He. rewrite Hsz, for_int_fold.
  unfold assign_all. rewrite fold_left_map.
  apply fold_left_ext_in. intros a j Hj. apply in_zseq in Hj. cbn [fst snd].
  destruct (offsets_fit_spec st ds ss off Hfit j Hj) as (_ & E2 & _).
  now rewrite (He j Hj), E2, ptr_add_assoc.
Qed.

(** The collapsed kernels and the fallback of [copy_general] all do what
    the brute-force reference does. *)
Lemma copy_general_is_reference SrcT DstT st src dst ds ss off s :
  length ss = length ds ->
  Forall (fun d => 0 <= d) ds ->
  size dst = prod ds ->
  offsets_fit st ds ss off = true ->
  copy_general SrcT DstT st src dst ds ss off s
  = copy_reference SrcT DstT src dst ds ss off s.
Proof.
  intros Hlen Hds Hsz Hfit. rewrite copy_reference_visits.
  unfold copy_general.
  destruct (collapse_contiguous_dims ds [ss]) as [ns nss] eqn:Hc.
  assert (Hsvs : Forall (fun st => length st = length ds) [ss])
    by (constructor; auto).
  destruct (collapse_spec _ _ _ _ Hds Hsvs Hc) as (_ & Nn & Pn & _ & _ & Kn).
  destruct (Kn 0%nat ltac:(simpl; lia)) as (K1 & Ho & _).
  cbn [nth] in Ho.
  pose proof (collapse_elem_to_loc ds ss [ss] ns nss 0 Hds Hsvs Hc
                ltac:(simpl; lia)) as He.
  cbn [nth] in He.
  destruct (length ns) as [|[|[|[|[|[|[|[|n]]]]]]]] eqn:Ln.
  - now apply fallback_visits.
  - (* rank 1 *)
    rewrite copy_general_dim1_nest, kernel_low_visits by (auto; congruence).
    rewrite Ho, offs_elem_to_loc by auto. now apply numbered_fit.
  - (* rank 2 *)
    rewrite copy_general_dim2_nest, kernel_low_visits by (auto; congruence).
    rewrite Ho, offs_elem_to_loc by auto. now apply numbered_fit.
  - (* rank 3 *)
    rewrite copy_general_dim3_nest, kernel_low_visits by (auto; congruence).
    rewrite Ho, offs_elem_to_loc by auto. now apply numbered_fit.
  - (* rank 4 *)
    rewrite copy_general_dim4_nest, kernel_low_visits by (auto; congruence).
    rewrite Ho, offs_elem_to_loc by auto. now apply numbered_fit.
  - (* rank 5 *)
    rewrite copy_general_dim5_nest, kernel_high_visits by (auto; congruence).
    rewrite Ho, offs_elem_to_loc by auto. now apply numbered_fit_shifted.
  - (* rank 6 *)
    rewrite copy_general_dim6_nest, kernel_high_visits by (auto; congruence).
    rewrite Ho, offs_elem_to_loc by auto. now apply numbered_fit_shifted.
  - (* rank 7 *)
    rewrite copy_general_dim7_nest, kernel_high_visits by (auto; congruence).
    rewrite Ho, offs_elem_to_loc by auto. now apply numbered_fit_shifted.
  - now apply fallback_visits.
Qed.


(** *** Memory and traces *)

Lemma ptr_eqb_eq (p q : ptr) : ptr_eqb p q = true <-> p = q.
Proof.
  destruct p as [b o], q as [b' o']. unfold ptr_eqb. simpl.
  rewrite andb_true_iff, Nat.eqb_eq, Z.eqb_eq.
  split; [intros [-> ->]; reflexivity|intros E; injection E; auto].
Qed.

Lemma load_store (p q : ptr) (v : value) (s : state value) :
  load (store p v s) q = if ptr_eqb q p then v else load s q.
Proof. reflexivity. Qed.

Lemma load_store_same (p : ptr) (v : value) (s : state value) :
  load (store p v s) p = v.
Proof.
  rewrite load_store.
  now rewrite (proj2 (ptr_eqb_eq p p) eq_refl).
Qed.

Lemma load_store_other (p q : ptr) (v : value) (s : state value) :
  q <> p -> load (store p v s) q = load s q.
Proof.
  intros H. rewrite load_store.
  destruct (ptr_eqb q p) eqn:E; [|reflexivity].
  apply ptr_eqb_eq in E. contradiction.
Qed.

Lemma ptr_add_inj (p : ptr) (a b : Z) : p +p a = p +p b -> a = b.
Proof. unfold ptr_add. intros E. injection E. lia. Qed.

Lemma stores_cons_store (p : ptr) (t : list event) :
  stores (EvStore p :: t) = stores t ++ [p].
Proof. unfold stores. simpl. now rewrite flat_map_app. Qed.

Lemma mallocs_cons_store (p : ptr) (t : list event) :
  mallocs (EvStore p :: t) = mallocs t.
Proof. unfold mallocs. simpl. rewrite flat_map_app. simpl. apply app_nil_r. Qed.

Lemma stores_cons_malloc (n : Z) (b : block) (t : list event) :
  stores (EvMalloc n b :: t) = stores t.
Proof. unfold stores. simpl. rewrite flat_map_app. simpl. apply app_nil_r. Qed.

Lemma mallocs_cons_malloc (n : Z) (b : block) (t : list event) :
  mallocs (EvMalloc n b :: t) = mallocs t ++ [n].
Proof. unfold mallocs. simpl. now rewrite flat_map_app. Qed.

(** What a sequence of element assignments leaves in the trace. *)
Lemma assign_all_trace SrcT DstT sp dp (l : list (Z * Z)) (s : state value) :
  stores (trace (assign_all SrcT DstT sp dp l s))
  = stores (trace s) ++ map (fun p => dp +p snd p) l
  /\ mallocs (trace (assign_all SrcT DstT sp dp l s)) = mallocs (trace s)
  /\ next_block (assign_all SrcT DstT sp dp l s) = next_block s.
Proof.
  revert s. induction l as [|p l IH]; intros s.
  - simpl. now rewrite app_nil_r.
  - unfold assign_all in *. cbn [fold_left map].
    destruct (IH (assign SrcT DstT (sp +p fst p) (dp +p snd p) s))
      as (I1 & I2 & I3).
    rewrite I1, I2, I3. unfold assign, store. cbn [trace next_block].
    rewrite stores_cons_store, mallocs_cons_store, <- app_assoc.
    repeat split.
Qed.


(** *** The kernels only store: they request nothing from the allocator *)

Lemma for_from_preserves {A : Type} (P : A -> Prop) (body : Z -> A -> A) :
  (forall i a, P a -> P (body i a)) ->
  forall n i a, P a -> P (for_from n i body a).
Proof. intros H. induction n; intros; simpl; auto. Qed.

Lemma for_int_preserves {A : Type} (P : A -> Prop) (body : Z -> A -> A)
    (N : Z) (a : A) :
  (forall i a, P a -> P (body i a)) -> P a -> P (for_int N body a).
Proof. intros H Ha. unfold for_int. now apply for_from_preserves. Qed.

Lemma store_allocs (p : ptr) (v : value) (s : state value) :
  mallocs (trace (store p v s)) = mallocs (trace s)
  /\ next_block (store p v s) = next_block s.
Proof. unfold store. simpl. now rewrite mallocs_cons_store. Qed.

Lemma put_allocs SrcT DstT st sp dp (c : cursor value) (m : list Z) (nb : block) :
  mallocs (trace (cur c)) = m /\ next_block (cur c) = nb ->
  mallocs (trace (cur (put SrcT DstT st sp dp c))) = m
  /\ next_block (cur (put SrcT DstT st sp dp c)) = nb.
Proof.
  intros [H1 H2]. unfold put, assign. cbn [cur].
  destruct (store_allocs (dp +p dst_idx c)
              (static_cast SrcT DstT (load (cur c) (sp +p src_idx c))) (cur c))
    as [E1 E2].
  now rewrite E1, E2.
Qed.

Lemma skip_allocs st k (c : cursor value) (m : list Z) (nb : block) :
  mallocs (trace (cur c)) = m /\ next_block (cur c) = nb ->
  mallocs (trace (cur (skip st k c))) = m
  /\ next_block (cur (skip st k c)) = nb.
Proof. auto. Qed.


Lemma copy_general_dim1_allocs SrcT DstT st src dst ds ss off (s : state value) :
  mallocs (trace (copy_general_dim1 SrcT DstT st src dst ds ss off s))
  = mallocs (trace s)
  /\ next_block (copy_general_dim1 SrcT DstT st src dst ds ss off s)
     = next_block s.
Proof.
  unfold copy_general_dim1. cbv zeta.
  apply (for_int_preserves
           (fun c => mallocs (trace (cur c)) = mallocs (trace s)
                     /\ next_block (cur c) = next_block s));
    [|split; reflexivity].
  intros ? ? ?. cbv beta in *.
  repeat first
    [ assumption
    | apply skip_allocs
    | apply put_allocs
    | apply for_int_preserves; [intros ? ? ?|] ].
Qed.


Lemma copy_general_dim2_allocs SrcT DstT st src dst ds ss off (s : state value) :
  mallocs (trace (copy_general_dim2 SrcT DstT st src dst ds ss off s))
  = mallocs (trace s)
  /\ next_block (copy_general_dim2 SrcT DstT st src dst ds ss off s)
     = next_block s.
Proof.
  unfold copy_general_dim2. cbv zeta.
  apply (for_int_preserves
           (fun c => mallocs (trace (cur c)) = mallocs (trace s)
                     /\ next_block (cur c) = next_block s));
    [|split; reflexivity].
  intros ? ? ?. cbv beta in *.
  repeat first
    [ assumption
    | apply skip_allocs
    | apply put_allocs
    | apply for_int_preserves; [intros ? ? ?|] ].
Qed.


Lemma copy_general_dim3_allocs SrcT DstT st src dst ds ss off (s : state value) :
  mallocs (trace (copy_general_dim3 SrcT DstT st src dst ds ss off s))
  = mallocs (trace s)
  /\ next_block (copy_general_dim3 SrcT DstT st src dst ds ss off s)
     = next_block s.
Proof.
  unfold copy_general_dim3. cbv zeta.
  apply (for_int_preserves
           (fun c => mallocs (trace (cur c)) = mallocs (trace s)
                     /\ next_block (cur c) = next_block s));
    [|split; reflexivity].
  intros ? ? ?. cbv beta in *.
  repeat first
    [ assumption
    | apply skip_allocs
    | apply put_allocs
    | apply for_int_preserves; [intros ? ? ?|] ].
Qed.


Lemma copy_general_dim4_allocs SrcT DstT st src dst ds ss off (s : state value) :
  mallocs (trace (copy_general_dim4 SrcT DstT st src dst ds ss off s))
  = mallocs (trace s)
  /\ next_block (copy_general_dim4 SrcT DstT st src dst ds ss off s)
     = next_block s.
Proof.
  unfold copy_general_dim4. cbv zeta.
  apply (for_int_preserves
           (fun c => mallocs (trace (cur c)) = mallocs (trace s)
                     /\ next_block (cur c) = next_block s));
    [|split; reflexivity].
  intros ? ? ?. cbv beta in *.
  repeat first
    [ assumption
    | apply skip_allocs
    | apply put_allocs
    | apply for_int_preserves; [intros ? ? ?|] ].
Qed.


Lemma copy_general_dim5_allocs SrcT DstT st src dst ds ss off (s : state value) :
  mallocs (trace (copy_general_dim5 SrcT DstT st src dst ds ss off s))
  = mallocs (trace s)
  /\ next_block (copy_general_dim5 SrcT DstT st src dst ds ss off s)
     = next_block s.
Proof.
  unfold copy_general_dim5. cbv zeta.
  apply (for_int_preserves
           (fun c => mallocs (trace (cur c)) = mallocs (trace s)
                     /\ next_block (cur c) = next_block s));
    [|split; reflexivity].
  intros ? ? ?. cbv beta in *.
  repeat first
    [ assumption
    | apply skip_allocs
    | apply put_allocs
    | apply for_int_preserves; [intros ? ? ?|] ].
Qed.


Lemma copy_general_dim6_allocs SrcT DstT st src dst ds ss off (s : state value) :
  mallocs (trace (copy_general_dim6 SrcT DstT st src dst ds ss off s))
  = mallocs (trace s)
  /\ next_block (copy_general_dim6 SrcT DstT st src dst ds ss off s)
     = next_block s.
Proof.
  unfold copy_general_dim6. cbv zeta.
  apply (for_int_preserves
           (fun c => mallocs (trace (cur c)) = mallocs (trace s)
                     /\ next_block (cur c) = next_block s));
    [|split; reflexivity].
  intros ? ? ?. cbv beta in *.
  repeat first
    [ assumption
    | apply skip_allocs
    | apply put_allocs
    | apply for_int_preserves; [intros ? ? ?|] ].
Qed.


Lemma copy_general_dim7_allocs SrcT DstT st src dst ds ss off (s : state value) :
  mallocs (trace (copy_general_dim7 SrcT DstT st src dst ds ss off s))
  = mallocs (trace s)
  /\ next_block (copy_general_dim7 SrcT DstT st src dst ds ss off s)
     = next_block s.
Proof.
  unfold copy_general_dim7. cbv zeta.
  apply (for_int_preserves
           (fun c => mallocs (trace (cur c)) = mallocs (trace s)
                     /\ next_block (cur c) = next_block s));
    [|split; reflexivity].
  intros ? ? ?. cbv beta in *.
  repeat first
    [ assumption
    | apply skip_allocs
    | apply put_allocs
    | apply for_int_preserves; [intros ? ? ?|] ].
Qed.

Lemma copy_general_allocs SrcT DstT st src dst ds ss off (s : state value) :
  mallocs (trace (copy_general SrcT DstT st src dst ds ss off s))
  = mallocs (trace s)
  /\ next_block (copy_general SrcT DstT st src dst ds ss off s) = next_block s.
Proof.
  unfold copy_general.
  destruct (collapse_contiguous_dims ds [ss]) as [ns nss].
  assert (F : forall n,
             mallocs (trace (for_int n (fun i s0 =>
               let src_elem := wrap st (elem_to_loc i ns (nth 0 nss [])) in
               assign SrcT DstT (data src +p off +p src_elem) (data dst +p i) s0) s))
             = mallocs (trace s)
             /\ next_block (for_int n (fun i s0 =>
               let src_elem := wrap st (elem_to_loc i ns (nth 0 nss [])) in
               assign SrcT DstT (data src +p off +p src_elem) (data dst +p i) s0) s)
                = next_block s).
  { intros n.
    apply (for_int_preserves
             (fun s' => mallocs (trace s') = mallocs (trace s)
                        /\ next_block s' = next_block s));
      [|split; reflexivity].
    intros i a [H1 H2]. cbv zeta. unfold assign.
    destruct (store_allocs (data dst +p i)
                (static_cast SrcT DstT
                   (load a (data src +p off
                            +p wrap st (elem_to_loc i ns (nth 0 nss []))))) a)
      as [E1 E2].
    now rewrite E1, E2. }
  destruct (length ns) as [|[|[|[|[|[|[|[|n]]]]]]]].
  - apply F.
  - apply copy_general_dim1_allocs.
  - apply copy_general_dim2_allocs.
  - apply copy_general_dim3_allocs.
  - apply copy_general_dim4_allocs.
  - apply copy_general_dim5_allocs.
  - apply copy_general_dim6_allocs.
  - apply copy_general_dim7_allocs.
  - apply F.
Qed.

Lemma copy_single_allocs SrcT DstT src dst (s : state value) :
  mallocs (trace (copy_single SrcT DstT src dst s)) = mallocs (trace s)
  /\ next_block (copy_single SrcT DstT src dst s) = next_block s.
Proof.
  unfold copy_single. cbv zeta.
  apply (for_int_preserves
           (fun s' => mallocs (trace s') = mallocs (trace s)
                      /\ next_block s' = next_block s));
    [|split; reflexivity].
  intros i a [H1 H2].
  destruct (store_allocs (data dst +p i)
              (static_cast SrcT DstT (load s (data src +p 0))) a) as [E1 E2].
  now rewrite E1, E2.
Qed.

Lemma std_copy_visits SrcT DstT (p q : ptr) (n k : nat) (s : state value) :
  std_copy SrcT DstT n (p +p Z.of_nat k) (q +p Z.of_nat k) s
  = assign_all SrcT DstT p q
      (map (fun i => (i, i)) (map Z.of_nat (seq k n))) s.
Proof.
  revert k s. induction n; intros k s; simpl; auto.
  rewrite !ptr_add_assoc.
  replace (Z.of_nat k + 1) with (Z.of_nat (S k)) by lia.
  now rewrite IHn.
Qed.

Lemma copy_vector_visits SrcT DstT src dst (s : state value) :
  copy_vector SrcT DstT src dst s
  = assign_all SrcT DstT (data src) (data dst)
      (map (fun i => (i, i)) (zseq (data_size src))) s.
Proof.
  unfold copy_vector. cbv zeta.
  rewrite <- (ptr_add_0 (data src)) at 1.
  rewrite <- (ptr_add_0 (data dst)) at 1.
  apply (std_copy_visits SrcT DstT (data src) (data dst) _ 0).
Qed.


(** *** The Scalar strategy *)

Lemma fill_load (p : ptr) (v : value) (l : list Z) (s : state value) (j : Z) :
  In j l ->
  load (fold_left (fun s i => store (p +p i) v s) l s) (p +p j) = v.
Proof.
  induction l as [|x l IH] using rev_ind; intros Hj; [destruct Hj|].
  rewrite fold_left_app. cbn [fold_left].
  destruct (Z.eq_dec j x) as [->|Hne].
  - apply load_store_same.
  - rewrite load_store_other.
    + apply IH. apply in_app_or in Hj. destruct Hj as [Hj|[Hj|[]]]; auto.
      congruence.
    + intros E. apply ptr_add_inj in E. contradiction.
Qed.

Lemma copy_single_load SrcT DstT src dst (s : state value) (j : Z) :
  0 <= j < size dst ->
  load (copy_single SrcT DstT src dst s) (data dst +p j)
  = static_cast SrcT DstT (load s (data src)).
Proof.
  intros Hj. unfold copy_single. cbv zeta.
  rewrite for_int_fold, ptr_add_0.
  apply fill_load. now apply in_zseq.
Qed.

Lemma dispatch_resolves (src dst : array) (ctype : CopyType) (args : Args)
    (s : state value) :
  copy_inplace_dispatch src dst ctype args s
  = copy_SrcT_DstT (elem_of_dtype (dtype src)) (elem_of_dtype (dtype dst))
                   src dst ctype args s.
Proof.
  unfold copy_inplace_dispatch, copy_SrcT.
  destruct (dtype src), (dtype dst); reflexivity.
Qed.



(** *** The orchestrator and the dispatch *)


(** C2. The top-level copy with strategy GeneralGeneral gives what the
    top-level copy with strategy General gives, and that is the result of
    the single-stride kernel run with the source's own shape and strides,
    from offset 0, against the destination as it is after receiving a
    freshly allocated buffer of [nbytes] bytes. *)
Theorem general_general_downgrade (src dst : array) (s : state value) :
  copy src dst GeneralGeneral s = copy src dst General s
  /\ copy src dst GeneralGeneral s
     = Some (set_data dst (fst (malloc_or_wait (nbytes dst) s)),
             copy_general (elem_of_dtype (dtype src)) (elem_of_dtype (dtype dst))
               stride_size_t src
               (set_data dst (fst (malloc_or_wait (nbytes dst) s)))
               (shape src) (strides src) 0
               (snd (malloc_or_wait (nbytes dst) s))).
Proof.
  split; [reflexivity|].
  unfold copy. cbn [malloc_or_wait fst snd].
  unfold copy_inplace. rewrite dispatch_resolves. reflexivity.
Qed.



(** *** The Vector strategy *)

Lemma assign_all_other SrcT DstT sp dp (l : list (Z * Z)) (s : state value)
    (q : ptr) :
  (forall p, In p l -> q <> dp +p snd p) ->
  load (assign_all SrcT DstT sp dp l s) q = load s q.
Proof.
  revert s. induction l as [|p l IH]; intros s H; [reflexivity|].
  unfold assign_all in *. cbn [fold_left].
  rewrite IH by (intros; apply H; now right).
  unfold assign. apply load_store_other. apply H. now left.
Qed.

Lemma diagonal_load SrcT DstT (p q : ptr) (s : state value) :
  blk p <> blk q \/ ofs q <= ofs p ->
  forall n k i,
    (k <= i < k + n)%nat ->
    load (assign_all SrcT DstT p q
            (map (fun i => (i, i)) (map Z.of_nat (seq k n))) s)
         (q +p Z.of_nat i)
    = static_cast SrcT DstT (load s (p +p Z.of_nat i)).
Proof.
  intros Hpq. induction n as [|n IH]; intros k i Hi; [lia|].
  rewrite seq_S, !map_app, assign_all_app.
  cbn [map]. unfold assign_all at 1. cbn [fold_left fst snd]. unfold assign.
  destruct (Nat.eq_dec i (k + n)) as [->|Hne].
  - rewrite load_store_same. f_equal.
    apply assign_all_other. intros pr Hin.
    rewrite map_map in Hin. apply in_map_iff in Hin.
    destruct Hin as (j & <- & Hj). apply in_seq in Hj. cbn [snd].
    unfold ptr_add. intros E. injection E as E1 E2.
    destruct Hpq as [Hb|Ho]; [congruence|lia].
  - rewrite load_store_other.
    + apply IH. lia.
    + intros E. apply ptr_add_inj in E. lia.
Qed.

Lemma copy_vector_trace SrcT DstT src dst (s : state value) :
  stores (trace (copy_vector SrcT DstT src dst s))
  = stores (trace s) ++ map (fun i => data dst +p i) (zseq (data_size src))
  /\ mallocs (trace (copy_vector SrcT DstT src dst s)) = mallocs (trace s)
  /\ next_block (copy_vector SrcT DstT src dst s) = next_block s.
Proof.
  rewrite copy_vector_visits.
  destruct (assign_all_trace SrcT DstT (data src) (data dst)
              (map (fun i => (i, i)) (zseq (data_size src))) s)
    as (E1 & E2 & E3).
  rewrite E1, E2, E3, map_map. repeat split.
Qed.

(** C10. A Vector copy converts exactly [data_size(source)] elements, in
    order: the stores it adds are those of the destination elements
    0, 1, ..., data_size - 1 and no other cell changes; nothing of the
    destination but its data pointer enters the result; and destination
    element [i] then holds the cast of source element [i], the two ranges
    being the same or not overlapping ahead of the reads. *)
Theorem vector_copies_data_size (SrcT DstT : elem_t) (src dst : array)
    (s : state value) :
  stores (trace (copy_vector SrcT DstT src dst s))
  = stores (trace s) ++ map (fun i => data dst +p i) (zseq (data_size src))
  /\ (forall q, (forall i, 0 <= i < data_size src -> q <> data dst +p i) ->
        load (copy_vector SrcT DstT src dst s) q = load s q)
  /\ (forall dt sh sv ds fl dn,
        copy_vector SrcT DstT src (mkarray dt sh sv ds fl dn (data dst)) s
        = copy_vector SrcT DstT src dst s)
  /\ (blk (data src) <> blk (data dst) \/ ofs (data dst) <= ofs (data src) ->
      forall i, 0 <= i < data_size src ->
        load (copy_vector SrcT DstT src dst s) (data dst +p i)
        = static_cast SrcT DstT (load s (data src +p i))).
Proof.
  split; [|split; [|split]].
  - destruct (copy_vector_trace SrcT DstT src dst s) as (E & _). exact E.
  - intros q Hq. rewrite copy_vector_visits.
    apply assign_all_other. intros p Hp.
    apply in_map_iff in Hp. destruct Hp as (i & <- & Hi).
    apply in_zseq in Hi. cbn [snd]. now apply Hq.
  - intros. now rewrite !copy_vector_visits.
  - intros Hov i Hi. rewrite copy_vector_visits. unfold zseq.
    rewrite <- (Z2Nat.id i) by lia.
    apply diagonal_load; [assumption|lia].
Qed.


(** *** Allocation and donation *)

(** C7. Under the Vector strategy without donation the top-level copy
    requests exactly [data_size(source) * itemsize(destination)] bytes (the
    product being a [size_t]) and the destination takes the source's strides
    and flags; under the strategies Scalar, General and GeneralGeneral it
    requests exactly [nbytes(destination)] bytes.  In each case this is the
    only request of the call. *)
Theorem allocation_sizes (src dst : array) (s : state value) :
  (is_donatable src && (itemsize src =? itemsize dst) = false ->
   0 <= data_size src * itemsize dst < 2 ^ 64 ->
   exists dst' s',
     copy src dst Vector s = Some (dst', s')
     /\ mallocs (trace s')
        = mallocs (trace s) ++ [data_size src * itemsize dst]
     /\ strides dst' = strides src
     /\ flags dst' = flags src)
  /\ (forall ctype, ctype <> Vector ->
      exists dst' s',
        copy src dst ctype s = Some (dst', s')
        /\ mallocs (trace s') = mallocs (trace s) ++ [nbytes dst]).
Proof.
  split.
  - intros Hnd Hfit. unfold copy. rewrite Hnd. cbn [malloc_or_wait].
    unfold copy_inplace. rewrite dispatch_resolves. cbn [copy_SrcT_DstT].
    eexists. eexists. split; [reflexivity|].
    split; [|split; reflexivity].
    match goal with
    | |- mallocs (trace (copy_vector ?S ?D ?a ?b ?t)) = _ =>
        destruct (copy_vector_trace S D a b t) as (_ & E & _); rewrite E
    end.
    cbn [trace]. rewrite mallocs_cons_malloc. unfold wrap_u64.
    now rewrite Z.mod_small by assumption.
  - intros ctype Hc. unfold copy.
    assert (E : exists s',
               copy_inplace src (set_data dst (mkptr (next_block s) 0))
                 match ctype with GeneralGeneral => General | _ => ctype end
                 (snd (malloc_or_wait (nbytes dst) s)) = Some s'
               /\ mallocs (trace s') = mallocs (trace s) ++ [nbytes dst]).
    { unfold copy_inplace. rewrite dispatch_resolves.
      destruct ctype; [| contradiction | |]; cbn [copy_SrcT_DstT];
        eexists; (split; [reflexivity|]).
      - match goal with
        | |- mallocs (trace (copy_single ?S ?D ?a ?b ?t)) = _ =>
            destruct (copy_single_allocs S D a b t) as (E & _); rewrite E
        end.
        cbn [malloc_or_wait snd trace]. apply mallocs_cons_malloc.
      - unfold copy_general_inline.
        match goal with
        | |- mallocs (trace (copy_general ?S ?D ?st ?a ?b ?x ?y ?z ?t)) = _ =>
            destruct (copy_general_allocs S D st a b x y z t) as (E & _);
            rewrite E
        end.
        cbn [malloc_or_wait snd trace]. apply mallocs_cons_malloc.
      - unfold copy_general_inline.
        match goal with
        | |- mallocs (trace (copy_general ?S ?D ?st ?a ?b ?x ?y ?z ?t)) = _ =>
            destruct (copy_general_allocs S D st a b x y z t) as (E & _);
            rewrite E
        end.
        cbn [malloc_or_wait snd trace]. apply mallocs_cons_malloc. }
    destruct E as (s' & E1 & E2).
    destruct ctype; [| contradiction | |]; cbn [malloc_or_wait snd] in *;
      rewrite E1; eexists; eexists; (split; [reflexivity|exact E2]).
Qed.

(** C3 (as amended). When the source is donatable and the item sizes agree,
    the top-level Vector copy gives the destination the source's data
    pointer, strides and flags and requests no buffer; the flat element-wise
    cast then still runs, in place over the shared buffer: it stores
    elements 0, 1, ..., data_size(source) - 1. *)
Theorem donation_shares_buffer (src dst : array) (s : state value) :
  is_donatable src = true ->
  itemsize src = itemsize dst ->
  exists dst' s',
    copy src dst Vector s = Some (dst', s')
    /\ data dst' = data src
    /\ strides dst' = strides src
    /\ flags dst' = flags src
    /\ mallocs (trace s') = mallocs (trace s)
    /\ next_block s' = next_block s
    /\ stores (trace s')
       = stores (trace s) ++ map (fun i => data src +p i) (zseq (data_size src)).
Proof.
  intros Hd Hi. unfold copy. rewrite Hd, Hi, Z.eqb_refl. cbn [andb].
  unfold copy_inplace. rewrite dispatch_resolves. cbn [copy_SrcT_DstT].
  eexists. eexists. split; [reflexivity|].
  do 3 (split; [reflexivity|]).
  match goal with
  | |- context [copy_vector ?S ?D ?a ?b ?t] =>
      destruct (copy_vector_trace S D a b t) as (E1 & E2 & E3)
  end.
  rewrite E1, E2, E3. repeat split.
Qed.


(** *** Contiguous layouts *)

Lemma length_row_major (ds : list Z) : length (row_major ds) = length ds.
Proof. induction ds; simpl; auto. Qed.

Lemma elem_to_loc_row_major (ds : list Z) (j : Z) :
  Forall (fun d => 0 <= d) ds -> 0 <= j < prod ds ->
  elem_to_loc j ds (row_major ds) = j.
Proof.
  intros Hds Hj.
  pose proof (offs_row_major ds Hds) as E.
  rewrite offs_elem_to_loc in E by (auto using length_row_major).
  rewrite <- (map_id (zseq (prod ds))) in E at 2.
  apply (proj1 map_ext_in_iff E). now apply in_zseq.
Qed.



(** *** The strided in-place entry point *)

(** C9. For the strided in-place entry point: with strategy General the
    result does not depend on [o_strides] and [o_offset], and (for a
    well-formed view whose shape fits an [int] and whose offsets are values
    of [stride_t]) the stores of the call are those of the destination
    elements 0, 1, ..., size - 1 in order; with strategy Scalar or Vector
    the call is the unstrided [copy_inplace]. *)
Theorem strided_inplace_ignored_arguments (st : stride_t) (src dst : array)
    (data_shape i_strides o_strides : list Z) (i_offset o_offset : Z)
    (s : state value) :
  (forall o_strides' o_offset',
      copy_inplace_strided st src dst data_shape i_strides o_strides
                           i_offset o_offset General s
      = copy_inplace_strided st src dst data_shape i_strides o_strides'
                             i_offset o_offset' General s)
  /\ copy_inplace_strided st src dst data_shape i_strides o_strides
                          i_offset o_offset Scalar s
     = copy_inplace src dst Scalar s
  /\ copy_inplace_strided st src dst data_shape i_strides o_strides
                          i_offset o_offset Vector s
     = copy_inplace src dst Vector s
  /\ (length i_strides = length data_shape ->
      Forall (fun d => 0 <= d) data_shape ->
      fits_int data_shape ->
      size dst = prod data_shape ->
      offsets_fit st data_shape i_strides i_offset = true ->
      exists s',
        copy_inplace_strided st src dst data_shape i_strides o_strides
                             i_offset o_offset General s = Some s'
        /\ stores (trace s')
           = stores (trace s)
             ++ map (fun j => data dst +p j) (zseq (prod data_shape))).
Proof.
  split; [|split; [reflexivity|split; [reflexivity|]]].
  - intros o_strides' o_offset'. unfold copy_inplace_strided.
    rewrite !dispatch_resolves. reflexivity.
  - intros Hlen Hds Hint Hsz Hfit.
    unfold copy_inplace_strided. rewrite dispatch_resolves.
    cbn [copy_SrcT_DstT]. unfold copy_general_forward.
    eexists. split; [reflexivity|].
    rewrite copy_general_is_reference by assumption.
    rewrite copy_reference_visits.
    match goal with
    | |- context [assign_all ?S ?D ?p ?q ?l ?t] =>
        destruct (assign_all_trace S D p q l t) as (E & _)
    end.
    rewrite E, map_map. reflexivity.
Qed.


(** *** The dual-stride kernel on an empty shape *)

Lemma copy_reference_general_rank0 SrcT DstT src dst (io oo : Z)
    (s : state value) :
  copy_reference_general SrcT DstT src dst [] [] [] io oo s
  = assign SrcT DstT (data src +p io) (data dst +p oo) s.
Proof.
  unfold copy_reference_general, for_int, elem_to_loc. simpl.
  now rewrite !Z.add_0_r.
Qed.

(** C1 (the failing case). On a view of rank 0 the dual-stride path has no
    defined result: the collapsed shape is empty, no case of the switch is
    taken and the code goes on to [new_shape.end() - 5].  The single-stride
    path on the same view, and the brute-force reference, assign the one
    element. *)
Theorem general_general_rank0_undefined (SrcT DstT : elem_t) (st : stride_t)
    (src dst : array) (i_offset o_offset : Z) (s : state value) :
  copy_general_general SrcT DstT st src dst [] [] [] i_offset o_offset s = None
  /\ copy_inplace_strided st src dst [] [] [] i_offset o_offset
                          GeneralGeneral s = None
  /\ copy_reference_general SrcT DstT src dst [] [] [] i_offset o_offset s
     = assign SrcT DstT (data src +p i_offset) (data dst +p o_offset) s
  /\ (size dst = 1 ->
      copy_general SrcT DstT st src dst [] [] i_offset s
      = assign SrcT DstT (data src +p i_offset) (data dst) s).
Proof.
  split; [reflexivity|].
  split; [unfold copy_inplace_strided; now rewrite dispatch_resolves|].
  split; [apply copy_reference_general_rank0|].
  intros Hsz. unfold copy_general. cbn. rewrite Hsz.
  unfold for_int, elem_to_loc. simpl.
  destruct st; simpl;
    [change (wrap_u64 0) with 0 | change (wrap_s64 0) with 0];
    now rewrite !ptr_add_0.
Qed.


(** *** The dual-stride kernel against the brute-force reference *)

Lemma combine_map2 {A B C D : Type} (f : A -> C) (g : B -> D)
    (l1 : list A) (l2 : list B) :
  combine (map f l1) (map g l2)
  = map (fun p => (f (fst p), g (snd p))) (combine l1 l2).
Proof.
  revert l2. induction l1 as [|x l1 IH]; intros [|y l2]; simpl; auto.
  now rewrite IH.
Qed.

Lemma combine_append {A B : Type} (l1 l2 : list A) (m1 m2 : list B) :
  length l1 = length m1 ->
  combine (l1 ++ l2) (m1 ++ m2) = combine l1 m1 ++ combine l2 m2.
Proof.
  revert m1. induction l1 as [|x l1 IH]; intros [|y m1] H;
    try discriminate H; simpl; auto.
  injection H as H. now rewrite IH.
Qed.

Lemma combine_flat_map {A B C : Type} (f : A -> list B) (g : A -> list C)
    (l : list A) :
  (forall x, In x l -> length (f x) = length (g x)) ->
  combine (flat_map f l) (flat_map g l)
  = flat_map (fun x => combine (f x) (g x)) l.
Proof.
  induction l as [|x l IH]; intros H; simpl; auto.
  rewrite combine_append by (apply H; now left).
  rewrite IH; auto. intros. apply H. now right.
Qed.

Lemma pairs_combine (ds ss os : list Z) :
  length ss = length ds -> length os = length ds ->
  Forall (fun d => 0 <= d) ds ->
  pairs ds ss os = combine (offs ds ss) (offs ds os).
Proof.
  revert ss os. induction ds as [|d ds IH]; intros [|a ss] [|b os] H1 H2 Hds;
    try discriminate; auto.
  inversion Hds as [|? ? Hd Hds']; subst.
  injection H1 as H1. injection H2 as H2.
  cbn [pairs offs]. rewrite combine_flat_map.
  - apply flat_map_ext. intros i.
    rewrite combine_map2, (IH ss os) by auto. reflexivity.
  - intros i _. rewrite !length_map, !length_offs by auto. reflexivity.
Qed.

Lemma skipn_nth_cons (l : list Z) (k : nat) :
  (k < length l)%nat -> skipn k l = nth k l 0 :: skipn (S k) l.
Proof.
  revert k. induction l as [|x l IH]; intros k Hk; simpl in Hk; [lia|].
  destruct k as [|k]; [reflexivity|].
  cbn [skipn nth]. apply IH. lia.
Qed.

Lemma lastn_S (l : list Z) (n : nat) :
  (S n <= length l)%nat ->
  lastn (S n) l = vec_at l (length l - S n) :: lastn n l.
Proof.
  intros H. unfold lastn, vec_at.
  rewrite skipn_nth_cons by lia. do 2 f_equal. lia.
Qed.

Lemma lastn_0 (l : list Z) : lastn 0 l = [].
Proof. unfold lastn. rewrite Nat.sub_0_r. apply skipn_all. Qed.

Lemma lastn_all (l : list Z) : lastn (length l) l = l.
Proof. unfold lastn. now rewrite Nat.sub_diag. Qed.

Lemma repeat_n_steps_bounded {A B : Type} (f : A -> A) (inv : nat -> B -> A)
    (g : nat -> B -> B) (m : nat) :
  (forall i b, (i < m)%nat -> f (inv i b) = inv (S i) (g i b)) ->
  forall n i b,
    (i + n <= m)%nat ->
    repeat_n n f (inv i b)
    = inv (i + n)%nat (fold_left (fun b j => g j b) (seq i n) b).
Proof.
  intros Hstep. induction n; intros i b Hb; simpl.
  - now rewrite Nat.add_0_r.
  - rewrite Hstep by lia. rewrite IHn by lia. f_equal. lia.
Qed.

Lemma fold_shifted_chunks SrcT DstT sp dp (x y a b : Z) (L : list (Z * Z)) :
  forall n k (s : state value),
    fold_left
      (fun s j =>
         assign_all SrcT DstT sp dp
           (map (fun p => (x + Z.of_nat j * a + fst p,
                           y + Z.of_nat j * b + snd p)) L) s)
      (seq k n) s
    = assign_all SrcT DstT sp dp
        (map (fun p => (x + fst p, y + snd p))
           (flat_map (fun i => map (fun p => (i * a + fst p, i * b + snd p)) L)
                     (map Z.of_nat (seq k n)))) s.
Proof.
  induction n; intros k s; simpl; auto.
  rewrite map_app, assign_all_app, map_map, IHn. cbn [fst snd].
  do 2 f_equal. apply map_ext. intros p. f_equal; lia.
Qed.

Lemma flat_map_singleton {A B : Type} (f : A -> B) (l : list A) :
  flat_map (fun x => [f x]) l = map f l.
Proof. induction l as [|x l IH]; simpl; [reflexivity|now rewrite IH]. Qed.

Lemma gg_dims_unfold SrcT DstT st src dst (ds ss os : list Z) (D : nat)
    (io oo : Z) (s : state value) :
  copy_general_general_dims (S (S D)) SrcT DstT st src dst ds ss os io oo s
  = cur (for_int (vec_at ds (length ds - S (S D)))
           (fun _ c =>
              mkcur (wrap_s64 (src_idx c + vec_at ss (length ds - S (S D))))
                    (wrap_s64 (dst_idx c + vec_at os (length ds - S (S D))))
                    (copy_general_general_dims (S D) SrcT DstT st src dst
                       ds ss os (src_idx c) (dst_idx c) (cur c)))
           (mkcur io oo s)).
Proof. reflexivity. Qed.

(** The recursion over the last [D] dimensions visits their offset pairs
    in row-major order, from the offsets it is called with. *)
Lemma gg_dims_spec SrcT DstT st src dst (ds ss os : list Z) :
  length ss = length ds -> length os = length ds ->
  forall D x y (s : state value),
    (1 <= D <= length ds)%nat ->
    (forall p, In p (pairs (lastn D ds) (lastn D ss) (lastn D os)) ->
       in_range stride_int64_t (x + fst p)
       /\ in_range stride_int64_t (y + snd p)) ->
    copy_general_general_dims D SrcT DstT st src dst ds ss os
      (wrap_s64 x) (wrap_s64 y) s
    = assign_all SrcT DstT (data src) (data dst)
        (map (fun p => (x + fst p, y + snd p))
             (pairs (lastn D ds) (lastn D ss) (lastn D os))) s.
Proof.
  intros H1 H2. induction D as [|D IH]; intros x y s HD Hr; [lia|].
  assert (Ls : (S D <= length ss)%nat) by lia.
  assert (Lo : (S D <= length os)%nat) by lia.
  rewrite (lastn_S ds), (lastn_S ss), (lastn_S os) in * by lia.
  rewrite H1, H2 in *.
  set (N := vec_at ds (length ds - S D)) in *.
  set (a := vec_at ss (length ds - S D)) in *.
  set (b := vec_at os (length ds - S D)) in *.
  destruct D as [|D'].
  - (* the innermost loop, over two running pointers *)
    rewrite !lastn_0 in *. cbn [pairs] in *.
    cbn [copy_general_general_dims]. fold N a b.
    rewrite for_int_const.
    destruct (Z.to_nat N) as [|n] eqn:En.
    { unfold zseq. rewrite En. reflexivity. }
    assert (W : wrap_s64 x = x /\ wrap_s64 y = y).
    { destruct (Hr (0 * a + 0, 0 * b + 0)) as [R1 R2].
      - apply in_flat_map. exists 0. split; [apply in_zseq; lia|now left].
      - cbn [fst snd] in R1, R2.
        split; apply (wrap_in_range stride_int64_t).
        + now replace x with (x + (0 * a + 0)) by lia.
        + now replace y with (y + (0 * b + 0)) by lia. }
    destruct W as [-> ->]. rewrite <- En. clear n En.
    assert (R := repeat_n_steps
               (fun c => {| src_idx := src_idx c + a;
                            dst_idx := dst_idx c + b;
                            cur := assign SrcT DstT (data src +p src_idx c)
                                     (data dst +p dst_idx c) (cur c) |})
               (fun i s => mkcur (x + Z.of_nat i * a) (y + Z.of_nat i * b) s)
               (fun i s => assign SrcT DstT
                             (data src +p (x + Z.of_nat i * a))
                             (data dst +p (y + Z.of_nat i * b)) s)
               ltac:(intros i t; cbn [src_idx dst_idx cur]; f_equal; lia)
               (Z.to_nat N) 0%nat s).
    cbv beta in R.
    replace (x + Z.of_nat 0 * a) with x in R by lia.
    replace (y + Z.of_nat 0 * b) with y in R by lia.
    rewrite R. clear R. cbn [cur map fst snd].
    rewrite flat_map_singleton. unfold assign_all, zseq.
    rewrite !fold_left_map. apply fold_left_ext_in. intros t j _.
    cbn [fst snd]. f_equal; f_equal; lia.
  - (* a loop around the recursion over one dimension less *)
    rewrite gg_dims_unfold. fold N a b. cbn [pairs].
    set (L := pairs (lastn (S D') ds) (lastn (S D') ss) (lastn (S D') os)) in *.
    rewrite for_int_const.
    assert (R := repeat_n_steps_bounded
               (fun c => mkcur (wrap_s64 (src_idx c + a))
                               (wrap_s64 (dst_idx c + b))
                               (copy_general_general_dims (S D') SrcT DstT st
                                  src dst ds ss os
                                  (src_idx c) (dst_idx c) (cur c)))
               (fun i s => mkcur (wrap_s64 (x + Z.of_nat i * a))
                                 (wrap_s64 (y + Z.of_nat i * b)) s)
               (fun i s => assign_all SrcT DstT (data src) (data dst)
                             (map (fun p => (x + Z.of_nat i * a + fst p,
                                             y + Z.of_nat i * b + snd p)) L) s)
               (Z.to_nat N)).
    cbv beta in R. cbn [src_idx dst_idx cur] in R.
    replace (wrap_s64 x) with (wrap_s64 (x + Z.of_nat 0 * a))
      by (f_equal; lia).
    replace (wrap_s64 y) with (wrap_s64 (y + Z.of_nat 0 * b))
      by (f_equal; lia).
    rewrite R; [| |lia]; clear R.
    + cbn [cur]. apply fold_shifted_chunks.
    + intros i t Hi.
      rewrite IH.
      * rewrite !wrap_s64_add_l. f_equal; f_equal; lia.
      * lia.
      * intros p Hp.
        destruct (Hr (Z.of_nat i * a + fst p, Z.of_nat i * b + snd p))
          as [R1 R2].
        -- apply in_flat_map. exists (Z.of_nat i).
           split; [apply in_zseq; lia|].
           apply in_map_iff. exists p. split; [reflexivity|exact Hp].
        -- cbn [fst snd] in R1, R2. now rewrite !Z.add_assoc in R1, R2.
Qed.

Lemma prod_app (a b : list Z) : prod (a ++ b) = prod a * prod b.
Proof.
  induction a as [|x a IH].
  - change (prod []) with 1. cbn [app]. lia.
  - cbn [app]. change (prod (x :: a ++ b)) with (x * prod (a ++ b)).
    change (prod (x :: a)) with (x * prod a). rewrite IH. ring.
Qed.

Lemma elem_to_loc_rec_0 (ds ss : list Z) : elem_to_loc_rec 0 ds ss = (0, 0).
Proof.
  revert ss. induction ds as [|d ds IH]; intros [|s ss]; simpl; auto.
  rewrite IH. now rewrite Zmod_0_l, Zdiv_0_l.
Qed.

Lemma elem_to_loc_rec_app (o i so si : list Z) (e : Z) :
  length so = length o ->
  elem_to_loc_rec e (o ++ i) (so ++ si)
  = (fst (elem_to_loc_rec e i si)
     + fst (elem_to_loc_rec (snd (elem_to_loc_rec e i si)) o so),
     snd (elem_to_loc_rec (snd (elem_to_loc_rec e i si)) o so)).
Proof.
  revert so. induction o as [|d o IH]; intros [|s so] H; try discriminate H.
  - simpl. destruct (elem_to_loc_rec e i si) as [l r]. simpl. f_equal. lia.
  - injection H as H. cbn [app elem_to_loc_rec]. rewrite (IH so H).
    destruct (elem_to_loc_rec (snd (elem_to_loc_rec e i si)) o so) as [l r].
    cbn [fst snd]. f_equal. lia.
Qed.

(** The offset of the first element of chunk [c] of the innermost
    dimensions [i] is the offset of index [c] in the outer dimensions. *)
Lemma elem_to_loc_chunk (o i so si : list Z) (c : Z) :
  length so = length o -> length si = length i ->
  Forall (fun d => 0 <= d) i -> 0 < prod i -> 0 <= c ->
  elem_to_loc (c * prod i) (o ++ i) (so ++ si) = elem_to_loc c o so.
Proof.
  intros H1 H2 Hi Hp Hc. unfold elem_to_loc at 1.
  rewrite elem_to_loc_rec_app by assumption.
  replace (c * prod i) with (c * prod i + 0) by lia.
  rewrite elem_to_loc_rec_split by (auto; lia).
  cbn [fst snd]. unfold elem_to_loc at 1. rewrite elem_to_loc_rec_0.
  reflexivity.
Qed.

Lemma pairs_app (o i so si to ti : list Z) :
  length so = length o -> length to = length o ->
  pairs (o ++ i) (so ++ si) (to ++ ti)
  = flat_map (fun q => map (fun p => (fst q + fst p, snd q + snd p))
                           (pairs i si ti))
             (pairs o so to).
Proof.
  revert so to. induction o as [|d o IH]; intros [|a so] [|b to] H1 H2;
    try discriminate.
  - simpl. rewrite app_nil_r. rewrite <- (map_id (pairs i si ti)) at 1.
    apply map_ext. intros [u v]. reflexivity.
  - injection H1 as H1. injection H2 as H2.
    cbn [app pairs]. rewrite (IH so to H1 H2), flat_map_flat_map.
    apply flat_map_ext. intros k.
    rewrite map_flat_map_comm, flat_map_map.
    apply flat_map_ext. intros q. rewrite map_map.
    apply map_ext. intros p. cbn [fst snd]. f_equal; lia.
Qed.

Lemma for_step_chunks (step : Z) (body : Z -> state value -> state value) :
  0 < step ->
  forall q k fuel (s : state value),
    (q <= fuel)%nat ->
    for_step fuel (Z.of_nat k * step) (Z.of_nat (k + q) * step) step body s
    = Some (fold_left (fun s c => body (Z.of_nat c * step) s) (seq k q) s).
Proof.
  intros Hstep. induction q as [|q IH]; intros k fuel s Hf.
  - rewrite Nat.add_0_r. destruct fuel; simpl; now rewrite Z.ltb_irrefl.
  - destruct fuel as [|fuel]; [lia|]. cbn [for_step seq fold_left].
    replace (Z.of_nat k * step <? Z.of_nat (k + S q) * step) with true
      by (symmetry; apply Z.ltb_lt; nia).
    replace (Z.of_nat k * step + step) with (Z.of_nat (S k) * step) by lia.
    replace (k + S q)%nat with (S k + q)%nat by lia.
    apply IH. lia.
Qed.

Lemma fold_shifted_by SrcT DstT sp dp (x y : Z) (h : Z -> Z * Z)
    (L : list (Z * Z)) (l : list Z) (s : state value) :
  fold_left
    (fun s c =>
       assign_all SrcT DstT sp dp
         (map (fun p => (x + fst (h c) + fst p, y + snd (h c) + snd p)) L) s)
    l s
  = assign_all SrcT DstT sp dp
      (map (fun p => (x + fst p, y + snd p))
         (flat_map (fun q => map (fun p => (fst q + fst p, snd q + snd p)) L)
                   (map h l))) s.
Proof.
  revert s. induction l as [|c l IH]; intros s; simpl; auto.
  rewrite map_app, assign_all_app, map_map, IH. cbn [fst snd].
  do 2 f_equal. apply map_ext. intros p. f_equal; lia.
Qed.

Lemma combine_diag {A : Type} (l : list A) :
  combine l l = map (fun x => (x, x)) l.
Proof. induction l as [|x l IH]; simpl; [reflexivity|now rewrite IH]. Qed.

Lemma pairs_elem_to_loc (ds ss os : list Z) :
  length ss = length ds -> length os = length ds ->
  Forall (fun d => 0 <= d) ds ->
  pairs ds ss os
  = map (fun j => (elem_to_loc j ds ss, elem_to_loc j ds os)) (zseq (prod ds)).
Proof.
  intros H1 H2 Hds.
  rewrite pairs_combine, !offs_elem_to_loc by auto.
  now rewrite combine_map2, combine_diag, map_map.
Qed.

Lemma copy_reference_general_visits SrcT DstT src dst ds ss os io oo
    (s : state value) :
  length ss = length ds -> length os = length ds ->
  Forall (fun d => 0 <= d) ds ->
  copy_reference_general SrcT DstT src dst ds ss os io oo s
  = assign_all SrcT DstT (data src) (data dst)
      (map (fun p => (io + fst p, oo + snd p)) (pairs ds ss os)) s.
Proof.
  intros H1 H2 Hds. rewrite pairs_elem_to_loc by auto.
  unfold copy_reference_general, assign_all.
  now rewrite for_int_fold, map_map, fold_left_map.
Qed.

Lemma pairs_fit (ds ss os : list Z) (io oo : Z) :
  length ss = length ds -> length os = length ds ->
  Forall (fun d => 0 <= d) ds ->
  offsets_fit stride_int64_t ds ss io = true ->
  offsets_fit stride_int64_t ds os oo = true ->
  forall p, In p (pairs ds ss os) ->
    in_range stride_int64_t (io + fst p)
    /\ in_range stride_int64_t (oo + snd p).
Proof.
  intros H1 H2 Hds F1 F2 p Hp.
  rewrite pairs_elem_to_loc in Hp by auto.
  apply in_map_iff in Hp. destruct Hp as (j & <- & Hj).
  unfold offsets_fit in F1, F2.
  apply andb_prop in F1, F2. destruct F1 as [_ F1], F2 as [_ F2].
  rewrite forallb_forall in F1, F2.
  specialize (F1 j Hj). specialize (F2 j Hj).
  apply andb_prop in F1, F2. destruct F1 as [_ F1], F2 as [_ F2].
  cbn [fst snd]. split; now apply in_rangeb_spec.
Qed.

Lemma collapse_pairs (ds ss os ns : list Z) (nss : list (list Z)) :
  length ss = length ds -> length os = length ds ->
  Forall (fun d => 0 <= d) ds ->
  collapse_contiguous_dims ds [ss; os] = (ns, nss) ->
  pairs ns (nth 0 nss []) (nth 1 nss []) = pairs ds ss os
  /\ length (nth 0 nss []) = length ns
  /\ length (nth 1 nss []) = length ns
  /\ Forall (fun d => 0 <= d) ns
  /\ prod ns = prod ds
  /\ (ds <> [] -> ns <> []).
Proof.
  intros H1 H2 Hds Hc.
  assert (Hsvs : Forall (fun st => length st = length ds) [ss; os])
    by (repeat constructor; auto).
  destruct (collapse_spec _ _ _ _ Hds Hsvs Hc) as (_ & Nn & Pn & NE & _ & Kn).
  destruct (Kn 0%nat ltac:(simpl; lia)) as (L0 & O0 & _).
  destruct (Kn 1%nat ltac:(simpl; lia)) as (L1 & O1 & _).
  cbn [nth] in O0, O1.
  repeat split; auto.
  rewrite !pairs_combine by auto. now rewrite O0, O1.
Qed.

Lemma lastn_full (l : list Z) (n : nat) : length l = n -> lastn n l = l.
Proof. intros <-. apply lastn_all. Qed.

Lemma gg_dims_full SrcT DstT st src dst (ns n0 n1 : list Z) (K : nat)
    (io oo : Z) (s : state value) :
  length ns = K -> (1 <= K)%nat ->
  length n0 = length ns -> length n1 = length ns ->
  in_range stride_int64_t io -> in_range stride_int64_t oo ->
  (forall p, In p (pairs ns n0 n1) ->
     in_range stride_int64_t (io + fst p)
     /\ in_range stride_int64_t (oo + snd p)) ->
  copy_general_general_dims K SrcT DstT st src dst ns n0 n1 io oo s
  = assign_all SrcT DstT (data src) (data dst)
      (map (fun p => (io + fst p, oo + snd p)) (pairs ns n0 n1)) s.
Proof.
  intros HK H1 L0 L1 Hio Hoo Hr.
  pose proof (gg_dims_spec SrcT DstT st src dst ns n0 n1 L0 L1 K io oo s
                ltac:(lia)) as G.
  rewrite (lastn_full ns), (lastn_full n0), (lastn_full n1) in G by congruence.
  change (wrap_s64 io) with (wrap stride_int64_t io) in G.
  change (wrap_s64 oo) with (wrap stride_int64_t oo) in G.
  rewrite (wrap_in_range stride_int64_t io Hio) in G.
  rewrite (wrap_in_range stride_int64_t oo Hoo) in G.
  now apply G.
Qed.

(** The dual-stride path on a view of rank at least 1 does what the
    brute-force reference does. *)
Lemma copy_general_general_is_reference SrcT DstT st src dst
    (ds ss os : list Z) (io oo : Z) (s : state value) :
  ds <> [] ->
  length ss = length ds -> length os = length ds ->
  Forall (fun d => 0 <= d) ds ->
  size src = prod ds ->
  in_range stride_int64_t io -> in_range stride_int64_t oo ->
  offsets_fit stride_int64_t ds ss io = true ->
  offsets_fit stride_int64_t ds os oo = true ->
  copy_general_general SrcT DstT st src dst ds ss os io oo s
  = Some (copy_reference_general SrcT DstT src dst ds ss os io oo s).
Proof.
  intros Hne H1 H2 Hds Hsz Hio Hoo F1 F2.
  rewrite copy_reference_general_visits by assumption.
  pose proof (pairs_fit ds ss os io oo H1 H2 Hds F1 F2) as Hr.
  unfold copy_general_general.
  destruct (collapse_contiguous_dims ds [ss; os]) as [ns nss] eqn:Hc.
  destruct (collapse_pairs ds ss os ns nss H1 H2 Hds Hc)
    as (EP & L0 & L1 & Nn & Pn & NE).
  specialize (NE Hne).
  rewrite <- EP in Hr |- *.
  set (n0 := nth 0 nss []) in *. set (n1 := nth 1 nss []) in *.
  destruct (length ns) as [|[|[|[|[|[|n]]]]]] eqn:Ln.
  - destruct ns; [contradiction|discriminate Ln].
  - f_equal. apply gg_dims_full; auto; lia.
  - f_equal. apply gg_dims_full; auto; lia.
  - f_equal. apply gg_dims_full; auto; lia.
  - f_equal. apply gg_dims_full; auto; lia.
  - f_equal. apply gg_dims_full; auto; lia.
  - (* more than five dimensions: a loop over the chunks of the last five *)
    cbn [Nat.ltb Nat.leb]. cbv zeta.
    set (k := (length ns - 5)%nat).
    assert (Ens : ns = firstn k ns ++ lastn 5 ns)
      by (unfold lastn; fold k; now rewrite firstn_skipn).
    assert (En0 : n0 = firstn k n0 ++ lastn 5 n0).
    { unfold lastn. rewrite L0, <- Ln. fold k. now rewrite firstn_skipn. }
    assert (En1 : n1 = firstn k n1 ++ lastn 5 n1).
    { unfold lastn. rewrite L1, <- Ln. fold k. now rewrite firstn_skipn. }
    set (outer := firstn k ns) in *. set (inner := lastn 5 ns) in *.
    set (o0 := firstn k n0) in *. set (i0 := lastn 5 n0) in *.
    set (o1 := firstn k n1) in *. set (i1 := lastn 5 n1) in *.
    assert (Lo : length outer = k) by (apply firstn_length_le; lia).
    assert (Lo0 : length o0 = length outer)
      by (rewrite Lo; apply firstn_length_le; lia).
    assert (Lo1 : length o1 = length outer)
      by (rewrite Lo; apply firstn_length_le; lia).
    assert (Li : length inner = 5%nat)
      by (unfold inner, lastn; rewrite length_skipn; lia).
    assert (Li0 : length i0 = length inner)
      by (rewrite Li; unfold i0, lastn; rewrite length_skipn; lia).
    assert (Li1 : length i1 = length inner)
      by (rewrite Li; unfold i1, lastn; rewrite length_skipn; lia).
    assert (Hns : Forall (fun d => 0 <= d) outer /\ Forall (fun d => 0 <= d) inner).
    { rewrite Ens in Nn. now apply Forall_app in Nn. }
    destruct Hns as [No Ni].
    pose proof (prod_nonneg outer No) as HQ.
    pose proof (prod_nonneg inner Ni) as HZ.
    assert (EP' : prod ns = prod outer * prod inner)
      by (rewrite Ens at 1; apply prod_app).
    assert (Epairs : pairs ns n0 n1
                     = flat_map (fun q => map (fun p => (fst q + fst p,
                                                         snd q + snd p))
                                              (pairs inner i0 i1))
                         (map (fun c => (elem_to_loc c outer o0,
                                         elem_to_loc c outer o1))
                              (zseq (prod outer)))).
    { rewrite Ens at 1. rewrite En0 at 1. rewrite En1 at 1.
      rewrite pairs_app by assumption.
      now rewrite (pairs_elem_to_loc outer) by assumption. }
    rewrite Hsz, <- Pn, EP'.
    destruct (Z.eq_dec (prod inner) 0) as [Z0|Z0].
    + rewrite Z0, Z.mul_0_r. cbn [Z.to_nat for_step Z.ltb Z.compare].
      f_equal. rewrite (pairs_elem_to_loc ns) by (try assumption; congruence).
      rewrite EP', Z0, Z.mul_0_r. reflexivity.
    + assert (HZ5 : 0 < prod inner) by lia.
      pose proof (for_step_chunks (prod inner)
                    (fun i s0 =>
                       copy_general_general_dims 5 SrcT DstT st src dst ns n0 n1
                         (wrap_s64 (wrap st (io + elem_to_loc i ns n0)))
                         (wrap_s64 (wrap st (oo + elem_to_loc i ns n1))) s0)
                    HZ5 (Z.to_nat (prod outer)) 0
                    (Z.to_nat (prod outer * prod inner)) s
                    ltac:(nia)) as R.
      cbn [Nat.add Z.of_nat Z.mul] in R.
      rewrite Z2Nat.id in R by assumption.
      rewrite R. clear R. f_equal.
      rewrite Epairs, <- fold_shifted_by.
      unfold zseq. rewrite fold_left_map.
      apply fold_left_ext_in. intros t c Hc'. apply in_seq in Hc'.
      rewrite !wrap_s64_wrap.
      assert (E0 : elem_to_loc (Z.of_nat c * prod inner) ns n0
                   = elem_to_loc (Z.of_nat c) outer o0).
      { rewrite Ens at 1. rewrite En0 at 1.
        apply elem_to_loc_chunk; auto; lia. }
      assert (E1 : elem_to_loc (Z.of_nat c * prod inner) ns n1
                   = elem_to_loc (Z.of_nat c) outer o1).
      { rewrite Ens at 1. rewrite En1 at 1.
        apply elem_to_loc_chunk; auto; lia. }
      rewrite E0, E1. cbn [fst snd].
      apply gg_dims_spec; [congruence|congruence|lia|].
      intros p Hp. fold inner i0 i1 in Hp.
      destruct (Hr (elem_to_loc (Z.of_nat c) outer o0 + fst p,
                    elem_to_loc (Z.of_nat c) outer o1 + snd p)) as [R1 R2].
      * rewrite Epairs. apply in_flat_map.
        exists (elem_to_loc (Z.of_nat c) outer o0,
                elem_to_loc (Z.of_nat c) outer o1).
        split.
        -- apply in_map_iff. exists (Z.of_nat c).
           split; [reflexivity|]. apply in_zseq. lia.
        -- apply in_map_iff. exists p. split; [reflexivity|exact Hp].
      * cbn [fst snd] in R1, R2. now rewrite !Z.add_assoc in R1, R2.
Qed.

(** *** The dispatch *)


(** X1. The single-stride path, for a view of any rank whose shape fits
    an [int] and whose offsets are values of [stride_t]: whichever rank
    kernel the collapsed shape selects, or the fallback beyond rank 7, the
    result is that of the brute-force reference, which takes the source
    offset of every destination element from the index utility with the
    shape and strides as passed. *)
Theorem single_stride_equals_reference (SrcT DstT : elem_t) (st : stride_t)
    (src dst : array) (data_shape i_strides : list Z) (i_offset : Z)
    (s : state value) :
  length i_strides = length data_shape ->
  Forall (fun d => 0 <= d) data_shape ->
  fits_int data_shape ->
  size dst = prod data_shape ->
  offsets_fit st data_shape i_strides i_offset = true ->
  copy_general SrcT DstT st src dst data_shape i_strides i_offset s
  = copy_reference SrcT DstT src dst data_shape i_strides i_offset s.
Proof.
  intros Hlen Hds Hint Hsz Hfit. now apply copy_general_is_reference.
Qed.

(** X2. The dual-stride path, for a view with a dimension other than 1
    whose shape fits an [int] and whose offsets on both sides are [int64_t]
    values: the recursive kernel over up to five collapsed dimensions, or
    the chunk loop around it beyond five, returns and gives the result of
    the brute-force reference with a strided destination. *)
Theorem dual_stride_equals_reference (SrcT DstT : elem_t) (st : stride_t)
    (src dst : array) (data_shape i_strides o_strides : list Z)
    (i_offset o_offset : Z) (s : state value) :
  (exists d, In d data_shape /\ d <> 1) ->
  length i_strides = length data_shape ->
  length o_strides = length data_shape ->
  Forall (fun d => 0 <= d) data_shape ->
  fits_int data_shape ->
  size src = prod data_shape ->
  in_range stride_int64_t i_offset -> in_range stride_int64_t o_offset ->
  offsets_fit stride_int64_t data_shape i_strides i_offset = true ->
  offsets_fit stride_int64_t data_shape o_strides o_offset = true ->
  copy_general_general SrcT DstT st src dst data_shape i_strides o_strides
                       i_offset o_offset s
  = Some (copy_reference_general SrcT DstT src dst data_shape i_strides
            o_strides i_offset o_offset s).
Proof.
  intros Hd H1 H2 Hds Hint Hsz Hio Hoo F1 F2.
  apply has_dim_nonempty in Hd.
  now apply copy_general_general_is_reference.
Qed.

(** *** What every kernel keeps *)

(** Every kernel only stores casts into elements of the destination: a
    property of the state that such a store keeps holds after the call. *)
Lemma put_preserves (P : state value -> Prop) SrcT DstT st sp dp
    (c : cursor value) :
  (forall k v a, P a -> P (store (dp +p k) (static_cast SrcT DstT v) a)) ->
  P (cur c) -> P (cur (put SrcT DstT st sp dp c)).
Proof. intros H Hc. unfold put, assign. cbn [cur]. now apply H. Qed.

Lemma skip_preserves (P : state value -> Prop) st k (c : cursor value) :
  P (cur c) -> P (cur (skip st k c)).
Proof. auto. Qed.

Lemma assign_all_preserves (P : state value -> Prop) SrcT DstT sp dp
    (l : list (Z * Z)) (s : state value) :
  (forall k v a, P a -> P (store (dp +p k) (static_cast SrcT DstT v) a)) ->
  P s -> P (assign_all SrcT DstT sp dp l s).
Proof.
  intros H. revert s. induction l as [|p l IH]; intros s Hs; [exact Hs|].
  unfold assign_all in *. cbn [fold_left]. apply IH.
  unfold assign. now apply H.
Qed.

Lemma copy_single_preserves (P : state value -> Prop) SrcT DstT src dst
    (s : state value) :
  (forall k v a, P a ->
     P (store (data dst +p k) (static_cast SrcT DstT v) a)) ->
  P s -> P (copy_single SrcT DstT src dst s).
Proof.
  intros H Hs. unfold copy_single. cbv zeta.
  apply for_int_preserves; [|exact Hs].
  intros i a Ha. now apply H.
Qed.

Lemma copy_vector_preserves (P : state value -> Prop) SrcT DstT src dst
    (s : state value) :
  (forall k v a, P a ->
     P (store (data dst +p k) (static_cast SrcT DstT v) a)) ->
  P s -> P (copy_vector SrcT DstT src dst s).
Proof.
  intros H Hs. rewrite copy_vector_visits. now apply assign_all_preserves.
Qed.

Lemma copy_general_dim1_preserves (P : state value -> Prop) SrcT DstT st
    src dst ds ss off (s : state value) :
  (forall k v a, P a ->
     P (store (data dst +p k) (static_cast SrcT DstT v) a)) ->
  P s -> P (copy_general_dim1 SrcT DstT st src dst ds ss off s).
Proof.
  intros H Hs. unfold copy_general_dim1. cbv zeta.
  apply (for_int_preserves (fun c => P (cur c))); [|exact Hs].
  intros ? ? ?. cbv beta in *.
  repeat first
    [ assumption
    | apply skip_preserves
    | apply put_preserves; [exact H|]
    | apply (for_int_preserves (fun c => P (cur c))); [intros ? ? ?|] ].
Qed.

Lemma copy_general_dim2_preserves (P : state value -> Prop) SrcT DstT st
    src dst ds ss off (s : state value) :
  (forall k v a, P a ->
     P (store (data dst +p k) (static_cast SrcT DstT v) a)) ->
  P s -> P (copy_general_dim2 SrcT DstT st src dst ds ss off s).
Proof.
  intros H Hs. unfold copy_general_dim2. cbv zeta.
  apply (for_int_preserves (fun c => P (cur c))); [|exact Hs].
  intros ? ? ?. cbv beta in *.
  repeat first
    [ assumption
    | apply skip_preserves
    | apply put_preserves; [exact H|]
    | apply (for_int_preserves (fun c => P (cur c))); [intros ? ? ?|] ].
Qed.

Lemma copy_general_dim3_preserves (P : state value -> Prop) SrcT DstT st
    src dst ds ss off (s : state value) :
  (forall k v a, P a ->
     P (store (data dst +p k) (static_cast SrcT DstT v) a)) ->
  P s -> P (copy_general_dim3 SrcT DstT st src dst ds ss off s).
Proof.
  intros H Hs. unfold copy_general_dim3. cbv zeta.
  apply (for_int_preserves (fun c => P (cur c))); [|exact Hs].
  intros ? ? ?. cbv beta in *.
  repeat first
    [ assumption
    | apply skip_preserves
    | apply put_preserves; [exact H|]
    | apply (for_int_preserves (fun c => P (cur c))); [intros ? ? ?|] ].
Qed.

Lemma copy_general_dim4_preserves (P : state value -> Prop) SrcT DstT st
    src dst ds ss off (s : state value) :
  (forall k v a, P a ->
     P (store (data dst +p k) (static_cast SrcT DstT v) a)) ->
  P s -> P (copy_general_dim4 SrcT DstT st src dst ds ss off s).
Proof.
  intros H Hs. unfold copy_general_dim4. cbv zeta.
  apply (for_int_preserves (fun c => P (cur c))); [|exact Hs].
  intros ? ? ?. cbv beta in *.
  repeat first
    [ assumption
    | apply skip_preserves
    | apply put_preserves; [exact H|]
    | apply (for_int_preserves (fun c => P (cur c))); [intros ? ? ?|] ].
Qed.

Lemma copy_general_dim5_preserves (P : state value -> Prop) SrcT DstT st
    src dst ds ss off (s : state value) :
  (forall k v a, P a ->
     P (store (data dst +p k) (static_cast SrcT DstT v) a)) ->
  P s -> P (copy_general_dim5 SrcT DstT st src dst ds ss off s).
Proof.
  intros H Hs. unfold copy_general_dim5. cbv zeta.
  apply (for_int_preserves (fun c => P (cur c))); [|exact Hs].
  intros ? ? ?. cbv beta in *.
  repeat first
    [ assumption
    | apply skip_preserves
    | apply put_preserves; [exact H|]
    | apply (for_int_preserves (fun c => P (cur c))); [intros ? ? ?|] ].
Qed.

Lemma copy_general_dim6_preserves (P : state value -> Prop) SrcT DstT st
    src dst ds ss off (s : state value) :
  (forall k v a, P a ->
     P (store (data dst +p k) (static_cast SrcT DstT v) a)) ->
  P s -> P (copy_general_dim6 SrcT DstT st src dst ds ss off s).
Proof.
  intros H Hs. unfold copy_general_dim6. cbv zeta.
  apply (for_int_preserves (fun c => P (cur c))); [|exact Hs].
  intros ? ? ?. cbv beta in *.
  repeat first
    [ assumption
    | apply skip_preserves
    | apply put_preserves; [exact H|]
    | apply (for_int_preserves (fun c => P (cur c))); [intros ? ? ?|] ].
Qed.

Lemma copy_general_dim7_preserves (P : state value -> Prop) SrcT DstT st
    src dst ds ss off (s : state value) :
  (forall k v a, P a ->
     P (store (data dst +p k) (static_cast SrcT DstT v) a)) ->
  P s -> P (copy_general_dim7 SrcT DstT st src dst ds ss off s).
Proof.
  intros H Hs. unfold copy_general_dim7. cbv zeta.
  apply (for_int_preserves (fun c => P (cur c))); [|exact Hs].
  intros ? ? ?. cbv beta in *.
  repeat first
    [ assumption
    | apply skip_preserves
    | apply put_preserves; [exact H|]
    | apply (for_int_preserves (fun c => P (cur c))); [intros ? ? ?|] ].
Qed.

Lemma copy_general_preserves (P : state value -> Prop) SrcT DstT st src dst
    ds ss off (s : state value) :
  (forall k v a, P a ->
     P (store (data dst +p k) (static_cast SrcT DstT v) a)) ->
  P s -> P (copy_general SrcT DstT st src dst ds ss off s).
Proof.
  intros H Hs. unfold copy_general.
  destruct (collapse_contiguous_dims ds [ss]) as [ns nss].
  assert (F : forall n,
             P (for_int n (fun i s0 =>
                  let src_elem := wrap st (elem_to_loc i ns (nth 0 nss [])) in
                  assign SrcT DstT (data src +p off +p src_elem)
                         (data dst +p i) s0) s)).
  { intros n. apply for_int_preserves; [|exact Hs].
    intros i a Ha. cbv zeta. unfold assign. now apply H. }
  destruct (length ns) as [|[|[|[|[|[|[|[|n]]]]]]]].
  - apply F.
  - now apply copy_general_dim1_preserves.
  - now apply copy_general_dim2_preserves.
  - now apply copy_general_dim3_preserves.
  - now apply copy_general_dim4_preserves.
  - now apply copy_general_dim5_preserves.
  - now apply copy_general_dim6_preserves.
  - now apply copy_general_dim7_preserves.
  - apply F.
Qed.

Lemma gg_dims_preserves (P : state value -> Prop) SrcT DstT st src dst
    (ds ss os : list Z) :
  (forall k v a, P a ->
     P (store (data dst +p k) (static_cast SrcT DstT v) a)) ->
  forall D io oo (s : state value),
    P s ->
    P (copy_general_general_dims D SrcT DstT st src dst ds ss os io oo s).
Proof.
  intros H.
  assert (B : forall D io oo (s : state value),
             (D <= 1)%nat -> P s ->
             P (copy_general_general_dims D SrcT DstT st src dst ds ss os
                  io oo s)).
  { intros D io oo s HD Hs.
    assert (E : copy_general_general_dims D SrcT DstT st src dst ds ss os
                  io oo s
                = copy_general_general_dims 1 SrcT DstT st src dst ds ss os
                    io oo s)
      by (destruct D as [|[|D]]; [reflexivity|reflexivity|lia]).
    rewrite E. cbn [copy_general_general_dims].
    apply (for_int_preserves (fun c => P (cur c))); [|exact Hs].
    intros i c Hc. cbn [cur]. unfold assign. now apply H. }
  induction D as [|D IH]; intros io oo s Hs; [apply B; auto|].
  destruct D as [|D]; [apply B; auto|].
  rewrite gg_dims_unfold.
  apply (for_int_preserves (fun c => P (cur c))); [|exact Hs].
  intros i c Hc. cbn [cur]. now apply IH.
Qed.

Lemma for_step_preserves (P : state value -> Prop)
    (body : Z -> state value -> state value) (n step : Z) :
  (forall i a, P a -> P (body i a)) ->
  forall fuel i s s',
    P s -> for_step fuel i n step body s = Some s' -> P s'.
Proof.
  intros H. induction fuel as [|fuel IH]; intros i s s' Hs E; simpl in E;
    destruct (i <? n); try discriminate E; try (injection E as <-; exact Hs).
  apply (IH _ _ _ (H i s Hs) E).
Qed.

Lemma some_eq {A : Type} (a b : A) : Some a = Some b -> a = b.
Proof. intros E. now injection E. Qed.

Lemma copy_general_general_preserves (P : state value -> Prop) SrcT DstT st
    src dst ds ss os io oo (s s' : state value) :
  (forall k v a, P a ->
     P (store (data dst +p k) (static_cast SrcT DstT v) a)) ->
  P s ->
  copy_general_general SrcT DstT st src dst ds ss os io oo s = Some s' ->
  P s'.
Proof.
  intros H Hs. unfold copy_general_general.
  destruct (collapse_contiguous_dims ds [ss; os]) as [ns nss].
  destruct (length ns) as [|[|[|[|[|[|n]]]]]].
  - discriminate.
  - intros E. apply some_eq in E. subst s'. now apply gg_dims_preserves.
  - intros E. apply some_eq in E. subst s'. now apply gg_dims_preserves.
  - intros E. apply some_eq in E. subst s'. now apply gg_dims_preserves.
  - intros E. apply some_eq in E. subst s'. now apply gg_dims_preserves.
  - intros E. apply some_eq in E. subst s'. now apply gg_dims_preserves.
  - cbn [Nat.ltb Nat.leb]. cbv zeta.
    apply for_step_preserves; [|exact Hs].
    intros i a Ha. now apply gg_dims_preserves.
Qed.

(** The same for a call through the type dispatch, whatever the strategy
    and the entry point. *)
Lemma dispatch_preserves (P : state value -> Prop) (src dst : array)
    (ctype : CopyType) (args : Args) (s s' : state value) :
  (forall k v a, P a ->
     P (store (data dst +p k)
          (static_cast (elem_of_dtype (dtype src)) (elem_of_dtype (dtype dst))
                       v) a)) ->
  P s ->
  copy_inplace_dispatch src dst ctype args s = Some s' ->
  P s'.
Proof.
  intros H Hs. rewrite dispatch_resolves.
  destruct ctype; cbn [copy_SrcT_DstT].
  - intros E. apply some_eq in E. subst s'. now apply copy_single_preserves.
  - intros E. apply some_eq in E. subst s'. now apply copy_vector_preserves.
  - unfold copy_general_inline, copy_general_forward.
    destruct args; intros E; apply some_eq in E; subst s';
      now apply copy_general_preserves.
  - unfold copy_general_general_inline.
    destruct args; now apply copy_general_general_preserves.
Qed.

(** *** The elements a copy writes *)

Lemma not_in_map_neq {A : Type} (f : A -> ptr) (l : list A) (q : ptr) :
  ~ In q (map f l) -> forall x, In x l -> q <> f x.
Proof. intros H x Hx ->. apply H. now apply in_map. Qed.

(** A sequence of element assignments stores its destination elements in
    order, requests no memory and leaves every other cell as it was. *)
Lemma assign_all_frame SrcT DstT sp dp (l : list (Z * Z)) (s : state value) :
  mallocs (trace (assign_all SrcT DstT sp dp l s)) = mallocs (trace s)
  /\ next_block (assign_all SrcT DstT sp dp l s) = next_block s
  /\ stores (trace (assign_all SrcT DstT sp dp l s))
     = stores (trace s) ++ map (fun p => dp +p snd p) l
  /\ forall q, ~ In q (map (fun p => dp +p snd p) l) ->
       load (assign_all SrcT DstT sp dp l s) q = load s q.
Proof.
  destruct (assign_all_trace SrcT DstT sp dp l s) as (E1 & E2 & E3).
  split; [exact E2|]. split; [exact E3|]. split; [exact E1|].
  intros q Hq. apply assign_all_other.
  intros p Hp. now apply (not_in_map_neq (fun p => dp +p snd p) l).
Qed.

Lemma fill_frame (p : ptr) (v : value) (l : list Z) (s : state value) :
  mallocs (trace (fold_left (fun s i => store (p +p i) v s) l s))
  = mallocs (trace s)
  /\ next_block (fold_left (fun s i => store (p +p i) v s) l s)
     = next_block s
  /\ stores (trace (fold_left (fun s i => store (p +p i) v s) l s))
     = stores (trace s) ++ map (fun i => p +p i) l
  /\ forall q, ~ In q (map (fun i => p +p i) l) ->
       load (fold_left (fun s i => store (p +p i) v s) l s) q = load s q.
Proof.
  revert s. induction l as [|i l IH]; intros s.
  - cbn [fold_left map]. rewrite app_nil_r. repeat split.
  - cbn [fold_left map].
    destruct (IH (store (p +p i) v s)) as (I1 & I2 & I3 & I4).
    destruct (store_allocs (p +p i) v s) as (A1 & A2).
    assert (A3 : stores (trace (store (p +p i) v s))
                 = stores (trace s) ++ [p +p i])
      by (unfold store; cbn [trace]; apply stores_cons_store).
    rewrite I1, I2, I3, A1, A2, A3, <- app_assoc.
    repeat split.
    intros q Hq. rewrite I4 by (intros H; apply Hq; now right).
    apply load_store_other. intros ->. apply Hq. now left.
Qed.

(** X3. The elements an in-place copy writes.  For a view with a dimension
    other than 1 whose shape fits an [int], with source and destination of
    as many elements as the view and offsets that are values of [stride_t]
    and [int64_t]: the strided in-place copy returns, with each of the four
    strategies; it requests no memory; its stores are, in this order, the
    elements of the footprint of the strategy (the first [dst.size()],
    [src.data_size()] or [product(data_shape)] elements of the destination,
    or the elements at the destination offsets of the view); and no other
    cell changes. *)
Theorem inplace_copy_footprint (st : stride_t) (src dst : array)
    (data_shape i_strides o_strides : list Z) (i_offset o_offset : Z)
    (ctype : CopyType) (s : state value) :
  (exists d, In d data_shape /\ d <> 1) ->
  length i_strides = length data_shape ->
  length o_strides = length data_shape ->
  Forall (fun d => 0 <= d) data_shape ->
  fits_int data_shape ->
  size src = prod data_shape ->
  size dst = prod data_shape ->
  in_range stride_int64_t i_offset -> in_range stride_int64_t o_offset ->
  offsets_fit st data_shape i_strides i_offset = true ->
  offsets_fit stride_int64_t data_shape i_strides i_offset = true ->
  offsets_fit stride_int64_t data_shape o_strides o_offset = true ->
  exists s',
    copy_inplace_strided st src dst data_shape i_strides o_strides
                         i_offset o_offset ctype s = Some s'
    /\ mallocs (trace s') = mallocs (trace s)
    /\ next_block s' = next_block s
    /\ stores (trace s')
       = stores (trace s)
         ++ footprint src dst data_shape o_strides o_offset ctype
    /\ forall q,
         ~ In q (footprint src dst data_shape o_strides o_offset ctype) ->
         load s' q = load s q.
Proof.
  intros Hd H1 H2 Hds Hint Hss Hsd Hio Hoo Fst Fi Fo.
  apply has_dim_nonempty in Hd.
  unfold copy_inplace_strided.
  destruct ctype; rewrite dispatch_resolves; cbn [copy_SrcT_DstT footprint].
  - eexists. split; [reflexivity|].
    unfold copy_single. cbv zeta. rewrite for_int_fold.
    apply fill_frame.
  - eexists. split; [reflexivity|].
    rewrite copy_vector_visits.
    match goal with
    | |- context [assign_all ?S ?D ?p ?q ?l ?t] =>
        pose proof (assign_all_frame S D p q l t) as F
    end.
    rewrite map_map in F. exact F.
  - eexists. split; [reflexivity|]. unfold copy_general_forward.
    rewrite copy_general_is_reference, copy_reference_visits by assumption.
    match goal with
    | |- context [assign_all ?S ?D ?p ?q ?l ?t] =>
        pose proof (assign_all_frame S D p q l t) as F
    end.
    rewrite map_map in F. exact F.
  - rewrite copy_general_general_is_reference by assumption.
    eexists. split; [reflexivity|].
    rewrite copy_reference_general_visits, pairs_elem_to_loc, map_map
      by assumption.
    match goal with
    | |- context [assign_all ?S ?D ?p ?q ?l ?t] =>
        pose proof (assign_all_frame S D p q l t) as F
    end.
    rewrite map_map in F. exact F.
Qed.

(** X4. The top-level copy fills the buffer it allocates and writes
    nothing else.  With [n] the source's reachable element count for Vector
    and the destination's size for the other strategies: the call returns;
    without donation the destination points at the start of the one new
    buffer, requested with [n * itemsize(dst)] bytes, and with donation at
    the source's buffer, with no request; the stores of the call are the
    elements 0, 1, ..., [n - 1] of that buffer, in order; and no other cell
    changes.  The element counts fit the [int] counters, and for General
    and GeneralGeneral the destination has the source's size. *)
Theorem copy_fills_its_allocation (src dst : array) (ctype : CopyType)
    (s : state value) :
  (ctype = Scalar -> size dst <= INT_MAX) ->
  (ctype = General \/ ctype = GeneralGeneral ->
   length (strides src) = length (shape src)
   /\ Forall (fun d => 0 <= d) (shape src)
   /\ fits_int (shape src)
   /\ size dst = size src
   /\ offsets_fit stride_size_t (shape src) (strides src) 0 = true) ->
  (ctype = Vector -> 0 <= data_size src * itemsize dst < 2 ^ 64) ->
  exists dst' s',
    copy src dst ctype s = Some (dst', s')
    /\ (if match ctype with
           | Vector => is_donatable src && (itemsize src =? itemsize dst)
           | _ => false
           end
        then data dst' = data src
             /\ mallocs (trace s') = mallocs (trace s)
        else data dst' = mkptr (next_block s) 0
             /\ mallocs (trace s')
                = mallocs (trace s)
                  ++ [match ctype with
                      | Vector => data_size src
                      | _ => size dst
                      end * itemsize dst])
    /\ stores (trace s')
       = stores (trace s)
         ++ map (fun j => data dst' +p j)
                (zseq match ctype with
                      | Vector => data_size src
                      | _ => size dst
                      end)
    /\ forall q,
         (forall j, 0 <= j < match ctype with
                             | Vector => data_size src
                             | _ => size dst
                             end -> q <> data dst' +p j) ->
         load s' q = load s q.
Proof.
  intros HS HG HV.
  assert (G : forall c, c = General \/ c = GeneralGeneral -> ctype = c ->
              exists dst' s',
                copy src dst ctype s = Some (dst', s')
                /\ (data dst' = mkptr (next_block s) 0
                    /\ mallocs (trace s')
                       = mallocs (trace s) ++ [size dst * itemsize dst])
                /\ stores (trace s')
                   = stores (trace s)
                     ++ map (fun j => data dst' +p j) (zseq (size dst))
                /\ forall q,
                     (forall j, 0 <= j < size dst -> q <> data dst' +p j) ->
                     load s' q = load s q).
  { intros c Hc Ec.
    destruct (HG ltac:(now rewrite Ec)) as (Hlen & Hds & Hint & Hsz & Hfit).
    assert (E : copy src dst ctype s = copy src dst General s)
      by (rewrite Ec; destruct Hc as [->| ->]; reflexivity).
    rewrite E. unfold copy. cbn [malloc_or_wait].
    unfold copy_inplace. rewrite dispatch_resolves. cbn [copy_SrcT_DstT].
    eexists. eexists. split; [reflexivity|].
    unfold copy_general_inline.
    rewrite copy_general_is_reference, copy_reference_visits;
      [ | exact Hlen | exact Hds | exact Hsz | exact Hfit ].
    match goal with
    | |- context [assign_all ?S ?D ?p ?q ?l ?t] =>
        destruct (assign_all_frame S D p q l t) as (F1 & F2 & F3 & F4)
    end.
    rewrite map_map in F3, F4. cbn [snd] in F3, F4.
    rewrite F1, F3. cbn [trace].
    rewrite mallocs_cons_malloc, stores_cons_malloc.
    split; [split; reflexivity|].
    split; [rewrite Hsz; reflexivity|].
    intros q Hq. rewrite F4; [reflexivity|].
    intros Hin. apply in_map_iff in Hin. destruct Hin as (j & <- & Hj).
    apply in_zseq in Hj.
    apply (Hq j); [rewrite Hsz; exact Hj|reflexivity]. }
  destruct ctype.
  - (* Scalar *)
    unfold copy. cbn [malloc_or_wait].
    unfold copy_inplace. rewrite dispatch_resolves. cbn [copy_SrcT_DstT].
    eexists. eexists. split; [reflexivity|].
    unfold copy_single. cbv zeta. rewrite for_int_fold.
    match goal with
    | |- context [fold_left (fun s i => store (?p +p i) ?v s) ?l ?t] =>
        destruct (fill_frame p v l t) as (F1 & F2 & F3 & F4)
    end.
    rewrite F1, F3. cbn [trace].
    rewrite mallocs_cons_malloc, stores_cons_malloc.
    split; [split; reflexivity|]. split; [reflexivity|].
    intros q Hq. rewrite F4; [reflexivity|].
    intros Hin. apply in_map_iff in Hin. destruct Hin as (j & <- & Hj).
    apply in_zseq in Hj. now apply (Hq j).
  - (* Vector *)
    specialize (HV eq_refl). unfold copy.
    destruct (is_donatable src && (itemsize src =? itemsize dst));
      cbn [malloc_or_wait]; unfold copy_inplace; rewrite dispatch_resolves;
      cbn [copy_SrcT_DstT]; eexists; eexists; (split; [reflexivity|]);
      rewrite copy_vector_visits;
      match goal with
      | |- context [assign_all ?S ?D ?p ?q ?l ?t] =>
          destruct (assign_all_frame S D p q l t) as (F1 & F2 & F3 & F4)
      end;
      rewrite map_map in F3, F4; cbn [snd] in F3, F4;
      rewrite F1, F3; cbn [trace].
    + split; [split; reflexivity|]. split; [reflexivity|].
      intros q Hq. rewrite F4; [reflexivity|].
      intros Hin. apply in_map_iff in Hin. destruct Hin as (j & <- & Hj).
      apply in_zseq in Hj. now apply (Hq j).
    + rewrite mallocs_cons_malloc, stores_cons_malloc.
      split;
        [split;
           [reflexivity
           |unfold wrap_u64; now rewrite Z.mod_small by exact HV]|].
      split; [reflexivity|].
      intros q Hq. rewrite F4; [reflexivity|].
      intros Hin. apply in_map_iff in Hin. destruct Hin as (j & <- & Hj).
      apply in_zseq in Hj. now apply (Hq j).
  - apply (G General); auto.
  - apply (G GeneralGeneral); auto.
Qed.

(** *** What the destination holds after a copy *)

Lemma NoDup_zseq (n : Z) : NoDup (zseq n).
Proof.
  unfold zseq. apply NoDup_map_NoDup_ForallPairs; [|apply seq_NoDup].
  intros x y _ _ E. lia.
Qed.

(** When no two assignments write the same element and none writes an
    element another one reads, every written element holds the cast of
    what its source element held before. *)
Lemma assign_all_values SrcT DstT sp dp (l : list (Z * Z)) (s : state value) :
  NoDup (map snd l) ->
  (forall p p', In p l -> In p' l -> sp +p fst p <> dp +p snd p') ->
  forall p, In p l ->
    load (assign_all SrcT DstT sp dp l s) (dp +p snd p)
    = static_cast SrcT DstT (load s (sp +p fst p)).
Proof.
  induction l as [|x l IH] using rev_ind; intros Hnd Hdis p Hp;
    [destruct Hp|].
  rewrite map_app in Hnd. cbn [map] in Hnd.
  apply NoDup_remove in Hnd. rewrite app_nil_r in Hnd.
  destruct Hnd as [Hnd Hx].
  rewrite assign_all_app. unfold assign_all at 1. cbn [fold_left].
  unfold assign.
  destruct (Z.eq_dec (snd p) (snd x)) as [E|NE].
  - assert (Epx : p = x).
    { apply in_app_or in Hp. destruct Hp as [Hp|[Hp|[]]]; [|auto].
      exfalso. apply Hx. rewrite <- E. now apply in_map. }
    subst p. rewrite load_store_same. f_equal.
    apply assign_all_other. intros p' Hp'.
    apply Hdis; apply in_or_app; [right; now left|now left].
  - rewrite load_store_other
      by (intros E; apply ptr_add_inj in E; contradiction).
    apply IH; auto.
    + intros a b Ha Hb. apply Hdis; apply in_or_app; now left.
    + apply in_app_or in Hp. destruct Hp as [Hp|[Hp|[]]]; [auto|].
      subst x. contradiction.
Qed.

Lemma copy_vector_values SrcT DstT src dst (s : state value) :
  blk (data src) <> blk (data dst) \/ ofs (data dst) <= ofs (data src) ->
  forall i, 0 <= i < data_size src ->
    load (copy_vector SrcT DstT src dst s) (data dst +p i)
    = static_cast SrcT DstT (load s (data src +p i)).
Proof.
  intros Hov i Hi. rewrite copy_vector_visits. unfold zseq.
  rewrite <- (Z2Nat.id i) by lia.
  apply diagonal_load; [assumption|lia].
Qed.

Lemma copy_general_values SrcT DstT st src dst ds ss off (s : state value) :
  length ss = length ds ->
  Forall (fun d => 0 <= d) ds ->
  size dst = prod ds ->
  offsets_fit st ds ss off = true ->
  (forall j k, 0 <= j < prod ds -> 0 <= k < prod ds ->
     data src +p (off + elem_to_loc j ds ss) <> data dst +p k) ->
  (forall j, 0 <= j < prod ds ->
     load (copy_general SrcT DstT st src dst ds ss off s) (data dst +p j)
     = static_cast SrcT DstT
         (load s (data src +p (off + elem_to_loc j ds ss))))
  /\ (forall q, (forall j, 0 <= j < prod ds -> q <> data dst +p j) ->
        load (copy_general SrcT DstT st src dst ds ss off s) q = load s q).
Proof.
  intros Hlen Hds Hsz Hfit Hdis.
  rewrite copy_general_is_reference, copy_reference_visits by assumption.
  split.
  - intros j Hj.
    apply (assign_all_values SrcT DstT (data src) (data dst) _ s)
      with (p := (off + elem_to_loc j ds ss, j)).
    + rewrite map_map. cbn [snd]. rewrite map_id. apply NoDup_zseq.
    + intros p p' Hp Hp'. apply in_map_iff in Hp, Hp'.
      destruct Hp as (a & <- & Ha), Hp' as (b & <- & Hb).
      apply in_zseq in Ha, Hb. cbn [fst snd]. now apply Hdis.
    + apply in_map_iff. exists j. split; [reflexivity|now apply in_zseq].
  - intros q Hq. apply assign_all_other. intros p Hp.
    apply in_map_iff in Hp. destruct Hp as (a & <- & Ha).
    apply in_zseq in Ha. cbn [snd]. now apply Hq.
Qed.

Lemma copy_general_dim1_values SrcT DstT st src dst ds ss off
    (s : state value) :
  length ds = 1%nat -> length ss = 1%nat ->
  Forall (fun d => 0 <= d) ds ->
  offsets_fit st ds ss off = true ->
  (forall j k, 0 <= j < prod ds -> 0 <= k < prod ds ->
     data src +p (off + elem_to_loc j ds ss) <> data dst +p k) ->
  forall j, 0 <= j < prod ds ->
    load (copy_general_dim1 SrcT DstT st src dst ds ss off s) (data dst +p j)
    = static_cast SrcT DstT
        (load s (data src +p (off + elem_to_loc j ds ss))).
Proof.
  intros L1 L2 Hds Hfit Hdis j Hj.
  rewrite copy_general_dim1_nest, kernel_low_visits by assumption.
  rewrite offs_elem_to_loc by congruence.
  rewrite numbered_fit by assumption.
  apply (assign_all_values SrcT DstT (data src) (data dst) _ s)
    with (p := (off + elem_to_loc j ds ss, j)).
  - rewrite map_map. cbn [snd]. rewrite map_id. apply NoDup_zseq.
  - intros p p' Hp Hp'. apply in_map_iff in Hp, Hp'.
    destruct Hp as (a & <- & Ha), Hp' as (b & <- & Hb).
    apply in_zseq in Ha, Hb. cbn [fst snd]. now apply Hdis.
  - apply in_map_iff. exists j. split; [reflexivity|now apply in_zseq].
Qed.

Lemma copy_general_general_values SrcT DstT st src dst ds ss os io oo
    (s : state value) :
  ds <> [] ->
  length ss = length ds -> length os = length ds ->
  Forall (fun d => 0 <= d) ds ->
  size src = prod ds ->
  in_range stride_int64_t io -> in_range stride_int64_t oo ->
  offsets_fit stride_int64_t ds ss io = true ->
  offsets_fit stride_int64_t ds os oo = true ->
  (forall j k, 0 <= j < prod ds -> 0 <= k < prod ds ->
     elem_to_loc j ds os = elem_to_loc k ds os -> j = k) ->
  (forall j k, 0 <= j < prod ds -> 0 <= k < prod ds ->
     data src +p (io + elem_to_loc j ds ss)
     <> data dst +p (oo + elem_to_loc k ds os)) ->
  exists s',
    copy_general_general SrcT DstT st src dst ds ss os io oo s = Some s'
    /\ (forall j, 0 <= j < prod ds ->
          load s' (data dst +p (oo + elem_to_loc j ds os))
          = static_cast SrcT DstT
              (load s (data src +p (io + elem_to_loc j ds ss))))
    /\ (forall q,
          (forall j, 0 <= j < prod ds ->
             q <> data dst +p (oo + elem_to_loc j ds os)) ->
          load s' q = load s q).
Proof.
  intros Hne H1 H2 Hds Hsz Hio Hoo F1 F2 Hinj Hdis.
  rewrite copy_general_general_is_reference by assumption.
  eexists. split; [reflexivity|].
  rewrite copy_reference_general_visits, pairs_elem_to_loc, map_map
    by assumption.
  cbn [fst snd]. split.
  - intros j Hj.
    apply (assign_all_values SrcT DstT (data src) (data dst) _ s)
      with (p := (io + elem_to_loc j ds ss, oo + elem_to_loc j ds os)).
    + rewrite map_map. cbn [snd].
      apply NoDup_map_NoDup_ForallPairs; [|apply NoDup_zseq].
      intros a b Ha Hb E. apply in_zseq in Ha, Hb.
      apply Hinj; auto. lia.
    + intros p p' Hp Hp'. apply in_map_iff in Hp, Hp'.
      destruct Hp as (a & <- & Ha), Hp' as (b & <- & Hb).
      apply in_zseq in Ha, Hb. cbn [fst snd]. now apply Hdis.
    + apply in_map_iff. exists j. split; [reflexivity|now apply in_zseq].
  - intros q Hq. apply assign_all_other. intros p Hp.
    apply in_map_iff in Hp. destruct Hp as (a & <- & Ha).
    apply in_zseq in Ha. cbn [snd]. now apply Hq.
Qed.

(** X5. The strided in-place copy with strategy General, on a view whose
    shape fits an [int], whose offsets are values of [stride_t] and none of
    whose source elements is a destination element: afterwards destination
    element [j] holds the cast, from the source's element type to the
    destination's, of what the source element at
    [i_offset + elem_to_loc(j, data_shape, i_strides)] held before the
    call, for every [j] below the element count, and every other cell is as
    it was. *)
Theorem strided_general_copy_values (st : stride_t) (src dst : array)
    (data_shape i_strides o_strides : list Z) (i_offset o_offset : Z)
    (s : state value) :
  length i_strides = length data_shape ->
  Forall (fun d => 0 <= d) data_shape ->
  fits_int data_shape ->
  size dst = prod data_shape ->
  offsets_fit st data_shape i_strides i_offset = true ->
  (forall j k, 0 <= j < prod data_shape -> 0 <= k < prod data_shape ->
     data src +p (i_offset + elem_to_loc j data_shape i_strides)
     <> data dst +p k) ->
  exists s',
    copy_inplace_strided st src dst data_shape i_strides o_strides
                         i_offset o_offset General s = Some s'
    /\ (forall j, 0 <= j < prod data_shape ->
          load s' (data dst +p j)
          = static_cast (elem_of_dtype (dtype src)) (elem_of_dtype (dtype dst))
              (load s (data src
                       +p (i_offset + elem_to_loc j data_shape i_strides))))
    /\ (forall q,
          (forall j, 0 <= j < prod data_shape -> q <> data dst +p j) ->
          load s' q = load s q).
Proof.
  intros Hlen Hds Hint Hsz Hfit Hdis.
  unfold copy_inplace_strided. rewrite dispatch_resolves.
  cbn [copy_SrcT_DstT]. unfold copy_general_forward.
  eexists. split; [reflexivity|].
  now apply copy_general_values.
Qed.

(** X6. The strided in-place copy with strategy GeneralGeneral, on a view
    with a dimension other than 1 whose shape fits an [int], whose offsets
    on both sides are [int64_t] values, whose destination offsets are
    pairwise distinct and none of whose source elements is a destination
    element: the call returns, the destination
    element at [o_offset + elem_to_loc(j, data_shape, o_strides)] holds the
    cast of what the source element at
    [i_offset + elem_to_loc(j, data_shape, i_strides)] held before, for
    every [j] below the element count, and every other cell is as it was. *)
Theorem strided_general_general_copy_values (st : stride_t)
    (src dst : array) (data_shape i_strides o_strides : list Z)
    (i_offset o_offset : Z) (s : state value) :
  (exists d, In d data_shape /\ d <> 1) ->
  length i_strides = length data_shape ->
  length o_strides = length data_shape ->
  Forall (fun d => 0 <= d) data_shape ->
  fits_int data_shape ->
  size src = prod data_shape ->
  in_range stride_int64_t i_offset -> in_range stride_int64_t o_offset ->
  offsets_fit stride_int64_t data_shape i_strides i_offset = true ->
  offsets_fit stride_int64_t data_shape o_strides o_offset = true ->
  (forall j k, 0 <= j < prod data_shape -> 0 <= k < prod data_shape ->
     elem_to_loc j data_shape o_strides = elem_to_loc k data_shape o_strides ->
     j = k) ->
  (forall j k, 0 <= j < prod data_shape -> 0 <= k < prod data_shape ->
     data src +p (i_offset + elem_to_loc j data_shape i_strides)
     <> data dst +p (o_offset + elem_to_loc k data_shape o_strides)) ->
  exists s',
    copy_inplace_strided st src dst data_shape i_strides o_strides
                         i_offset o_offset GeneralGeneral s = Some s'
    /\ (forall j, 0 <= j < prod data_shape ->
          load s' (data dst
                   +p (o_offset + elem_to_loc j data_shape o_strides))
          = static_cast (elem_of_dtype (dtype src)) (elem_of_dtype (dtype dst))
              (load s (data src
                       +p (i_offset + elem_to_loc j data_shape i_strides))))
    /\ (forall q,
          (forall j, 0 <= j < prod data_shape ->
             q <> data dst
                  +p (o_offset + elem_to_loc j data_shape o_strides)) ->
          load s' q = load s q).
Proof.
  intros Hd H1 H2 Hds Hint Hsz Hio Hoo F1 F2 Hinj Hdis.
  apply has_dim_nonempty in Hd.
  unfold copy_inplace_strided. rewrite dispatch_resolves.
  cbn [copy_SrcT_DstT].
  now apply copy_general_general_values.
Qed.

(** X7. The top-level copy with strategy General or GeneralGeneral of a
    source whose buffer is live, whose shape fits an [int] and whose
    offsets are [size_t] values into a destination of the same element
    count: the call returns with the destination over the buffer it
    allocated, and element [j] of that
    buffer holds the cast of the source element at
    [elem_to_loc(j, shape, strides)], where shape and strides are the
    source's: a row-major, contiguous copy of the logical elements. *)
Theorem copy_general_end_to_end (src dst : array) (ctype : CopyType)
    (s : state value) :
  ctype = General \/ ctype = GeneralGeneral ->
  length (strides src) = length (shape src) ->
  Forall (fun d => 0 <= d) (shape src) ->
  fits_int (shape src) ->
  size dst = size src ->
  offsets_fit stride_size_t (shape src) (strides src) 0 = true ->
  blk (data src) <> next_block s ->
  exists dst' s',
    copy src dst ctype s = Some (dst', s')
    /\ data dst' = mkptr (next_block s) 0
    /\ forall j, 0 <= j < size src ->
         load s' (data dst' +p j)
         = static_cast (elem_of_dtype (dtype src)) (elem_of_dtype (dtype dst))
             (load s (data src
                      +p elem_to_loc j (shape src) (strides src))).
Proof.
  intros Hc Hlen Hds Hint Hsz Hfit Hlive.
  assert (E : copy src dst ctype s = copy src dst General s)
    by (destruct Hc as [->| ->]; reflexivity).
  rewrite E. unfold copy. cbn [malloc_or_wait].
  unfold copy_inplace. rewrite dispatch_resolves. cbn [copy_SrcT_DstT].
  eexists. eexists. split; [reflexivity|]. split; [reflexivity|].
  intros j Hj. unfold copy_general_inline.
  match goal with
  | |- load (copy_general ?S ?D ?st ?a ?b ?x ?y ?z ?t) _ = _ =>
      destruct (copy_general_values S D st a b x y z t Hlen Hds Hsz Hfit)
        as [V _]
  end.
  - intros a b _ _ Eq. apply (f_equal blk) in Eq. cbn in Eq. contradiction.
  - rewrite V by exact Hj. reflexivity.
Qed.

(** X8. The top-level copy with strategy Vector of a source whose buffer
    is live: whether the source's buffer is donated or a new one is
    allocated, the call returns and element [i] of the destination's buffer
    holds the cast of what element [i] of the source's buffer held before
    the call, for every [i] below the source's reachable element count. *)
Theorem copy_vector_end_to_end (src dst : array) (s : state value) :
  blk (data src) <> next_block s ->
  exists dst' s',
    copy src dst Vector s = Some (dst', s')
    /\ forall i, 0 <= i < data_size src ->
         load s' (data dst' +p i)
         = static_cast (elem_of_dtype (dtype src)) (elem_of_dtype (dtype dst))
             (load s (data src +p i)).
Proof.
  intros Hlive. unfold copy.
  destruct (is_donatable src && (itemsize src =? itemsize dst));
    cbn [malloc_or_wait]; unfold copy_inplace; rewrite dispatch_resolves;
    cbn [copy_SrcT_DstT]; eexists; eexists; (split; [reflexivity|]);
    intros i Hi; (rewrite copy_vector_values; [reflexivity| |exact Hi]).
  - right. cbn. lia.
  - left. cbn. exact Hlive.
Qed.

(** *** Strategies that agree *)

Lemma elem_to_loc_zero_strides (ds : list Z) (j : Z) :
  elem_to_loc j ds (map (fun _ => 0) ds) = 0.
Proof.
  unfold elem_to_loc. induction ds as [|d ds IH]; [reflexivity|].
  cbn [map elem_to_loc_rec].
  destruct (elem_to_loc_rec j ds (map (fun _ => 0) ds)) as [loc e].
  cbn [fst] in *. lia.
Qed.

Lemma offsets_fit_zero_strides st (ds : list Z) :
  prod ds <= 2 ^ 63 ->
  offsets_fit st ds (map (fun _ => 0) ds) 0 = true.
Proof.
  intros HP. unfold offsets_fit.
  apply andb_true_intro. split; [now apply Z.leb_le|].
  apply forallb_forall. intros j _.
  rewrite elem_to_loc_zero_strides. now destruct st.
Qed.

Lemma offsets_fit_row_major_any st (ds : list Z) :
  Forall (fun d => 0 <= d) ds -> prod ds <= 2 ^ 63 ->
  offsets_fit st ds (row_major ds) 0 = true.
Proof.
  intros Hds HP. unfold offsets_fit.
  apply andb_true_intro. split; [now apply Z.leb_le|].
  apply forallb_forall. intros j Hj. apply in_zseq in Hj.
  rewrite elem_to_loc_row_major by assumption.
  cbn [Z.add].
  destruct st; cbn [in_rangeb];
    apply andb_true_intro; split; apply andb_true_intro; split;
    try apply Z.leb_le; try apply Z.ltb_lt; lia.
Qed.

Lemma offsets_fit_bound st (ds ss : list Z) (off : Z) :
  offsets_fit st ds ss off = true -> prod ds <= 2 ^ 63.
Proof.
  unfold offsets_fit. intros H. apply andb_prop in H.
  now apply Z.leb_le.
Qed.

(** Storing one value read beforehand and re-reading it for every element
    are the same while the element read is not written. *)
Lemma broadcast_fold SrcT DstT (sp dp : ptr) (s0 : state value) (l : list Z) :
  (forall i, In i l -> sp <> dp +p i) ->
  forall s, load s sp = load s0 sp ->
    fold_left (fun s i => store (dp +p i)
                            (static_cast SrcT DstT (load s0 sp)) s) l s
    = assign_all SrcT DstT sp dp (map (fun j => (0, j)) l) s.
Proof.
  induction l as [|i l IH]; intros Hdis s Hs; [reflexivity|].
  unfold assign_all in *. cbn [map fold_left fst snd].
  unfold assign at 2. rewrite ptr_add_0, Hs.
  apply IH.
  - intros k Hk. apply Hdis. now right.
  - rewrite load_store_other; [exact Hs|]. apply Hdis. now left.
Qed.

(** X9. The Scalar strategy is the General strategy on a broadcast view:
    for a view whose shape fits an [int] and all of whose strides are zero,
    read from offset 0, and a source element that is not one of the
    destination elements, the strided in-place copy with strategy General
    leaves the state the Scalar copy leaves. *)
Theorem scalar_is_general_on_zero_strides (st : stride_t) (src dst : array)
    (data_shape o_strides : list Z) (o_offset : Z) (s : state value) :
  Forall (fun d => 0 <= d) data_shape ->
  fits_int data_shape ->
  size dst = prod data_shape ->
  (forall j, 0 <= j < prod data_shape -> data src <> data dst +p j) ->
  copy_inplace src dst Scalar s
  = copy_inplace_strided st src dst data_shape
      (map (fun _ => 0) data_shape) o_strides 0 o_offset General s.
Proof.
  intros Hds Hint Hsz Hdis.
  pose proof (fits_int_bound data_shape Hds Hint) as HP.
  unfold copy_inplace_strided, copy_inplace. rewrite !dispatch_resolves.
  cbn [copy_SrcT_DstT]. f_equal. unfold copy_general_forward.
  rewrite copy_general_is_reference;
    [ | apply length_map | assumption | assumption
      | now apply offsets_fit_zero_strides ].
  rewrite copy_reference_visits.
  unfold copy_single. cbv zeta.
  rewrite Hsz, for_int_fold, ptr_add_0.
  rewrite (broadcast_fold _ _ (data src) (data dst) s);
    [ | intros i Hi; apply Hdis; now apply in_zseq | reflexivity ].
  f_equal. apply map_ext. intros j.
  now rewrite elem_to_loc_zero_strides.
Qed.

(** X10. The dual-stride path writing a row-major destination from offset
    0 is the single-stride path: on a view with a dimension other than 1
    whose shape fits an [int] and whose source offsets are values of
    [stride_t] and of [int64_t], the strided in-place copies with strategy
    GeneralGeneral and with strategy General leave the same state. *)
Theorem dual_stride_agrees_with_single_stride (st : stride_t)
    (src dst : array) (data_shape i_strides : list Z) (i_offset : Z)
    (s : state value) :
  (exists d, In d data_shape /\ d <> 1) ->
  length i_strides = length data_shape ->
  Forall (fun d => 0 <= d) data_shape ->
  fits_int data_shape ->
  size src = prod data_shape ->
  size dst = prod data_shape ->
  in_range stride_int64_t i_offset ->
  offsets_fit stride_int64_t data_shape i_strides i_offset = true ->
  offsets_fit st data_shape i_strides i_offset = true ->
  copy_inplace_strided st src dst data_shape i_strides (row_major data_shape)
                       i_offset 0 GeneralGeneral s
  = copy_inplace_strided st src dst data_shape i_strides
                         (row_major data_shape) i_offset 0 General s.
Proof.
  intros Hd Hlen Hds Hint Hss Hsd Hio F64 Fst.
  pose proof (has_dim_nonempty data_shape Hd) as Hne.
  pose proof (offsets_fit_bound _ _ _ _ F64) as HP.
  unfold copy_inplace_strided. rewrite !dispatch_resolves.
  cbn [copy_SrcT_DstT]. unfold copy_general_forward.
  rewrite copy_general_general_is_reference;
    [ | assumption | assumption | apply length_row_major | assumption
      | assumption | assumption | split; [discriminate|reflexivity]
      | assumption | now apply offsets_fit_row_major_any ].
  rewrite copy_general_is_reference by assumption.
  f_equal.
  rewrite copy_reference_general_visits, pairs_elem_to_loc, map_map
    by (auto using length_row_major).
  rewrite copy_reference_visits. cbn [fst snd].
  f_equal. apply map_ext_in. intros j Hj. apply in_zseq in Hj.
  now rewrite elem_to_loc_row_major.
Qed.

Lemma offsets_fit_empty st (ds ss : list Z) (off : Z) :
  prod ds = 0 -> offsets_fit st ds ss off = true.
Proof. intros H. unfold offsets_fit. now rewrite H. Qed.

(** X11. Copying nothing does nothing: when the view has no element (the
    product of its dimensions is zero) and the source and the destination
    have none, the strided in-place copy returns the state it was called
    in, with every one of the four strategies. *)
Theorem empty_view_is_noop (st : stride_t) (src dst : array)
    (data_shape i_strides o_strides : list Z) (i_offset o_offset : Z)
    (ctype : CopyType) (s : state value) :
  prod data_shape = 0 ->
  Forall (fun d => 0 <= d) data_shape ->
  length i_strides = length data_shape ->
  length o_strides = length data_shape ->
  size src = 0 -> size dst = 0 -> data_size src = 0 ->
  in_range stride_int64_t i_offset -> in_range stride_int64_t o_offset ->
  copy_inplace_strided st src dst data_shape i_strides o_strides
                       i_offset o_offset ctype s = Some s.
Proof.
  intros HP Hds H1 H2 Hss Hsd Hdz Hio Hoo.
  unfold copy_inplace_strided.
  destruct ctype; rewrite dispatch_resolves; cbn [copy_SrcT_DstT].
  - unfold copy_single. now rewrite Hsd.
  - unfold copy_vector. now rewrite Hdz.
  - unfold copy_general_forward.
    rewrite copy_general_is_reference;
      [ | assumption | assumption | congruence | now apply offsets_fit_empty ].
    unfold copy_reference. now rewrite HP.
  - rewrite copy_general_general_is_reference;
      [ | intros ->; discriminate HP | assumption | assumption | assumption
        | congruence | assumption | assumption
        | now apply offsets_fit_empty | now apply offsets_fit_empty ].
    unfold copy_reference_general. now rewrite HP.
Qed.

(** *** Copies that compose *)

(** X13. Scattering and gathering with the same strides compose: a
    GeneralGeneral copy that writes the row-major elements of [src] into
    [mid] at the offsets of the strides [m_strides] (pairwise distinct, from
    [m_offset] on), followed by a General copy that reads [mid] with the
    same strides and offset into [back], leaves in element [j] of [back] the
    source element [j] cast to the type of [mid] and then to the type of
    [back].  The shape has a dimension other than 1 and fits an [int], the
    three buffers are distinct and the offsets are values of [stride_t] and
    of [int64_t]. *)
Theorem scatter_then_gather (st : stride_t) (src mid back : array)
    (data_shape m_strides o_strides : list Z) (m_offset o_offset : Z)
    (s : state value) :
  (exists d, In d data_shape /\ d <> 1) ->
  length m_strides = length data_shape ->
  Forall (fun d => 0 <= d) data_shape ->
  fits_int data_shape ->
  size src = prod data_shape ->
  size back = prod data_shape ->
  in_range stride_int64_t m_offset ->
  offsets_fit stride_int64_t data_shape m_strides m_offset = true ->
  offsets_fit st data_shape m_strides m_offset = true ->
  (forall j k, 0 <= j < prod data_shape -> 0 <= k < prod data_shape ->
     elem_to_loc j data_shape m_strides = elem_to_loc k data_shape m_strides ->
     j = k) ->
  blk (data src) <> blk (data mid) ->
  blk (data mid) <> blk (data back) ->
  exists s1 s2,
    copy_inplace_strided st src mid data_shape (row_major data_shape)
      m_strides 0 m_offset GeneralGeneral s = Some s1
    /\ copy_inplace_strided st mid back data_shape m_strides o_strides
         m_offset o_offset General s1 = Some s2
    /\ forall j, 0 <= j < prod data_shape ->
         load s2 (data back +p j)
         = static_cast (elem_of_dtype (dtype mid)) (elem_of_dtype (dtype back))
             (static_cast (elem_of_dtype (dtype src))
                          (elem_of_dtype (dtype mid))
                          (load s (data src +p j))).
Proof.
  intros Hd Hlen Hds Hint Hss Hsb Hmo F64 Fst Hinj B1 B2.
  pose proof (has_dim_nonempty data_shape Hd) as Hne.
  pose proof (offsets_fit_bound _ _ _ _ F64) as HP.
  destruct (copy_general_general_values
              (elem_of_dtype (dtype src)) (elem_of_dtype (dtype mid))
              st src mid data_shape (row_major data_shape) m_strides
              0 m_offset s)
    as (s1 & E1 & V1 & _);
    [ assumption | apply length_row_major | assumption | assumption
    | assumption | split; [discriminate|reflexivity] | assumption
    | now apply offsets_fit_row_major_any | assumption | assumption
    | intros j k _ _ Eq; apply (f_equal blk) in Eq; cbn in Eq; contradiction
    | ].
  destruct (copy_general_values
              (elem_of_dtype (dtype mid)) (elem_of_dtype (dtype back))
              st mid back data_shape m_strides m_offset s1)
    as (V2 & _);
    [ assumption | assumption | assumption | assumption
    | intros j k _ _ Eq; apply (f_equal blk) in Eq; cbn in Eq; contradiction
    | ].
  exists s1. eexists. unfold copy_inplace_strided.
  split; [rewrite dispatch_resolves; exact E1|].
  split; [rewrite dispatch_resolves; reflexivity|].
  intros j Hj. unfold copy_general_forward.
  rewrite V2, V1 by exact Hj.
  now rewrite elem_to_loc_row_major, Z.add_0_l by assumption.
Qed.

Lemma length_lastn (n : nat) (l : list Z) :
  (n <= length l)%nat -> length (lastn n l) = n.
Proof. intros H. unfold lastn. rewrite length_skipn. lia. Qed.

Lemma Forall_skipn {A : Type} (P : A -> Prop) (n : nat) (l : list A) :
  Forall P l -> Forall P (skipn n l).
Proof.
  intros H. rewrite <- (firstn_skipn n l) in H.
  now apply Forall_app in H.
Qed.

(** X14. The recursive dual-stride kernel instantiated at [D], on a shape
    of rank at least [D], copies the view made of the innermost [D]
    dimensions from the offsets it is given: it leaves what the brute-force
    reference leaves for the last [D] entries of the shape and of the two
    stride vectors. *)
Theorem dims_kernel_copies_trailing_view (D : nat) (SrcT DstT : elem_t)
    (st : stride_t) (src dst : array)
    (data_shape i_strides o_strides : list Z) (i_offset o_offset : Z)
    (s : state value) :
  length i_strides = length data_shape ->
  length o_strides = length data_shape ->
  (1 <= D <= length data_shape)%nat ->
  Forall (fun d => 0 <= d) data_shape ->
  in_range stride_int64_t i_offset -> in_range stride_int64_t o_offset ->
  offsets_fit stride_int64_t (lastn D data_shape) (lastn D i_strides)
              i_offset = true ->
  offsets_fit stride_int64_t (lastn D data_shape) (lastn D o_strides)
              o_offset = true ->
  copy_general_general_dims D SrcT DstT st src dst data_shape i_strides
                            o_strides i_offset o_offset s
  = copy_reference_general SrcT DstT src dst (lastn D data_shape)
      (lastn D i_strides) (lastn D o_strides) i_offset o_offset s.
Proof.
  intros H1 H2 HD Hds Hio Hoo F1 F2.
  assert (L0 : length (lastn D data_shape) = D) by (apply length_lastn; lia).
  assert (L1 : length (lastn D i_strides) = length (lastn D data_shape))
    by (rewrite L0; apply length_lastn; lia).
  assert (L2 : length (lastn D o_strides) = length (lastn D data_shape))
    by (rewrite L0; apply length_lastn; lia).
  assert (Hl : Forall (fun d => 0 <= d) (lastn D data_shape))
    by (now apply Forall_skipn).
  rewrite copy_reference_general_visits by assumption.
  rewrite <- (wrap_in_range stride_int64_t i_offset Hio) at 1.
  rewrite <- (wrap_in_range stride_int64_t o_offset Hoo) at 1.
  apply gg_dims_spec; try assumption.
  now apply pairs_fit.
Qed.

(** X15. The two instantiations of the strided entry point agree: on a
    view of rank at least 1 whose offsets are values of [size_t] and of
    [int64_t], [copy_inplace<size_t>] and [copy_inplace<int64_t>] leave the
    same state, with every strategy. *)
Theorem stride_type_is_immaterial (src dst : array)
    (data_shape i_strides o_strides : list Z) (i_offset o_offset : Z)
    (ctype : CopyType) (s : state value) :
  data_shape <> [] ->
  length i_strides = length data_shape ->
  length o_strides = length data_shape ->
  Forall (fun d => 0 <= d) data_shape ->
  size src = prod data_shape ->
  size dst = prod data_shape ->
  in_range stride_int64_t i_offset -> in_range stride_int64_t o_offset ->
  offsets_fit stride_size_t data_shape i_strides i_offset = true ->
  offsets_fit stride_int64_t data_shape i_strides i_offset = true ->
  offsets_fit stride_int64_t data_shape o_strides o_offset = true ->
  copy_inplace_strided stride_size_t src dst data_shape i_strides o_strides
                       i_offset o_offset ctype s
  = copy_inplace_strided stride_int64_t src dst data_shape i_strides
                         o_strides i_offset o_offset ctype s.
Proof.
  intros Hne H1 H2 Hds Hss Hsd Hio Hoo Fu Fi Fo.
  unfold copy_inplace_strided.
  destruct ctype; rewrite !dispatch_resolves; cbn [copy_SrcT_DstT];
    try reflexivity.
  - unfold copy_general_forward.
    now rewrite !copy_general_is_reference by assumption.
  - now rewrite !copy_general_general_is_reference by assumption.
Qed.

(** *** The rank kernels on their own *)

(** X16. Each of the seven fixed-rank single-stride kernels, called on a
    shape of its rank whose offsets are values of [stride_t], leaves what
    the brute-force reference leaves: destination element [j] gets the cast
    of the source element at [i_offset + elem_to_loc(j, data_shape,
    i_strides)], for [j] from 0 to the product of the dimensions less one,
    in this order, whatever the destination's own size is. *)
Theorem rank_kernels_equal_reference (SrcT DstT : elem_t) (st : stride_t)
    (src dst : array) (data_shape i_strides : list Z) (i_offset : Z)
    (s : state value) :
  length i_strides = length data_shape ->
  Forall (fun d => 0 <= d) data_shape ->
  offsets_fit st data_shape i_strides i_offset = true ->
  (length data_shape = 1%nat ->
   copy_general_dim1 SrcT DstT st src dst data_shape i_strides i_offset s
   = copy_reference SrcT DstT src dst data_shape i_strides i_offset s)
  /\ (length data_shape = 2%nat ->
      copy_general_dim2 SrcT DstT st src dst data_shape i_strides i_offset s
      = copy_reference SrcT DstT src dst data_shape i_strides i_offset s)
  /\ (length data_shape = 3%nat ->
      copy_general_dim3 SrcT DstT st src dst data_shape i_strides i_offset s
      = copy_reference SrcT DstT src dst data_shape i_strides i_offset s)
  /\ (length data_shape = 4%nat ->
      copy_general_dim4 SrcT DstT st src dst data_shape i_strides i_offset s
      = copy_reference SrcT DstT src dst data_shape i_strides i_offset s)
  /\ (length data_shape = 5%nat ->
      copy_general_dim5 SrcT DstT st src dst data_shape i_strides i_offset s
      = copy_reference SrcT DstT src dst data_shape i_strides i_offset s)
  /\ (length data_shape = 6%nat ->
      copy_general_dim6 SrcT DstT st src dst data_shape i_strides i_offset s
      = copy_reference SrcT DstT src dst data_shape i_strides i_offset s)
  /\ (length data_shape = 7%nat ->
      copy_general_dim7 SrcT DstT st src dst data_shape i_strides i_offset s
      = copy_reference SrcT DstT src dst data_shape i_strides i_offset s).
Proof.
  intros Hlen Hds Hfit. rewrite copy_reference_visits.
  split; [|split; [|split; [|split; [|split; [|split]]]]]; intros L.
  - rewrite copy_general_dim1_nest, kernel_low_visits by (auto; congruence).
    rewrite offs_elem_to_loc by auto. now apply numbered_fit.
  - rewrite copy_general_dim2_nest, kernel_low_visits by (auto; congruence).
    rewrite offs_elem_to_loc by auto. now apply numbered_fit.
  - rewrite copy_general_dim3_nest, kernel_low_visits by (auto; congruence).
    rewrite offs_elem_to_loc by auto. now apply numbered_fit.
  - rewrite copy_general_dim4_nest, kernel_low_visits by (auto; congruence).
    rewrite offs_elem_to_loc by auto. now apply numbered_fit.
  - rewrite copy_general_dim5_nest, kernel_high_visits by (auto; congruence).
    rewrite offs_elem_to_loc by auto. now apply numbered_fit_shifted.
  - rewrite copy_general_dim6_nest, kernel_high_visits by (auto; congruence).
    rewrite offs_elem_to_loc by auto. now apply numbered_fit_shifted.
  - rewrite copy_general_dim7_nest, kernel_high_visits by (auto; congruence).
    rewrite offs_elem_to_loc by auto. now apply numbered_fit_shifted.
Qed.

(** X17. The two-argument overload of the rank-[N] kernel, on a source of
    rank [N] whose shape fits an [int] and whose offsets are [size_t]
    values and a destination of the same element count, leaves what the
    in-place copy with strategy General leaves: collapsing the dimensions first and selecting a kernel by the
    collapsed rank changes nothing.  This holds for each [N] from 1 to 7. *)
Theorem rank_overloads_agree_with_general (SrcT DstT : elem_t)
    (src dst : array) (s : state value) :
  length (strides src) = length (shape src) ->
  Forall (fun d => 0 <= d) (shape src) ->
  fits_int (shape src) ->
  size dst = size src ->
  offsets_fit stride_size_t (shape src) (strides src) 0 = true ->
  (length (shape src) = 1%nat ->
   copy_general_dim1_inline SrcT DstT src dst s
   = copy_general_inline SrcT DstT src dst s)
  /\ (length (shape src) = 2%nat ->
      copy_general_dim2_inline SrcT DstT src dst s
      = copy_general_inline SrcT DstT src dst s)
  /\ (length (shape src) = 3%nat ->
      copy_general_dim3_inline SrcT DstT src dst s
      = copy_general_inline SrcT DstT src dst s)
  /\ (length (shape src) = 4%nat ->
      copy_general_dim4_inline SrcT DstT src dst s
      = copy_general_inline SrcT DstT src dst s)
  /\ (length (shape src) = 5%nat ->
      copy_general_dim5_inline SrcT DstT src dst s
      = copy_general_inline SrcT DstT src dst s)
  /\ (length (shape src) = 6%nat ->
      copy_general_dim6_inline SrcT DstT src dst s
      = copy_general_inline SrcT DstT src dst s)
  /\ (length (shape src) = 7%nat ->
      copy_general_dim7_inline SrcT DstT src dst s
      = copy_general_inline SrcT DstT src dst s).
Proof.
  intros Hlen Hds Hint Hsz Hfit. unfold copy_general_inline.
  rewrite copy_general_is_reference by assumption.
  rewrite copy_reference_visits.
  split; [|split; [|split; [|split; [|split; [|split]]]]]; intros L.
  - unfold copy_general_dim1_inline.
    rewrite copy_general_dim1_nest, kernel_low_visits by (auto; congruence).
    rewrite offs_elem_to_loc by auto. now apply numbered_fit.
  - unfold copy_general_dim2_inline.
    rewrite copy_general_dim2_nest, kernel_low_visits by (auto; congruence).
    rewrite offs_elem_to_loc by auto. now apply numbered_fit.
  - unfold copy_general_dim3_inline.
    rewrite copy_general_dim3_nest, kernel_low_visits by (auto; congruence).
    rewrite offs_elem_to_loc by auto. now apply numbered_fit.
  - unfold copy_general_dim4_inline.
    rewrite copy_general_dim4_nest, kernel_low_visits by (auto; congruence).
    rewrite offs_elem_to_loc by auto. now apply numbered_fit.
  - unfold copy_general_dim5_inline.
    rewrite copy_general_dim5_nest, kernel_high_visits by (auto; congruence).
    rewrite offs_elem_to_loc by auto. now apply numbered_fit_shifted.
  - unfold copy_general_dim6_inline.
    rewrite copy_general_dim6_nest, kernel_high_visits by (auto; congruence).
    rewrite offs_elem_to_loc by auto. now apply numbered_fit_shifted.
  - unfold copy_general_dim7_inline.
    rewrite copy_general_dim7_nest, kernel_high_visits by (auto; congruence).
    rewrite offs_elem_to_loc by auto. now apply numbered_fit_shifted.
Qed.

End Facts.

(* ================================================================== *)
(** ** Integral conversions in the kernels *)

Lemma low_bits_mod (w v : Z) : 0 <= w -> low_bits w v = v mod 2 ^ w.
Proof. intros Hw. unfold low_bits. now apply Z.land_ones. Qed.

Lemma unsigned_width (t : elem_t) (w : Z) :
  int_kind_of t = IUnsigned w -> 0 < w.
Proof. destruct t; simpl; intros E; inversion E; lia. Qed.

Lemma integral_cast_unsigned (SrcT DstT : elem_t) (w v : Z) :
  int_kind_of DstT = IUnsigned w -> integral_cast SrcT DstT v = v mod 2 ^ w.
Proof.
  intros E. unfold integral_cast. rewrite E.
  apply low_bits_mod. apply unsigned_width in E. lia.
Qed.

Lemma as_signed_mod (w v : Z) :
  0 < w ->
  as_signed w (v mod 2 ^ w) = (v + 2 ^ (w - 1)) mod 2 ^ w - 2 ^ (w - 1).
Proof.
  intros Hw. unfold as_signed. rewrite Z.shiftl_1_l.
  assert (E : 2 ^ w = 2 * 2 ^ (w - 1)).
  { rewrite <- Z.pow_succ_r by lia. f_equal. lia. }
  assert (Hh : 0 < 2 ^ (w - 1)) by (apply Z.pow_pos_nonneg; lia).
  set (h := 2 ^ (w - 1)) in *. rewrite E.
  pose proof (Z.mod_pos_bound v (2 * h) ltac:(lia)) as Hu.
  rewrite <- (Z.add_mod_idemp_l v h) by lia.
  set (u := v mod (2 * h)) in *.
  destruct (Z_lt_ge_dec u h) as [Hlt|Hge].
  - replace (Z.testbit u (w - 1)) with false.
    + rewrite Z.mod_small by lia. lia.
    + symmetry. apply Z.testbit_false; [lia|]. fold h.
      now rewrite Z.div_small by lia.
  - replace (Z.testbit u (w - 1)) with true.
    + rewrite <- (Z.mod_unique (u + h) (2 * h) 1 (u - h)) by lia. lia.
    + symmetry. apply Z.testbit_true; [lia|]. fold h.
      replace (u / h) with 1; [reflexivity|].
      apply (Z.div_unique u h 1 (u - h)); lia.
Qed.

Lemma signed_width (t : elem_t) (w : Z) :
  int_kind_of t = ISigned w -> 0 < w.
Proof. destruct t; simpl; intros E; inversion E; lia. Qed.

Lemma integral_cast_signed (SrcT DstT : elem_t) (w v : Z) :
  int_kind_of DstT = ISigned w ->
  integral_cast SrcT DstT v = (v + 2 ^ (w - 1)) mod 2 ^ w - 2 ^ (w - 1).
Proof.
  intros E. unfold integral_cast. rewrite E.
  apply signed_width in E.
  rewrite low_bits_mod by lia. now apply as_signed_mod.
Qed.

(** C5. The cast the kernels apply per element narrows an integer by
    wrapping.  The source elements hold integers of the (integral) source
    type.  Then every destination element of a Scalar copy (a destination
    whose element count fits the [int] counter), and every destination
    element of the rank-1 kernel (a shape that fits an [int], offsets that
    are values of [stride_t], no source element among the destination
    elements), holds its source element reduced modulo [2^w] for a [w]-bit
    unsigned destination type, and the number congruent to it modulo [2^w]
    in the two's complement range for a [w]-bit signed one. *)
Theorem narrowing_cast_wraps (SrcT DstT : elem_t) (src dst : array)
    (s : state Z) :
  (size dst <= INT_MAX ->
   representable SrcT (load s (data src)) ->
   forall j, 0 <= j < size dst ->
     (forall w, int_kind_of DstT = IUnsigned w ->
        load (copy_single (cast := int_cast) SrcT DstT src dst s)
             (data dst +p j)
        = load s (data src) mod 2 ^ w)
     /\ (forall w, int_kind_of DstT = ISigned w ->
           load (copy_single (cast := int_cast) SrcT DstT src dst s)
                (data dst +p j)
           = (load s (data src) + 2 ^ (w - 1)) mod 2 ^ w - 2 ^ (w - 1)))
  /\ (forall st data_shape i_strides i_offset,
        length data_shape = 1%nat -> length i_strides = 1%nat ->
        Forall (fun d => 0 <= d) data_shape ->
        fits_int data_shape ->
        offsets_fit st data_shape i_strides i_offset = true ->
        (forall j k, 0 <= j < prod data_shape -> 0 <= k < prod data_shape ->
           data src +p (i_offset + elem_to_loc j data_shape i_strides)
           <> data dst +p k) ->
        forall j, 0 <= j < prod data_shape ->
          representable SrcT
            (load s (data src
                     +p (i_offset + elem_to_loc j data_shape i_strides))) ->
          (forall w, int_kind_of DstT = IUnsigned w ->
             load (copy_general_dim1 (cast := int_cast) SrcT DstT st src dst
                     data_shape i_strides i_offset s) (data dst +p j)
             = load s (data src
                       +p (i_offset + elem_to_loc j data_shape i_strides))
               mod 2 ^ w)
          /\ (forall w, int_kind_of DstT = ISigned w ->
                load (copy_general_dim1 (cast := int_cast) SrcT DstT st src
                        dst data_shape i_strides i_offset s) (data dst +p j)
                = (load s (data src
                           +p (i_offset
                               + elem_to_loc j data_shape i_strides))
                   + 2 ^ (w - 1)) mod 2 ^ w - 2 ^ (w - 1))).
Proof.
  split.
  - intros Hint Hv j Hj.
    rewrite (copy_single_load (cast := int_cast)) by exact Hj.
    unfold static_cast, int_cast.
    split; intros w E;
      [now apply integral_cast_unsigned|now apply integral_cast_signed].
  - intros st ds ss off L1 L2 Hds Hint Hfit Hdis j Hj Hv.
    rewrite (copy_general_dim1_values (cast := int_cast)) by assumption.
    unfold static_cast, int_cast.
    split; intros w E;
      [now apply integral_cast_unsigned|now apply integral_cast_signed].
Qed.

(** 300 in a Scalar copy into six 8-bit unsigned elements, and 300 and
    513 through the rank-1 kernel: 44, and 44 and 1. *)
Lemma narrowing_cast_wraps_witness :
  (forall j, 0 <= j < size bytes ->
     load (copy_single (cast := int_cast) int32_t uint8_t scalar300 bytes
             scalar_state) (data bytes +p j)
     = load scalar_state (data scalar300) mod 2 ^ 8)
  /\ load scalar_state (data scalar300) mod 2 ^ 8 = 44
  /\ (forall j, 0 <= j < prod [2] ->
        load (copy_general_dim1 (cast := int_cast) int32_t uint8_t
                stride_size_t (dense int32 [2] 0 false)
                (dense uint8 [2] 1 false) [2] [1] 0 (state_of [300; 513]))
             (data (dense uint8 [2] 1 false) +p j)
        = load (state_of [300; 513])
            (data (dense int32 [2] 0 false) +p (0 + elem_to_loc j [2] [1]))
          mod 2 ^ 8)
  /\ cells (copy_single (cast := int_cast) int32_t uint8_t scalar300 bytes
              scalar_state) 1 6 = [44; 44; 44; 44; 44; 44]
  /\ cells (copy_general_dim1 (cast := int_cast) int32_t uint8_t stride_size_t
              (dense int32 [2] 0 false) (dense uint8 [2] 1 false)
              [2] [1] 0 (state_of [300; 513])) 1 2 = [44; 1].
Proof.
  split.
  { intros j Hj.
    destruct (proj1 (narrowing_cast_wraps int32_t uint8_t scalar300 bytes
                       scalar_state)
                ltac:(vm_compute; discriminate)
                ltac:(vm_compute; split; [discriminate|reflexivity])
                j Hj) as [U _].
    exact (U 8 eq_refl). }
  split; [reflexivity|].
  split; [|split; reflexivity].
  intros j Hj.
  assert (R : representable int32_t
                (load (state_of [300; 513])
                   (data (dense int32 [2] 0 false)
                    +p (0 + elem_to_loc j [2] [1])))).
  { change (prod [2]) with 2 in Hj.
    assert (C : j = 0 \/ j = 1) by lia.
    destruct C as [->| ->]; vm_compute;
      (split; [discriminate|reflexivity]). }
  destruct (proj2 (narrowing_cast_wraps int32_t uint8_t
                     (dense int32 [2] 0 false) (dense uint8 [2] 1 false)
                     (state_of [300; 513]))
              stride_size_t [2] [1] 0 eq_refl eq_refl
              ltac:(repeat constructor; discriminate)
              ltac:(vm_compute; discriminate) eq_refl
              (fun a b _ _ E => O_S 0 (f_equal blk E)) j Hj R) as [U _].
  exact (U 8 eq_refl).
Defined.

(* ================================================================== *)
(** ** The integers a copy stores *)

Lemma cast_representable (SrcT DstT : elem_t) (v : Z) :
  int_kind_of DstT <> NotIntegral ->
  representable DstT (integral_cast SrcT DstT v).
Proof.
  intros H. unfold representable.
  destruct (int_kind_of DstT) as [|w|w|] eqn:E.
  - unfold integral_cast. rewrite E. destruct (v =? 0); auto.
  - rewrite (integral_cast_unsigned SrcT DstT w v E).
    apply Z.mod_pos_bound. apply unsigned_width in E.
    apply Z.pow_pos_nonneg; lia.
  - rewrite (integral_cast_signed SrcT DstT w v E).
    apply signed_width in E.
    assert (E2 : 2 ^ w = 2 * 2 ^ (w - 1)).
    { rewrite <- Z.pow_succ_r by lia. f_equal. lia. }
    assert (Hh : 0 < 2 ^ (w - 1)) by (apply Z.pow_pos_nonneg; lia).
    pose proof (Z.mod_pos_bound (v + 2 ^ (w - 1)) (2 ^ w) ltac:(lia)).
    lia.
  - contradiction.
Qed.

Lemma cast_id (SrcT DstT : elem_t) (v : Z) :
  representable DstT v -> integral_cast SrcT DstT v = v.
Proof.
  unfold representable. intros H.
  destruct (int_kind_of DstT) as [|w|w|] eqn:E.
  - unfold integral_cast. rewrite E. destruct H as [-> | ->]; reflexivity.
  - rewrite (integral_cast_unsigned SrcT DstT w v E).
    now apply Z.mod_small.
  - rewrite (integral_cast_signed SrcT DstT w v E).
    apply signed_width in E.
    assert (E2 : 2 ^ w = 2 * 2 ^ (w - 1)).
    { rewrite <- Z.pow_succ_r by lia. f_equal. lia. }
    rewrite Z.mod_small by lia. lia.
  - contradiction.
Qed.

(** A store of a converted integer keeps: every element stored since the
    state [s] holds a value of the destination's type. *)
Lemma store_keeps_representable (SrcT DstT : elem_t) (s a : state Z)
    (q : ptr) (v : Z) :
  int_kind_of DstT <> NotIntegral ->
  (exists l, stores (trace a) = stores (trace s) ++ l
             /\ forall p, In p l -> representable DstT (load a p)) ->
  exists l,
    stores (trace (store q (integral_cast SrcT DstT v) a))
    = stores (trace s) ++ l
    /\ forall p, In p l ->
         representable DstT (load (store q (integral_cast SrcT DstT v) a) p).
Proof.
  intros HD (l & E & R). exists (l ++ [q]). split.
  - unfold store. cbn [trace]. now rewrite stores_cons_store, E, app_assoc.
  - intros p Hp. rewrite load_store.
    destruct (ptr_eqb p q) eqn:Epq; [now apply cast_representable|].
    apply in_app_or in Hp. destruct Hp as [Hp|[Hp|[]]]; [now apply R|].
    subst p. rewrite (proj2 (ptr_eqb_eq q q) eq_refl) in Epq.
    discriminate Epq.
Qed.

Lemma injective_on_zseq (f : Z -> Z) (n : Z) :
  NoDup (map f (zseq n)) ->
  forall j k, 0 <= j < n -> 0 <= k < n -> f j = f k -> j = k.
Proof.
  intros H j k Hj Hk E. apply in_zseq in Hj, Hk.
  revert H j k Hj Hk E. generalize (zseq n) as l.
  induction l as [|x l IH]; intros Hnd j k Hj Hk E; [destruct Hj|].
  cbn [map] in Hnd. inversion Hnd as [|? ? Hx Hnd']; subst.
  destruct Hj as [<-|Hj], Hk as [<-|Hk]; auto.
  - exfalso. apply Hx. rewrite E. now apply in_map.
  - exfalso. apply Hx. rewrite <- E. now apply in_map.
Qed.

(** X18. With integer cells and an integral destination type, every
    element an in-place copy stores, through either entry point and with
    any strategy, afterwards holds an integer of the destination's type:
    within [0, 2^w) for a [w]-bit unsigned type, within
    [-2^(w-1), 2^(w-1)) for a [w]-bit signed type, 0 or 1 for the boolean
    type. *)
Theorem stored_integers_representable (src dst : array) (ctype : CopyType)
    (s : state Z) :
  int_kind_of (elem_of_dtype (dtype dst)) <> NotIntegral ->
  (forall s',
      copy_inplace (cast := int_cast) src dst ctype s = Some s' ->
      exists l,
        stores (trace s') = stores (trace s) ++ l
        /\ forall p, In p l ->
             representable (elem_of_dtype (dtype dst)) (load s' p))
  /\ (forall st data_shape i_strides o_strides i_offset o_offset s',
         copy_inplace_strided (cast := int_cast) st src dst data_shape
           i_strides o_strides i_offset o_offset ctype s = Some s' ->
         exists l,
           stores (trace s') = stores (trace s) ++ l
           /\ forall p, In p l ->
                representable (elem_of_dtype (dtype dst)) (load s' p)).
Proof.
  intros HD.
  assert (K : forall args s',
             copy_inplace_dispatch (cast := int_cast) src dst ctype args s
             = Some s' ->
             exists l,
               stores (trace s') = stores (trace s) ++ l
               /\ forall p, In p l ->
                    representable (elem_of_dtype (dtype dst)) (load s' p)).
  { intros args s'.
    apply (dispatch_preserves (cast := int_cast)
             (fun a => exists l,
                  stores (trace a) = stores (trace s) ++ l
                  /\ forall p, In p l ->
                       representable (elem_of_dtype (dtype dst)) (load a p))).
    - intros k v a Ha. now apply store_keeps_representable.
    - exists []. split; [now rewrite app_nil_r|]. intros p []. }
  split.
  - intros s'. apply K.
  - intros st ds ss os io oo s'. unfold copy_inplace_strided.
    destruct ctype; apply K.
Qed.

(** X19. Widening and narrowing back loses nothing: when every integer of
    the source's type is one of the intermediate type, the source elements
    hold integers of their type, and the three buffers are distinct, a
    Vector copy into the intermediate array followed by a Vector copy from
    it into an array of the source's type leaves in that array, element for
    element, what the source holds. *)
Theorem widen_then_narrow_round_trip (src mid back : array) (s : state Z) :
  dtype back = dtype src ->
  (forall v, representable (elem_of_dtype (dtype src)) v ->
             representable (elem_of_dtype (dtype mid)) v) ->
  data_size mid = data_size src ->
  blk (data src) <> blk (data mid) ->
  blk (data mid) <> blk (data back) ->
  (forall i, 0 <= i < data_size src ->
     representable (elem_of_dtype (dtype src)) (load s (data src +p i))) ->
  exists s1 s2,
    copy_inplace (cast := int_cast) src mid Vector s = Some s1
    /\ copy_inplace (cast := int_cast) mid back Vector s1 = Some s2
    /\ forall i, 0 <= i < data_size src ->
         load s2 (data back +p i) = load s (data src +p i).
Proof.
  intros Hty Hw Hsz H1 H2 Hv.
  unfold copy_inplace.
  eexists. eexists.
  split; [rewrite dispatch_resolves; reflexivity|].
  split; [rewrite dispatch_resolves; reflexivity|].
  intros i Hi.
  rewrite (copy_vector_values (cast := int_cast)) by (auto; lia).
  rewrite (copy_vector_values (cast := int_cast)) by auto.
  rewrite Hty.
  unfold static_cast, int_cast.
  rewrite (cast_id _ (elem_of_dtype (dtype mid))) by auto.
  now apply cast_id, Hv.
Qed.

(** *** Narrowing in two steps *)

Lemma pow2_split (a b : Z) : 0 <= a <= b -> 2 ^ b = 2 ^ (b - a) * 2 ^ a.
Proof. intros H. rewrite <- Z.pow_add_r by lia. f_equal. lia. Qed.

(** The conversion to a [w]-bit integer type depends on its argument
    modulo [2^w] only. *)
Lemma cast_congr (S1 S2 DstT : elem_t) (x y : Z) :
  0 < int_bits DstT ->
  (x - y) mod 2 ^ int_bits DstT = 0 ->
  integral_cast S1 DstT x = integral_cast S2 DstT y.
Proof.
  unfold int_bits. intros Hw H.
  destruct (int_kind_of DstT) as [|w|w|] eqn:E; try lia.
  - rewrite !(integral_cast_unsigned _ DstT w _ E).
    apply Z.mod_divide in H; [|apply Z.pow_nonzero; lia].
    destruct H as [k Hk]. replace x with (y + k * 2 ^ w) by lia.
    apply Z.mod_add. apply Z.pow_nonzero; lia.
  - rewrite !(integral_cast_signed _ DstT w _ E). f_equal.
    apply Z.mod_divide in H; [|apply Z.pow_nonzero; lia].
    destruct H as [k Hk].
    replace (x + 2 ^ (w - 1)) with (y + 2 ^ (w - 1) + k * 2 ^ w) by lia.
    apply Z.mod_add. apply Z.pow_nonzero; lia.
Qed.

(** The conversion to a [w]-bit integer type changes its argument by a
    multiple of [2^w]. *)
Lemma cast_residue (SrcT DstT : elem_t) (v : Z) :
  0 < int_bits DstT ->
  exists k, integral_cast SrcT DstT v = v + k * 2 ^ int_bits DstT.
Proof.
  unfold int_bits. intros Hw.
  destruct (int_kind_of DstT) as [|w|w|] eqn:E; try lia.
  - rewrite (integral_cast_unsigned _ DstT w _ E).
    exists (- (v / 2 ^ w)).
    pose proof (Z.div_mod v (2 ^ w) ltac:(apply Z.pow_nonzero; lia)). lia.
  - rewrite (integral_cast_signed _ DstT w _ E).
    exists (- ((v + 2 ^ (w - 1)) / 2 ^ w)).
    pose proof (Z.div_mod (v + 2 ^ (w - 1)) (2 ^ w)
                  ltac:(apply Z.pow_nonzero; lia)). lia.
Qed.

Lemma cast_through_wider (S M D : elem_t) (v : Z) :
  0 < int_bits D <= int_bits M ->
  integral_cast M D (integral_cast S M v) = integral_cast S D v.
Proof.
  intros H. destruct (cast_residue S M v ltac:(lia)) as [k ->].
  apply cast_congr; [lia|].
  replace (v + k * 2 ^ int_bits M - v) with (k * 2 ^ int_bits M) by ring.
  rewrite (pow2_split (int_bits D) (int_bits M)) by lia.
  rewrite Z.mul_assoc. apply Z.mod_mul. apply Z.pow_nonzero; lia.
Qed.

(** X20. Narrowing in two steps is narrowing in one: with integer cells,
    a Vector copy into an intermediate array of a signed or unsigned integer
    type followed by a Vector copy from it into an array of an integer type
    that is not wider leaves, in every element of the last array, the cast
    of the source element straight to the last type.  The source elements
    hold integers of the (integral) source type and the three buffers are
    distinct. *)
Theorem narrowing_in_two_steps (src mid back : array) (s : state Z) :
  0 < int_bits (elem_of_dtype (dtype back))
      <= int_bits (elem_of_dtype (dtype mid)) ->
  (forall i, 0 <= i < data_size src ->
     representable (elem_of_dtype (dtype src)) (load s (data src +p i))) ->
  data_size mid = data_size src ->
  blk (data src) <> blk (data mid) ->
  blk (data mid) <> blk (data back) ->
  exists s1 s2,
    copy_inplace (cast := int_cast) src mid Vector s = Some s1
    /\ copy_inplace (cast := int_cast) mid back Vector s1 = Some s2
    /\ forall i, 0 <= i < data_size src ->
         load s2 (data back +p i)
         = @static_cast Z int_cast (elem_of_dtype (dtype src))
             (elem_of_dtype (dtype back)) (load s (data src +p i)).
Proof.
  intros Hw Hv Hsz H1 H2.
  unfold copy_inplace.
  eexists. eexists.
  split; [rewrite dispatch_resolves; reflexivity|].
  split; [rewrite dispatch_resolves; reflexivity|].
  intros i Hi.
  rewrite (copy_vector_values (cast := int_cast)) by (auto; lia).
  rewrite (copy_vector_values (cast := int_cast)) by auto.
  unfold static_cast, int_cast.
  now apply cast_through_wider.
Qed.

(** *** Donation between arrays of one type *)

Lemma copy_vector_other (SrcT DstT : elem_t) (src dst : array) (s : state Z)
    (q : ptr) :
  (forall i, 0 <= i < data_size src -> q <> data dst +p i) ->
  load (copy_vector (cast := int_cast) SrcT DstT src dst s) q = load s q.
Proof.
  intros Hq. rewrite copy_vector_visits.
  apply assign_all_other. intros p Hp.
  apply in_map_iff in Hp. destruct Hp as (i & <- & Hi).
  apply in_zseq in Hi. cbn [snd]. now apply Hq.
Qed.

(** X21. A donated copy between arrays of one integer type changes no
    cell: when the source is donatable, the destination has the source's
    type and the source's elements hold integers of that type, the
    top-level Vector copy returns the destination over the source's buffer
    and a memory equal, cell for cell, to the one it was called in (the
    element-wise loop runs and stores every element's own value). *)
Theorem donated_same_type_copy_keeps_memory (src dst : array) (s : state Z) :
  is_donatable src = true ->
  dtype dst = dtype src ->
  (forall i, 0 <= i < data_size src ->
     representable (elem_of_dtype (dtype src)) (load s (data src +p i))) ->
  exists dst' s',
    copy (cast := int_cast) src dst Vector s = Some (dst', s')
    /\ data dst' = data src
    /\ forall q, load s' q = load s q.
Proof.
  intros Hd Hty Hv. unfold copy, itemsize.
  rewrite Hd, Hty, Z.eqb_refl. cbn [andb].
  unfold copy_inplace. rewrite dispatch_resolves. cbn [copy_SrcT_DstT].
  eexists. eexists. split; [reflexivity|]. split; [reflexivity|].
  intros q. cbn [dtype copy_shared_buffer]. rewrite Hty.
  destruct (Nat.eq_dec (blk q) (blk (data src))) as [Eb|Nb];
    [destruct (Z_le_gt_dec (ofs (data src)) (ofs q)) as [Lo|Lo];
     [destruct (Z_lt_ge_dec (ofs q) (ofs (data src) + data_size src))
        as [Hi|Hi]|]|].
  - (* an element of the buffer *)
    assert (Eq : q = data (copy_shared_buffer dst src)
                     +p (ofs q - ofs (data src))).
    { destruct q as [b o]. unfold ptr_add. cbn in *. subst b. f_equal. lia. }
    rewrite Eq at 1.
    rewrite (copy_vector_values (cast := int_cast));
      [ | right; cbn; lia | cbn; lia ].
    rewrite Eq at 2. apply cast_id, Hv. lia.
  - apply copy_vector_other. intros i Hi' E. subst q.
    cbn in Hi. cbn in Hi'. lia.
  - apply copy_vector_other. intros i Hi' E. subst q.
    cbn in Lo. cbn in Hi'. lia.
  - apply copy_vector_other. intros i Hi' E. subst q.
    cbn in Nb. contradiction.
Qed.

(* ================================================================== *)
(** ** The properties on concrete arrays *)

(** C3 (the claim as stated fails). The source is donatable and the item
    sizes agree, the destination does take the source's pointer and nothing
    is allocated, and yet the element-wise loop runs: the call stores two
    elements and the shared buffer holds the converted values afterwards. *)
Lemma donation_still_runs_the_cast :
  is_donatable donor = true
  /\ itemsize donor = itemsize heir
  /\ (exists dst' s',
         copy (cast := int_cast) donor heir Vector donor_state = Some (dst', s')
         /\ data dst' = data donor
         /\ mallocs (trace s') = []
         /\ stores (trace s') = [mkptr 0 0; mkptr 0 1]
         /\ cells donor_state 0 2 = [-1; 5]
         /\ cells s' 0 2 = [4294967295; 5])
  /\ ~ (exists dst' s',
           copy (cast := int_cast) donor heir Vector donor_state
           = Some (dst', s')
           /\ data dst' = data donor
           /\ mallocs (trace s') = mallocs (trace donor_state)
           /\ stores (trace s') = stores (trace donor_state)).
Proof.
  split; [reflexivity|]. split; [reflexivity|]. split.
  - eexists. eexists. split; [reflexivity|]. repeat split.
  - intros (dst' & s' & E & _ & _ & H).
    assert (T : stores (trace s') = [mkptr 0 0; mkptr 0 1]).
    { injection E as _ <-. reflexivity. }
    rewrite T in H. discriminate H.
Qed.

Lemma donation_shares_buffer_witness :
  exists dst' s',
    copy (cast := int_cast) donor heir Vector donor_state = Some (dst', s')
    /\ data dst' = data donor
    /\ strides dst' = strides donor
    /\ flags dst' = flags donor
    /\ mallocs (trace s') = mallocs (trace donor_state)
    /\ next_block s' = next_block donor_state
    /\ stores (trace s')
       = stores (trace donor_state)
         ++ map (fun i => data donor +p i) (zseq (data_size donor)).
Proof.
  apply (donation_shares_buffer (cast := int_cast) donor heir donor_state);
    reflexivity.
Defined.


Lemma allocation_sizes_witness :
  (exists dst' s',
      copy (cast := int_cast) matrix target Vector matrix_state
      = Some (dst', s')
      /\ mallocs (trace s')
         = mallocs (trace matrix_state) ++ [data_size matrix * itemsize target]
      /\ strides dst' = strides matrix
      /\ flags dst' = flags matrix)
  /\ (exists dst' s',
         copy (cast := int_cast) matrix target GeneralGeneral matrix_state
         = Some (dst', s')
         /\ mallocs (trace s')
            = mallocs (trace matrix_state) ++ [nbytes target]).
Proof.
  split.
  - apply (proj1 (allocation_sizes (cast := int_cast) matrix target
                    matrix_state)).
    + reflexivity.
    + split; [discriminate|reflexivity].
  - apply (proj2 (allocation_sizes (cast := int_cast) matrix target
                    matrix_state)).
    discriminate.
Defined.

Lemma vector_copies_data_size_witness :
  stores (trace (copy_vector (cast := int_cast) int32_t int16_t matrix
                   (dense int16 [7] 1 false) matrix_state))
  = stores (trace matrix_state)
    ++ map (fun i => mkptr 1 0 +p i) (zseq (data_size matrix))
  /\ (forall i, 0 <= i < data_size matrix ->
        load (copy_vector (cast := int_cast) int32_t int16_t matrix
                (dense int16 [7] 1 false) matrix_state) (mkptr 1 0 +p i)
        = @static_cast Z int_cast int32_t int16_t
            (load matrix_state (data matrix +p i)))
  /\ cells (copy_vector (cast := int_cast) int32_t int16_t matrix
              (dense int16 [7] 1 false) matrix_state) 1 7
     = [1; 2; 3; 4; 5; 4464; 0].
Proof.
  destruct (vector_copies_data_size (cast := int_cast) int32_t int16_t matrix
              (dense int16 [7] 1 false) matrix_state)
    as (H1 & _ & _ & H4).
  split; [exact H1|].
  split; [exact (H4 (or_introl (fun E : 0%nat = 1%nat => O_S 0 E)))|].
  reflexivity.
Defined.

Lemma strided_inplace_ignored_arguments_witness :
  (forall o_strides' o_offset',
      copy_inplace_strided (cast := int_cast) stride_int64_t matrix target
        [3; 2] [1; 3] [2; 1] 0 0 General matrix_state
      = copy_inplace_strided (cast := int_cast) stride_int64_t matrix target
          [3; 2] [1; 3] o_strides' 0 o_offset' General matrix_state)
  /\ (exists s',
         copy_inplace_strided (cast := int_cast) stride_int64_t matrix target
           [3; 2] [1; 3] [2; 1] 0 0 General matrix_state = Some s'
         /\ stores (trace s')
            = stores (trace matrix_state)
              ++ map (fun j => data target +p j) (zseq (prod [3; 2]))
         /\ cells s' 1 6 = [1; 4; 2; 5; 3; 4464]).
Proof.
  destruct (strided_inplace_ignored_arguments (cast := int_cast)
              stride_int64_t matrix target [3; 2] [1; 3] [2; 1] 0 0
              matrix_state) as (H1 & _ & _ & H4).
  split; [exact H1|].
  destruct (H4 eq_refl
              ltac:(repeat constructor; discriminate)
              ltac:(vm_compute; discriminate) eq_refl eq_refl)
    as (s' & E & T).
  exists s'. split; [exact E|]. split; [exact T|].
  injection E as <-. reflexivity.
Defined.

Lemma single_stride_equals_reference_witness :
  copy_general (cast := int_cast) int32_t int16_t stride_size_t
    (dense int32 shape8 0 false) (dense int16 shape8 1 false)
    shape8 strides8 0 eight_state
  = copy_reference (cast := int_cast) int32_t int16_t
      (dense int32 shape8 0 false) (dense int16 shape8 1 false)
      shape8 strides8 0 eight_state.
Proof.
  apply (single_stride_equals_reference (cast := int_cast)).
  - reflexivity.
  - repeat constructor; discriminate.
  - vm_compute; discriminate.
  - reflexivity.
  - reflexivity.
Defined.

Lemma dual_stride_equals_reference_witness :
  copy_general_general (cast := int_cast) int32_t int16_t stride_int64_t
    (dense int32 shape7 0 false) (dense int16 shape7 1 false)
    shape7 i_strides7 o_strides7 0 0 eight_state
  = Some (copy_reference_general (cast := int_cast) int32_t int16_t
            (dense int32 shape7 0 false) (dense int16 shape7 1 false)
            shape7 i_strides7 o_strides7 0 0 eight_state).
Proof.
  apply (dual_stride_equals_reference (cast := int_cast)).
  - exists 2. split; [right; now left|discriminate].
  - reflexivity.
  - reflexivity.
  - repeat constructor; discriminate.
  - vm_compute; discriminate.
  - reflexivity.
  - split; [discriminate|reflexivity].
  - split; [discriminate|reflexivity].
  - reflexivity.
  - reflexivity.
Defined.

(** The transposed read of the 2 x 3 matrix into an [int16] buffer. *)
Lemma strided_general_copy_values_witness :
  exists s',
    copy_inplace_strided (cast := int_cast) stride_int64_t matrix target
      [3; 2] [1; 3] [2; 1] 0 0 General matrix_state = Some s'
    /\ (forall j, 0 <= j < prod [3; 2] ->
          load s' (data target +p j)
          = @static_cast Z int_cast (elem_of_dtype (dtype matrix))
              (elem_of_dtype (dtype target))
              (load matrix_state
                 (data matrix +p (0 + elem_to_loc j [3; 2] [1; 3]))))
    /\ (forall q,
          (forall j, 0 <= j < prod [3; 2] -> q <> data target +p j) ->
          load s' q = load matrix_state q).
Proof.
  apply (strided_general_copy_values (cast := int_cast) stride_int64_t
           matrix target [3; 2] [1; 3] [2; 1] 0 0 matrix_state).
  - reflexivity.
  - repeat constructor; discriminate.
  - vm_compute; discriminate.
  - reflexivity.
  - reflexivity.
  - intros j k _ _ E. discriminate E.
Defined.

(** The transposed write of the 2 x 3 matrix. *)
Lemma strided_general_general_copy_values_witness :
  exists s',
    copy_inplace_strided (cast := int_cast) stride_int64_t matrix target
      [2; 3] [3; 1] [1; 2] 0 0 GeneralGeneral matrix_state = Some s'
    /\ (forall j, 0 <= j < prod [2; 3] ->
          load s' (data target +p (0 + elem_to_loc j [2; 3] [1; 2]))
          = @static_cast Z int_cast (elem_of_dtype (dtype matrix))
              (elem_of_dtype (dtype target))
              (load matrix_state
                 (data matrix +p (0 + elem_to_loc j [2; 3] [3; 1]))))
    /\ (forall q,
          (forall j, 0 <= j < prod [2; 3] ->
             q <> data target +p (0 + elem_to_loc j [2; 3] [1; 2])) ->
          load s' q = load matrix_state q).
Proof.
  apply (strided_general_general_copy_values (cast := int_cast)
           stride_int64_t matrix target [2; 3] [3; 1] [1; 2] 0 0
           matrix_state).
  - exists 2. split; [now left|discriminate].
  - reflexivity.
  - reflexivity.
  - repeat constructor; discriminate.
  - vm_compute; discriminate.
  - reflexivity.
  - split; [discriminate|reflexivity].
  - split; [discriminate|reflexivity].
  - reflexivity.
  - reflexivity.
  - apply (injective_on_zseq (fun j => elem_to_loc j [2; 3] [1; 2]) 6).
    vm_compute. repeat (constructor; [cbn; lia|]). constructor.
  - intros j k _ _ E. discriminate E.
Defined.

(** The top-level General copy of the transposed matrix. *)
Lemma copy_general_end_to_end_witness :
  exists dst' s',
    copy (cast := int_cast) transposed target General matrix_state
    = Some (dst', s')
    /\ data dst' = mkptr (next_block matrix_state) 0
    /\ (forall j, 0 <= j < size transposed ->
          load s' (data dst' +p j)
          = @static_cast Z int_cast (elem_of_dtype (dtype transposed))
              (elem_of_dtype (dtype target))
              (load matrix_state
                 (data transposed
                  +p elem_to_loc j (shape transposed) (strides transposed))))
    /\ cells s' 1 6 = [1; 4; 2; 5; 3; 4464].
Proof.
  destruct (copy_general_end_to_end (cast := int_cast) transposed target
              General matrix_state
              (or_introl eq_refl) eq_refl
              ltac:(repeat constructor; discriminate)
              ltac:(vm_compute; discriminate) eq_refl eq_refl
              (fun E : 0%nat = 1%nat => O_S 0 E))
    as (dst' & s' & E & D & V).
  exists dst', s'. split; [exact E|]. split; [exact D|]. split; [exact V|].
  injection E as _ <-. reflexivity.
Defined.

(** The top-level Vector copy with a donated buffer and with a new one. *)
Lemma copy_vector_end_to_end_witness :
  (exists dst' s',
      copy (cast := int_cast) donor heir Vector donor_state = Some (dst', s')
      /\ forall i, 0 <= i < data_size donor ->
           load s' (data dst' +p i)
           = @static_cast Z int_cast (elem_of_dtype (dtype donor))
               (elem_of_dtype (dtype heir))
               (load donor_state (data donor +p i)))
  /\ (exists dst' s',
         copy (cast := int_cast) matrix target Vector matrix_state
         = Some (dst', s')
         /\ forall i, 0 <= i < data_size matrix ->
              load s' (data dst' +p i)
              = @static_cast Z int_cast (elem_of_dtype (dtype matrix))
                  (elem_of_dtype (dtype target))
                  (load matrix_state (data matrix +p i))).
Proof.
  split.
  - apply (copy_vector_end_to_end (cast := int_cast) donor heir donor_state).
    discriminate.
  - apply (copy_vector_end_to_end (cast := int_cast) matrix target
             matrix_state).
    discriminate.
Defined.

(** 300 broadcast into six [uint8] elements, by either strategy. *)
Lemma scalar_is_general_on_zero_strides_witness :
  copy_inplace (cast := int_cast) scalar300 bytes Scalar scalar_state
  = copy_inplace_strided (cast := int_cast) stride_size_t scalar300 bytes
      [2; 3] (map (fun _ => 0) [2; 3]) [3; 1] 0 0 General scalar_state.
Proof.
  apply (scalar_is_general_on_zero_strides (cast := int_cast) stride_size_t
           scalar300 bytes [2; 3] [3; 1] 0 scalar_state).
  - repeat constructor; discriminate.
  - vm_compute; discriminate.
  - reflexivity.
  - intros j _ E. discriminate E.
Defined.

Lemma dual_stride_agrees_with_single_stride_witness :
  copy_inplace_strided (cast := int_cast) stride_int64_t matrix target
    [3; 2] [1; 3] (row_major [3; 2]) 0 0 GeneralGeneral matrix_state
  = copy_inplace_strided (cast := int_cast) stride_int64_t matrix target
      [3; 2] [1; 3] (row_major [3; 2]) 0 0 General matrix_state.
Proof.
  apply (dual_stride_agrees_with_single_stride (cast := int_cast)
           stride_int64_t matrix target [3; 2] [1; 3] 0 matrix_state).
  - exists 3. split; [now left|discriminate].
  - reflexivity.
  - repeat constructor; discriminate.
  - vm_compute; discriminate.
  - reflexivity.
  - reflexivity.
  - split; [discriminate|reflexivity].
  - reflexivity.
  - reflexivity.
Defined.

Lemma empty_view_is_noop_witness :
  copy_inplace_strided (cast := int_cast) stride_int64_t empty_src empty_dst
    [0; 3] [3; 1] [3; 1] 0 0 GeneralGeneral matrix_state = Some matrix_state
  /\ copy_inplace_strided (cast := int_cast) stride_int64_t empty_src
       empty_dst [0; 3] [3; 1] [3; 1] 0 0 General matrix_state
     = Some matrix_state.
Proof.
  split.
  - apply (empty_view_is_noop (cast := int_cast) stride_int64_t empty_src
             empty_dst [0; 3] [3; 1] [3; 1] 0 0 GeneralGeneral).
    + reflexivity.
    + repeat constructor; discriminate.
    + reflexivity.
    + reflexivity.
    + reflexivity.
    + reflexivity.
    + reflexivity.
    + split; [discriminate|reflexivity].
    + split; [discriminate|reflexivity].
  - apply (empty_view_is_noop (cast := int_cast) stride_int64_t empty_src
             empty_dst [0; 3] [3; 1] [3; 1] 0 0 General).
    + reflexivity.
    + repeat constructor; discriminate.
    + reflexivity.
    + reflexivity.
    + reflexivity.
    + reflexivity.
    + reflexivity.
    + split; [discriminate|reflexivity].
    + split; [discriminate|reflexivity].
Defined.

Lemma stored_integers_representable_witness :
  exists s' l,
    copy_inplace (cast := int_cast) matrix target General matrix_state
    = Some s'
    /\ stores (trace s') = stores (trace matrix_state) ++ l
    /\ (forall p, In p l ->
          representable (elem_of_dtype (dtype target)) (load s' p))
    /\ cells s' 1 6 = [1; 2; 3; 4; 5; 4464].
Proof.
  destruct (stored_integers_representable matrix target General matrix_state
              ltac:(discriminate)) as [H _].
  destruct (H (copy_general_inline (cast := int_cast) int32_t int16_t
                 matrix target matrix_state) eq_refl) as (l & E & R).
  eexists. exists l. split; [reflexivity|]. split; [exact E|].
  split; [exact R|reflexivity].
Defined.

(** -128, 5 and 127 widened to [int32] and narrowed back to [int8]. *)
Lemma widen_then_narrow_round_trip_witness :
  exists s1 s2,
    copy_inplace (cast := int_cast) narrow wide Vector narrow_state = Some s1
    /\ copy_inplace (cast := int_cast) wide narrow_back Vector s1 = Some s2
    /\ forall i, 0 <= i < data_size narrow ->
         load s2 (data narrow_back +p i)
         = load narrow_state (data narrow +p i).
Proof.
  apply (widen_then_narrow_round_trip narrow wide narrow_back narrow_state).
  - reflexivity.
  - intros v H. unfold representable in *. cbn in *. lia.
  - reflexivity.
  - discriminate.
  - discriminate.
  - intros i Hi. change (data_size narrow) with 3 in Hi.
    assert (C : i = 0 \/ i = 1 \/ i = 2) by lia.
    destruct C as [->|[->| ->]]; vm_compute;
      (split; [discriminate|reflexivity]).
Defined.

(** The matrix written transposed into an [int16] buffer and read back. *)
Lemma scatter_then_gather_witness :
  exists s1 s2,
    copy_inplace_strided (cast := int_cast) stride_int64_t matrix target
      [2; 3] (row_major [2; 3]) [1; 2] 0 0 GeneralGeneral matrix_state
    = Some s1
    /\ copy_inplace_strided (cast := int_cast) stride_int64_t target third
         [2; 3] [1; 2] [3; 1] 0 0 General s1 = Some s2
    /\ forall j, 0 <= j < prod [2; 3] ->
         load s2 (data third +p j)
         = @static_cast Z int_cast (elem_of_dtype (dtype target))
             (elem_of_dtype (dtype third))
             (@static_cast Z int_cast (elem_of_dtype (dtype matrix))
                (elem_of_dtype (dtype target))
                (load matrix_state (data matrix +p j))).
Proof.
  apply (scatter_then_gather (cast := int_cast) stride_int64_t matrix target
           third [2; 3] [1; 2] [3; 1] 0 0 matrix_state).
  - exists 2. split; [now left|discriminate].
  - reflexivity.
  - repeat constructor; discriminate.
  - vm_compute; discriminate.
  - reflexivity.
  - reflexivity.
  - split; [discriminate|reflexivity].
  - reflexivity.
  - reflexivity.
  - apply (injective_on_zseq (fun j => elem_to_loc j [2; 3] [1; 2]) 6).
    vm_compute. repeat (constructor; [cbn; lia|]). constructor.
  - discriminate.
  - discriminate.
Defined.

(** The kernel at [D = 2] on a shape of rank 3. *)
Lemma dims_kernel_copies_trailing_view_witness :
  copy_general_general_dims (cast := int_cast) 2 int32_t int16_t
    stride_int64_t matrix target [2; 2; 3] [6; 3; 1] [6; 1; 2] 0 0
    matrix_state
  = copy_reference_general (cast := int_cast) int32_t int16_t matrix target
      (lastn 2 [2; 2; 3]) (lastn 2 [6; 3; 1]) (lastn 2 [6; 1; 2]) 0 0
      matrix_state.
Proof.
  apply (dims_kernel_copies_trailing_view (cast := int_cast) 2).
  - reflexivity.
  - reflexivity.
  - cbn. lia.
  - repeat constructor; discriminate.
  - split; [discriminate|reflexivity].
  - split; [discriminate|reflexivity].
  - reflexivity.
  - reflexivity.
Defined.


Lemma stride_type_is_immaterial_witness :
  copy_inplace_strided (cast := int_cast) stride_size_t matrix target
    [2; 3] [1; 2] [1; 2] 0 0 GeneralGeneral matrix_state
  = copy_inplace_strided (cast := int_cast) stride_int64_t matrix target
      [2; 3] [1; 2] [1; 2] 0 0 GeneralGeneral matrix_state.
Proof.
  apply (stride_type_is_immaterial (cast := int_cast) matrix target
           [2; 3] [1; 2] [1; 2] 0 0 GeneralGeneral matrix_state).
  - discriminate.
  - reflexivity.
  - reflexivity.
  - repeat constructor; discriminate.
  - reflexivity.
  - reflexivity.
  - split; [discriminate|reflexivity].
  - split; [discriminate|reflexivity].
  - reflexivity.
  - reflexivity.
  - reflexivity.
Defined.


(** 70000 narrowed to [int16] and then to [uint8], and at once. *)
Lemma narrowing_in_two_steps_witness :
  exists s1 s2,
    copy_inplace (cast := int_cast) matrix halfway Vector matrix_state
    = Some s1
    /\ copy_inplace (cast := int_cast) halfway narrowest Vector s1 = Some s2
    /\ (forall i, 0 <= i < data_size matrix ->
          load s2 (data narrowest +p i)
          = @static_cast Z int_cast (elem_of_dtype (dtype matrix))
              (elem_of_dtype (dtype narrowest))
              (load matrix_state (data matrix +p i)))
    /\ cells s1 1 6 = [1; 2; 3; 4; 5; 4464]
    /\ cells s2 2 6 = [1; 2; 3; 4; 5; 112].
Proof.
  destruct (narrowing_in_two_steps matrix halfway narrowest matrix_state)
    as (s1 & s2 & E1 & E2 & V).
  - cbn. lia.
  - intros i Hi. change (data_size matrix) with 6 in Hi.
    assert (C : i = 0 \/ i = 1 \/ i = 2 \/ i = 3 \/ i = 4 \/ i = 5) by lia.
    destruct C as [->|[->|[->|[->|[->| ->]]]]]; vm_compute;
      (split; [discriminate|reflexivity]).
  - reflexivity.
  - discriminate.
  - discriminate.
  - exists s1, s2. split; [exact E1|]. split; [exact E2|].
    split; [exact V|].
    injection E1 as <-. injection E2 as <-. split; reflexivity.
Defined.


(** The rank-3 and the rank-6 kernel on views of the eight elements. *)
Lemma rank_kernels_equal_reference_witness :
  copy_general_dim3 (cast := int_cast) int32_t int16_t stride_size_t
    (dense int32 [2; 2; 2] 0 false) (dense int16 [2; 2; 2] 1 false)
    [2; 2; 2] [1; 4; 2] 0 eight_state
  = copy_reference (cast := int_cast) int32_t int16_t
      (dense int32 [2; 2; 2] 0 false) (dense int16 [2; 2; 2] 1 false)
      [2; 2; 2] [1; 4; 2] 0 eight_state
  /\ copy_general_dim6 (cast := int_cast) int32_t int16_t stride_int64_t
       (dense int32 [2; 2; 2] 0 false) (dense int16 [2; 2; 2] 1 false)
       [1; 2; 1; 2; 1; 2] [0; -1; 5; -2; 7; -4] 7 eight_state
     = copy_reference (cast := int_cast) int32_t int16_t
         (dense int32 [2; 2; 2] 0 false) (dense int16 [2; 2; 2] 1 false)
         [1; 2; 1; 2; 1; 2] [0; -1; 5; -2; 7; -4] 7 eight_state
  /\ cells (copy_general_dim6 (cast := int_cast) int32_t int16_t
              stride_int64_t
              (dense int32 [2; 2; 2] 0 false) (dense int16 [2; 2; 2] 1 false)
              [1; 2; 1; 2; 1; 2] [0; -1; 5; -2; 7; -4] 7 eight_state) 1 8
     = [8; 4; 6; 2; 7; 3; 5; 1].
Proof.
  split; [|split].
  - apply (rank_kernels_equal_reference (cast := int_cast) int32_t int16_t
             stride_size_t (dense int32 [2; 2; 2] 0 false)
             (dense int16 [2; 2; 2] 1 false) [2; 2; 2] [1; 4; 2] 0
             eight_state).
    + reflexivity.
    + repeat constructor; discriminate.
    + reflexivity.
    + reflexivity.
  - apply (rank_kernels_equal_reference (cast := int_cast) int32_t int16_t
             stride_int64_t (dense int32 [2; 2; 2] 0 false)
             (dense int16 [2; 2; 2] 1 false) [1; 2; 1; 2; 1; 2]
             [0; -1; 5; -2; 7; -4] 7 eight_state).
    + reflexivity.
    + repeat constructor; discriminate.
    + reflexivity.
    + reflexivity.
  - reflexivity.
Defined.


(** The rank-2 overload on the transposed matrix. *)
Lemma rank_overloads_agree_with_general_witness :
  copy_general_dim2_inline (cast := int_cast) int32_t int16_t transposed
    target matrix_state
  = copy_general_inline (cast := int_cast) int32_t int16_t transposed target
      matrix_state
  /\ cells (copy_general_dim2_inline (cast := int_cast) int32_t int16_t
              transposed target matrix_state) 1 6
     = [1; 4; 2; 5; 3; 4464].
Proof.
  split; [|reflexivity].
  apply (rank_overloads_agree_with_general (cast := int_cast) int32_t
           int16_t transposed target matrix_state).
  - reflexivity.
  - repeat constructor; discriminate.
  - vm_compute; discriminate.
  - reflexivity.
  - reflexivity.
  - reflexivity.
Defined.


(** The donor's buffer handed to an [int32] destination. *)
Lemma donated_same_type_copy_keeps_memory_witness :
  exists dst' s',
    copy (cast := int_cast) donor (dense int32 [2] 1 false) Vector donor_state
    = Some (dst', s')
    /\ data dst' = data donor
    /\ (forall q, load s' q = load donor_state q)
    /\ stores (trace s') = [mkptr 0 0; mkptr 0 1].
Proof.
  destruct (donated_same_type_copy_keeps_memory donor
              (dense int32 [2] 1 false) donor_state) as (dst' & s' & E & D & M).
  - reflexivity.
  - reflexivity.
  - intros i Hi. change (data_size donor) with 2 in Hi.
    assert (C : i = 0 \/ i = 1) by lia.
    destruct C as [->| ->]; vm_compute;
      (split; [discriminate|reflexivity]).
  - exists dst', s'. split; [exact E|]. split; [exact D|]. split; [exact M|].
    injection E as _ <-. reflexivity.
Defined.



(** The 2 x 3 matrix written column by column into the destination: the
    dual-stride copy stores at the destination offsets 0, 2, 4, 1, 3, 5, in
    this order, and requests no memory. *)
Lemma inplace_copy_footprint_witness :
  footprint matrix target [2; 3] [1; 2] 0 GeneralGeneral
  = map (mkptr 1%nat) [0; 2; 4; 1; 3; 5]
  /\ exists s',
       copy_inplace_strided (cast := int_cast) stride_int64_t matrix target
         [2; 3] [3; 1] [1; 2] 0 0 GeneralGeneral matrix_state = Some s'
       /\ mallocs (trace s') = mallocs (trace matrix_state)
       /\ next_block s' = next_block matrix_state
       /\ stores (trace s')
          = stores (trace matrix_state)
            ++ footprint matrix target [2; 3] [1; 2] 0 GeneralGeneral
       /\ forall q,
            ~ In q (footprint matrix target [2; 3] [1; 2] 0 GeneralGeneral) ->
            load s' q = load matrix_state q.
Proof.
  split; [reflexivity|].
  apply (inplace_copy_footprint (cast := int_cast) stride_int64_t matrix
           target [2; 3] [3; 1] [1; 2] 0 0 GeneralGeneral matrix_state).
  - exists 2. split; [now left|discriminate].
  - reflexivity.
  - reflexivity.
  - repeat constructor; discriminate.
  - vm_compute; discriminate.
  - reflexivity.
  - reflexivity.
  - split; [discriminate|reflexivity].
  - split; [discriminate|reflexivity].
  - reflexivity.
  - reflexivity.
  - reflexivity.
Defined.

(** The General copy of the transposed 3 x 2 view into a destination without
    a buffer: one request of 12 bytes, and six stores that fill the new
    buffer from its start. *)
Lemma copy_fills_its_allocation_witness :
  exists dst' s',
    copy (cast := int_cast) transposed target General matrix_state
    = Some (dst', s')
    /\ data dst' = mkptr 1%nat 0
    /\ mallocs (trace s') = [12]
    /\ stores (trace s') = map (mkptr 1%nat) [0; 1; 2; 3; 4; 5].
Proof.
  destruct (copy_fills_its_allocation (cast := int_cast) transposed target
              General matrix_state) as (dst' & s' & E & [D M] & St & _).
  - discriminate.
  - intros _. split; [reflexivity|].
    split; [repeat constructor; discriminate|].
    split; [vm_compute; discriminate|].
    split; reflexivity.
  - discriminate.
  - exists dst', s'. split; [exact E|]. split; [exact D|].
    split; [exact M|]. rewrite St, D. reflexivity.
Defined.
